(** * Chessvine backend: bulk submission, job lifecycle, PGN parsing

    A shallow embedding of the analysis module of the backend
    ([analysis.service.ts], [worker.service.ts], [pgn-parser.service.ts],
    [types/index.ts]) together with the properties its specification states
    about it.

    Modelling conventions.
    - A JavaScript string is the list of its code units.  Code units are
      taken in the range 0..255 (the Latin-1 block), where [toLowerCase],
      [trim], [\s] and the [i] flag of regular expressions act one code
      unit at a time; a string literal of this file stands for the list of
      its characters (coercion [list_ascii_of_string]).
    - The collaborators of the module (object storage, dispatch queue,
      analysis model, identifier generator, clock) are the fields of a
      [World]; a call of a collaborator returns a value or throws one
      ([Completion]).
    - The document collection is the list of its documents in insertion
      order, at the level of the [IAnalysis] interface (the identifiers
      and the version that the object mapper adds are not shown); the
      position of a document is its storage key.  The schema of
      [analysis.model.ts] is applied as the object mapper applies it: its
      defaults and its required paths when a document is created, the
      cast of the value assigned to [result] when a document is saved.
      How a value is cast and what a rejection throws are left to the
      mapper, a collaborator.  The collection holds documents that were
      created through the mapper; failures of the driver or of the
      connection and the unique index are outside the model.
    - [async] functions are run to completion one after the other;
      interleavings of concurrent invocations are outside the model. *)

From Stdlib Require Import Strings.String Strings.Ascii.
From stdpp Require Import base option list gmap strings.

Set Default Proof Using "Type".

Abbreviation jsstring := (list ascii).
Coercion list_ascii_of_string : string >-> list.

(** ** Strings *)

Module Js.

(** Code units that [String.prototype.trim] strips and [\s] matches:
    TAB, LF, VT, FF, CR, SPACE and NBSP. *)
Definition isWhiteSpace (c : ascii) : bool :=
  let n := nat_of_ascii c in
  ((9 <=? n) && (n <=? 13)) || (n =? 32) || (n =? 160).

(** [String.prototype.toLowerCase] on one code unit: A-Z and the
    Latin-1 capitals U+00C0..U+00DE (U+00D7, the multiplication sign,
    excepted) move up by 32. *)
Definition lowerChar (c : ascii) : ascii :=
  let n := nat_of_ascii c in
  if ((65 <=? n) && (n <=? 90))
     || ((192 <=? n) && (n <=? 222) && negb (n =? 215))
  then ascii_of_nat (n + 32) else c.

(** Canonicalisation of a code unit under the [i] flag (no [u] flag):
    the simple upper-case mapping.  The two Latin-1 letters whose upper
    case lies outside the block (U+00B5, U+00FF) stay distinct from every
    other code unit of the block, and so does U+00DF, whose upper case is
    two code units long. *)
Definition canonicalize (c : ascii) : ascii :=
  let n := nat_of_ascii c in
  if ((97 <=? n) && (n <=? 122))
     || ((224 <=? n) && (n <=? 254) && negb (n =? 247))
  then ascii_of_nat (n - 32) else c.

Definition toLowerCase (s : jsstring) : jsstring := map lowerChar s.

Fixpoint trimStart (s : jsstring) : jsstring :=
  match s with
  | c :: t => if isWhiteSpace c then trimStart t else s
  | [] => []
  end.

Definition trimEnd (s : jsstring) : jsstring := reverse (trimStart (reverse s)).

Definition trim (s : jsstring) : jsstring := trimEnd (trimStart s).

(** [s.startsWith(t)] *)
Fixpoint startsWith (s t : jsstring) {struct t} : bool :=
  match t, s with
  | [], _ => true
  | _ :: _, [] => false
  | b :: t', a :: s' => if decide (a = b) then startsWith s' t' else false
  end.

(** [s.includes(t)]: [t] occurs at some position of [s]. *)
Fixpoint includes (s t : jsstring) : bool :=
  startsWith s t ||
  match s with
  | [] => false
  | _ :: s' => includes s' t
  end.

(** The longest prefix of [s] whose code units satisfy [p], and the rest:
    what a greedy [p*] consumes when the next pattern item cannot match a
    code unit satisfying [p]. *)
Fixpoint span (p : ascii → bool) (s : jsstring) : jsstring * jsstring :=
  match s with
  | c :: t => if p c then let '(a, b) := span p t in (c :: a, b) else ([], s)
  | [] => ([], [])
  end.

End Js.

(** ** Data model ([types/index.ts]) *)

Inductive AnalysisStatus := PENDING | PROCESSING | COMPLETED | FAILED.

Inductive PlayerColor := White | Black.

Global Instance AnalysisStatus_eq_dec : EqDecision AnalysisStatus.
Proof. solve_decision. Defined.

Global Instance PlayerColor_eq_dec : EqDecision PlayerColor.
Proof. solve_decision. Defined.

(** [PlayerColor] is the union of two string literals. *)
Definition colorName (c : PlayerColor) : jsstring :=
  match c with White => "white" | Black => "black" end.

Module Metadata.
Record AnalysisMetadata := {
  white : jsstring;
  black : jsstring;
  result : jsstring;
  event : option jsstring;
  date : option jsstring;
  eco : option jsstring;
  opening : option jsstring;
}.
End Metadata.
Export Metadata (AnalysisMetadata).

Module Phase.
Record t := {
  name : jsstring;
  moves : jsstring;
  evaluation : jsstring;
  key_ideas : list jsstring;
}.
End Phase.

Module KeyMoment.
Record t := {
  move_number : Z;
  move : jsstring;
  fen : jsstring;
  evaluation : jsstring;
  comment : jsstring;
  is_mistake : bool;
}.
End KeyMoment.

Record AnalysisResult := {
  summary : jsstring;
  phases : list Phase.t;
  key_moments : list KeyMoment.t;
  recommendations : list jsstring;
}.

(** A value as [JSON.parse] gives it, and as the collection stores it
    under [result].  Numbers are taken to be integers, as the one number
    of an [AnalysisResult] is. *)
#[warnings="-register-all"]
Inductive Json :=
  | JNull
  | JBool (b : bool)
  | JNumber (n : Z)
  | JString (s : jsstring)
  | JArray (items : list Json)
  | JObject (members : list (jsstring * Json)).

(** The value of a typed result. *)
Definition jsonOfPhase (p : Phase.t) : Json :=
  JObject [(("name" : jsstring), JString (Phase.name p));
           (("moves" : jsstring), JString (Phase.moves p));
           (("evaluation" : jsstring), JString (Phase.evaluation p));
           (("key_ideas" : jsstring), JArray (JString <$> Phase.key_ideas p))].

Definition jsonOfKeyMoment (k : KeyMoment.t) : Json :=
  JObject [(("move_number" : jsstring), JNumber (KeyMoment.move_number k));
           (("move" : jsstring), JString (KeyMoment.move k));
           (("fen" : jsstring), JString (KeyMoment.fen k));
           (("evaluation" : jsstring), JString (KeyMoment.evaluation k));
           (("comment" : jsstring), JString (KeyMoment.comment k));
           (("is_mistake" : jsstring), JBool (KeyMoment.is_mistake k))].

Definition jsonOfResult (r : AnalysisResult) : Json :=
  JObject [(("summary" : jsstring), JString (summary r));
           (("phases" : jsstring), JArray (jsonOfPhase <$> phases r));
           (("key_moments" : jsstring), JArray (jsonOfKeyMoment <$> key_moments r));
           (("recommendations" : jsstring), JArray (JString <$> recommendations r))].

(** [IAnalysis]: one job record.  Optional fields are options; the
    timestamps are readings of the clock.  [result] holds the value that
    is stored, which need not have the shape of an [AnalysisResult]. *)
Module Job.
Record IAnalysis := {
  analysis_id : jsstring;
  user_id : jsstring;
  batch_id : option jsstring;
  status : AnalysisStatus;
  pgn : jsstring;
  gcs_url : option jsstring;
  player_name : jsstring;
  player_color : option PlayerColor;
  metadata : AnalysisMetadata;
  result : option Json;
  error : option jsstring;
  created_at : nat;
  updated_at : nat;
  completed_at : option nat;
}.

(** Assignments to one field of a document. *)
Definition set_status (s : AnalysisStatus) (a : IAnalysis) : IAnalysis :=
  {| analysis_id := analysis_id a; user_id := user_id a; batch_id := batch_id a;
     status := s; pgn := pgn a; gcs_url := gcs_url a;
     player_name := player_name a; player_color := player_color a;
     metadata := metadata a; result := result a; error := error a;
     created_at := created_at a; updated_at := updated_at a;
     completed_at := completed_at a |}.

Definition set_result (r : Json) (a : IAnalysis) : IAnalysis :=
  {| analysis_id := analysis_id a; user_id := user_id a; batch_id := batch_id a;
     status := status a; pgn := pgn a; gcs_url := gcs_url a;
     player_name := player_name a; player_color := player_color a;
     metadata := metadata a; result := Some r; error := error a;
     created_at := created_at a; updated_at := updated_at a;
     completed_at := completed_at a |}.

Definition set_error (e : jsstring) (a : IAnalysis) : IAnalysis :=
  {| analysis_id := analysis_id a; user_id := user_id a; batch_id := batch_id a;
     status := status a; pgn := pgn a; gcs_url := gcs_url a;
     player_name := player_name a; player_color := player_color a;
     metadata := metadata a; result := result a; error := Some e;
     created_at := created_at a; updated_at := updated_at a;
     completed_at := completed_at a |}.

Definition set_completed_at (t : nat) (a : IAnalysis) : IAnalysis :=
  {| analysis_id := analysis_id a; user_id := user_id a; batch_id := batch_id a;
     status := status a; pgn := pgn a; gcs_url := gcs_url a;
     player_name := player_name a; player_color := player_color a;
     metadata := metadata a; result := result a; error := error a;
     created_at := created_at a; updated_at := updated_at a;
     completed_at := Some t |}.

Definition set_updated_at (t : nat) (a : IAnalysis) : IAnalysis :=
  {| analysis_id := analysis_id a; user_id := user_id a; batch_id := batch_id a;
     status := status a; pgn := pgn a; gcs_url := gcs_url a;
     player_name := player_name a; player_color := player_color a;
     metadata := metadata a; result := result a; error := error a;
     created_at := created_at a; updated_at := t;
     completed_at := completed_at a |}.
End Job.
Export Job (IAnalysis).

Module Game.
Record ParsedGame := {
  pgn : jsstring;
  metadata : AnalysisMetadata;
}.
End Game.
Export Game (ParsedGame).

(** An entry of [skipped_games]. *)
Module Skipped.
Record t := {
  white : jsstring;
  black : jsstring;
  reason : jsstring;
}.
End Skipped.

Record BulkAnalysisResponse := {
  batch_id : jsstring;
  analysis_ids : list jsstring;
  total_games : nat;
  skipped_games : option (list Skipped.t);
}.

(** The value of one key of the status mapping: [{ status }]. *)
Module StatusEntry.
Record t := { status : AnalysisStatus }.
End StatusEntry.

(** ** Game-record parser ([pgn-parser.service.ts]) *)

Definition LF : ascii := "010"%char.
Definition CR : ascii := "013"%char.
Definition quote : ascii := "034"%char.
Definition lbracket : ascii := "["%char.
Definition rbracket : ascii := "]"%char.

(** [name] read at the start of [s] under the [i] flag; the rest of [s]. *)
Fixpoint stripPrefixCI (name s : jsstring) {struct name} : option jsstring :=
  match name, s with
  | [], _ => Some s
  | _ :: _, [] => None
  | p :: name', c :: s' =>
      if decide (Js.canonicalize c = Js.canonicalize p)
      then stripPrefixCI name' s' else None
  end.

(** One attempt of the header pattern at the start of [s]: the capture
    group.  The pattern reads: an opening bracket, [name] under the [i]
    flag, [\s+], a double quote, a captured run of code units other than
    the double quote, a double quote, a closing bracket.  [\s+] and the
    captured run are each followed by a double quote, so each takes the
    whole run of code units it can match. *)
Definition matchHeaderAt (name s : jsstring) : option jsstring :=
  match s with
  | c :: s1 =>
      if decide (c = lbracket) then
        match stripPrefixCI name s1 with
        | Some s2 =>
            let '(ws, s3) := Js.span Js.isWhiteSpace s2 in
            match ws, s3 with
            | _ :: _, q :: s4 =>
                if decide (q = quote) then
                  let '(value, s5) := Js.span (λ x, negb (bool_decide (x = quote))) s4 in
                  match s5 with
                  | q' :: b :: _ =>
                      if decide (q' = quote ∧ b = rbracket) then Some value else None
                  | _ => None
                  end
                else None
            | _, _ => None
            end
        | None => None
        end
      else None
  | [] => None
  end.

(** [pgn.match(regex)]: the capture of the leftmost match, if any. *)
Fixpoint getHeader (name pgn : jsstring) : option jsstring :=
  match matchHeaderAt name pgn with
  | Some value => Some value
  | None =>
      match pgn with
      | [] => None
      | _ :: rest => getHeader name rest
      end
  end.

(** [h || d] for [h : string | undefined]: the empty string is falsy. *)
Definition orElse (h : option jsstring) (d : jsstring) : jsstring :=
  match h with
  | Some (c :: v) => c :: v
  | _ => d
  end.

Definition parseHeaders (pgn : jsstring) : AnalysisMetadata :=
  {| Metadata.white := orElse (getHeader "White" pgn) "Unknown";
     Metadata.black := orElse (getHeader "Black" pgn) "Unknown";
     Metadata.result := orElse (getHeader "Result" pgn) "*";
     Metadata.event := getHeader "Event" pgn;
     Metadata.date := getHeader "Date" pgn;
     Metadata.eco := getHeader "ECO" pgn;
     Metadata.opening := getHeader "Opening" pgn |}.

(** One attempt of [/\n\s*\n(?=\[)/] at the start of [s]: the text after
    the match.  The greedy [\s*] runs to the first code unit that is not
    white space; the match succeeds when that run ends with a line feed
    and an opening bracket follows. *)
Definition matchBoundary (s : jsstring) : option jsstring :=
  match s with
  | c :: t =>
      if decide (c = LF) then
        let '(ws, rest) := Js.span Js.isWhiteSpace t in
        match last ws, rest with
        | Some l, b :: _ =>
            if decide (l = LF ∧ b = lbracket) then Some rest else None
        | _, _ => None
        end
      else None
  | [] => None
  end.

(** The loop of [String.prototype.split] with this separator: [cur] is
    the text since the end of the last match, [s] the text from the
    current position on.  A match is never empty, so every step moves
    forward and [fuel] beyond the length of [s] is never used up. *)
Fixpoint splitLoop (fuel : nat) (cur s : jsstring) : list jsstring :=
  match fuel with
  | 0 => [cur ++ s]
  | S fuel' =>
      match matchBoundary s with
      | Some rest => cur :: splitLoop fuel' [] rest
      | None =>
          match s with
          | [] => [cur]
          | c :: t => splitLoop fuel' (cur ++ [c]) t
          end
      end
  end.

Definition splitAtBoundaries (s : jsstring) : list jsstring :=
  splitLoop (S (length s)) [] s.

Definition splitPgn (pgnContent : jsstring) : list ParsedGame :=
  let gameStrings :=
    filter (λ g, 0 < length (Js.trim g)) (splitAtBoundaries (Js.trim pgnContent)) in
  omap (λ gameStr,
          let trimmed := Js.trim gameStr in
          if decide (length trimmed = 0) then None
          else Some {| Game.pgn := trimmed; Game.metadata := parseHeaders trimmed |})
       gameStrings.

(** The two tests of [isValidPgn]: some header tag (the header pattern
    with [\w+] for the name, no [i] flag) and the text [1.] somewhere. *)
Definition isWordChar (c : ascii) : bool :=
  let n := nat_of_ascii c in
  ((48 <=? n) && (n <=? 57)) || ((65 <=? n) && (n <=? 90))
  || ((97 <=? n) && (n <=? 122)) || (n =? 95).

Definition matchAnyHeaderAt (s : jsstring) : bool :=
  match s with
  | c :: s1 =>
      bool_decide (c = lbracket) &&
      let '(tag, s2) := Js.span isWordChar s1 in
      let '(ws, s3) := Js.span Js.isWhiteSpace s2 in
      match tag, ws, s3 with
      | _ :: _, _ :: _, q :: s4 =>
          bool_decide (q = quote) &&
          let '(_, s5) := Js.span (λ x, negb (bool_decide (x = quote))) s4 in
          match s5 with
          | q' :: b :: _ => bool_decide (q' = quote ∧ b = rbracket)
          | _ => false
          end
      | _, _, _ => false
      end
  | [] => false
  end.

Fixpoint hasHeader (s : jsstring) : bool :=
  matchAnyHeaderAt s || match s with [] => false | _ :: t => hasHeader t end.

Definition isValidPgn (pgn : jsstring) : bool :=
  hasHeader pgn && Js.includes pgn "1.".

(** ** Subject resolver ([analysis.service.ts], determinePlayerColor) *)

Definition determinePlayerColor
    (metadata : AnalysisMetadata) (playerName : jsstring) : option PlayerColor :=
  let normalizedName := Js.trim (Js.toLowerCase playerName) in
  let white := Js.trim (Js.toLowerCase (Metadata.white metadata)) in
  let black := Js.trim (Js.toLowerCase (Metadata.black metadata)) in
  if Js.includes white normalizedName || Js.includes normalizedName white
  then Some White
  else if Js.includes black normalizedName || Js.includes normalizedName black
  then Some Black
  else None.

(** ** Collaborators and state *)

(** What a [throw] carries: an [Error] with its message, or any other value. *)
Inductive Thrown := JsError (message : jsstring) | NonError.

Inductive Completion (A : Type) :=
  | Returned (a : A)
  | Threw (e : Thrown).
Arguments Returned {A} a.
Arguments Threw {A} e.

(** The second argument of [geminiService.analyzeGame]. *)
Module GameInfo.
Record t := {
  white : jsstring;
  black : jsstring;
  result : jsstring;
  event : option jsstring;
  date : option jsstring;
}.
End GameInfo.

(** The object mapper, where the schema leaves the outcome to it. *)
Record Mapper := {
  (** the assignment [analysis.result = value]: the value that the
      document object then holds under [result], and the paths at which
      the mapper has recorded a cast error (none when the schema accepts
      the value) *)
  castResult : Json → Json * list jsstring;
  (** the [ValidationError] that validation throws for the paths it
      rejects *)
  validationError : list jsstring → Thrown;
}.

Record World := {
  (** [gcsService.downloadFile] *)
  downloadFile : jsstring → Completion jsstring;
  (** [queueService.enqueue]: the hand-off is acknowledged or throws. *)
  enqueue : jsstring → Completion unit;
  (** [geminiService.analyzeGame]: what it returns is the value of
      [JSON.parse], of any shape *)
  analyzeGame :
    jsstring → GameInfo.t → jsstring → option PlayerColor → Completion Json;
  (** the successive values of [uuidv4()] *)
  uuidv4 : nat → jsstring;
  (** [new Date()] *)
  now : nat;
  (** the object mapper behind the model [Analysis] *)
  mapper : Mapper;
}.

Record State := {
  (** the collection, in insertion order; the position is the storage key *)
  db : list IAnalysis;
  (** how many identifiers have been drawn *)
  drawn : nat;
  (** the acknowledged dispatch requests, oldest first *)
  queue : list jsstring;
  (** every write to the collection: storage key and document written *)
  writes : list (nat * IAnalysis);
}.

Definition initial : State := {| db := []; drawn := 0; queue := []; writes := [] |}.

(** Computations over the state that return or throw; the state reached
    when a computation throws is kept (nothing is rolled back). *)
Definition M (A : Type) : Type := State → Completion A * State.

Global Instance M_ret : MRet M := λ A a st, (Returned a, st).

Global Instance M_bind : MBind M := λ A B f m st,
  match m st with
  | (Returned a, st') => f a st'
  | (Threw e, st') => (Threw e, st')
  end.

Definition await {A} (c : Completion A) : M A := λ st, (c, st).

Definition nextUuid (w : World) : M jsstring := λ st,
  (Returned (uuidv4 w (drawn st)),
   {| db := db st; drawn := S (drawn st); queue := queue st; writes := writes st |}).

(** ** Schema of the collection ([analysis.model.ts]) *)

Module Schema.

(** What every new document holds under [result]: the three arrays of
    the nested object, empty by default, and no summary. *)
Definition defaultResult : Json :=
  JObject [(("phases" : jsstring), JArray []);
           (("key_moments" : jsstring), JArray []);
           (("recommendations" : jsstring), JArray [])].

(** A required path of type String rejects the empty string. *)
Definition required (path value : jsstring) : list jsstring :=
  match value with [] => [path] | _ :: _ => [] end.

(** The required paths that validation rejects, in the order of the
    schema.  The owner is required too, with the type Mixed, which
    accepts every string. *)
Definition rejectedPaths (doc : IAnalysis) : list jsstring :=
  required "analysis_id" (Job.analysis_id doc)
  ++ required "pgn" (Job.pgn doc)
  ++ required "player_name" (Job.player_name doc).

End Schema.

(** [Analysis.create(doc)]: the document is validated, then appended; the
    collection keeps its two timestamps (schema option [timestamps]).
    A document that validation rejects is not stored. *)
Definition Analysis_create (w : World) (doc : IAnalysis) : M unit := λ st,
  match Schema.rejectedPaths doc with
  | [] =>
      let doc' := Job.set_updated_at (now w) doc in
      (Returned (),
       {| db := db st ++ [doc']; drawn := drawn st; queue := queue st;
          writes := writes st ++ [(length (db st), doc')] |})
  | path :: paths => (Threw (validationError (mapper w) (path :: paths)), st)
  end.

(** [Analysis.findOne({ analysis_id })]: the first document with this
    identifier, with its storage key. *)
Definition Analysis_findOne (analysisId : jsstring) : M (option (nat * IAnalysis)) :=
  λ st, (Returned (list_find (λ a, Job.analysis_id a = analysisId) (db st)), st).

(** A document object, as a query gives it and as the worker assigns to
    it: its fields, and the paths at which an assignment has recorded a
    cast error.  The mapper keeps these errors: validation rejects them
    at every save of the object. *)
Module Doc.
Record t := {
  fields : IAnalysis;
  castErrors : list jsstring;
}.

Definition found (a : IAnalysis) : t := {| fields := a; castErrors := [] |}.

Definition set_status (s : AnalysisStatus) (d : t) : t :=
  {| fields := Job.set_status s (fields d); castErrors := castErrors d |}.

Definition set_error (e : jsstring) (d : t) : t :=
  {| fields := Job.set_error e (fields d); castErrors := castErrors d |}.

Definition set_completed_at (n : nat) (d : t) : t :=
  {| fields := Job.set_completed_at n (fields d); castErrors := castErrors d |}.

(** [analysis.result = value] *)
Definition set_result (w : World) (value : Json) (d : t) : t :=
  {| fields := Job.set_result (castResult (mapper w) value).1 (fields d);
     castErrors := castErrors d ++ (castResult (mapper w) value).2 |}.
End Doc.

(** [analysis.save()]: the document object is validated, then the
    document stored under [key] is overwritten, with a new time of
    update.  The paths that the worker assigns besides [result] hold
    values that the schema accepts, and the others what validation
    accepted when the document was created: validation rejects the
    recorded cast errors and nothing else.  A rejected save writes
    nothing. *)
Definition Analysis_save (w : World) (key : nat) (analysis : Doc.t) : M unit :=
  λ st,
  match Doc.castErrors analysis with
  | [] =>
      let doc' := Job.set_updated_at (now w) (Doc.fields analysis) in
      (Returned (),
       {| db := <[key := doc']> (db st); drawn := drawn st; queue := queue st;
          writes := writes st ++ [(key, doc')] |})
  | path :: paths => (Threw (validationError (mapper w) (path :: paths)), st)
  end.

(** [queueService.enqueue(analysisId)] *)
Definition queue_enqueue (w : World) (analysisId : jsstring) : M unit := λ st,
  match enqueue w analysisId with
  | Returned _ =>
      (Returned (),
       {| db := db st; drawn := drawn st; queue := queue st ++ [analysisId];
          writes := writes st |})
  | Threw e => (Threw e, st)
  end.

(** ** Bulk submission orchestrator ([analysis.service.ts]) *)

Definition skipEntry (game : ParsedGame) (playerName : jsstring) : Skipped.t :=
  {| Skipped.white := Metadata.white (Game.metadata game);
     Skipped.black := Metadata.black (Game.metadata game);
     Skipped.reason :=
       "Player " ++ [quote] ++ playerName ++ [quote] ++ " not found in this game" |}.

(** The document that [Analysis.create] makes of the object passed to
    it: the fields passed, the default of the schema under [result], and
    the timestamps of its creation. *)
Definition newAnalysis (w : World) (analysisId userId batchId url playerName : jsstring)
    (playerColor : PlayerColor) (game : ParsedGame) : IAnalysis :=
  {| Job.analysis_id := analysisId;
     Job.user_id := userId;
     Job.batch_id := Some batchId;
     Job.status := PENDING;
     Job.pgn := Game.pgn game;
     Job.gcs_url := Some url;
     Job.player_name := playerName;
     Job.player_color := Some playerColor;
     Job.metadata := Game.metadata game;
     Job.result := Some Schema.defaultResult;
     Job.error := None;
     Job.created_at := now w;
     Job.updated_at := now w;
     Job.completed_at := None |}.

(** The inner loop, [for (const game of games)]; [analysisIds] and
    [skippedGames] are the two arrays the loop pushes to. *)
Fixpoint forGames (w : World) (url userId playerName batchId : jsstring)
    (games : list ParsedGame)
    (analysisIds : list jsstring) (skippedGames : list Skipped.t)
    : M (list jsstring * list Skipped.t) :=
  match games with
  | [] => mret (analysisIds, skippedGames)
  | game :: games' =>
      match determinePlayerColor (Game.metadata game) playerName with
      | None =>
          forGames w url userId playerName batchId games'
            analysisIds (skippedGames ++ [skipEntry game playerName])
      | Some playerColor =>
          u ← nextUuid w;
          let analysisId := "ana_" ++ u in
          Analysis_create w
            (newAnalysis w analysisId userId batchId url playerName playerColor game);;
          queue_enqueue w analysisId;;
          forGames w url userId playerName batchId games'
            (analysisIds ++ [analysisId]) skippedGames
      end
  end.

(** The outer loop, [for (const url of urls)]; the [catch] clause logs
    and throws the error again. *)
Fixpoint forUrls (w : World) (userId playerName batchId : jsstring)
    (urls : list jsstring)
    (analysisIds : list jsstring) (skippedGames : list Skipped.t)
    : M (list jsstring * list Skipped.t) :=
  match urls with
  | [] => mret (analysisIds, skippedGames)
  | url :: urls' =>
      pgnContent ← await (downloadFile w url);
      let games := splitPgn pgnContent in
      '(analysisIds', skippedGames') ←
        forGames w url userId playerName batchId games analysisIds skippedGames;
      forUrls w userId playerName batchId urls' analysisIds' skippedGames'
  end.

Definition processBulkAnalysis (w : World) (urls : list jsstring)
    (userId playerName : jsstring) : M BulkAnalysisResponse :=
  u ← nextUuid w;
  let batchId := "batch_" ++ u in
  '(analysisIds, skippedGames) ← forUrls w userId playerName batchId urls [] [];
  mret {| batch_id := batchId;
          analysis_ids := analysisIds;
          total_games := length analysisIds;
          skipped_games :=
            if decide (0 < length skippedGames) then Some skippedGames else None |}.

(** The skip entries of a response: none when [skipped_games] is left out. *)
Definition skipEntries (r : BulkAnalysisResponse) : list Skipped.t :=
  default [] (skipped_games r).

Definition getAnalysisById (analysisId userId : jsstring) : M (option IAnalysis) :=
  λ st,
  (Returned
     (snd <$> list_find
        (λ a, Job.analysis_id a = analysisId ∧ Job.user_id a = userId) (db st)),
   st).

(** [Analysis.find({ analysis_id: { $in }, user_id })] then one assignment
    [result[analysis.analysis_id] = { status }] per document found. *)
Definition getAnalysesStatus (analysisIds : list jsstring) (userId : jsstring)
    : M (gmap jsstring StatusEntry.t) :=
  λ st,
  let analyses :=
    filter (λ a, Job.analysis_id a ∈ analysisIds ∧ Job.user_id a = userId) (db st) in
  (Returned
     (foldl (λ result analysis,
               <[Job.analysis_id analysis :=
                   {| StatusEntry.status := Job.status analysis |}]> result)
            ∅ analyses),
   st).

(** ** Worker ([worker.service.ts]) *)

(** [error instanceof Error ? error.message : ...] *)
Definition failureReason (error : Thrown) : jsstring :=
  match error with
  | JsError message => message
  | NonError => "Unknown error"
  end.

Definition gameInfo (analysis : IAnalysis) : GameInfo.t :=
  {| GameInfo.white := Metadata.white (Job.metadata analysis);
     GameInfo.black := Metadata.black (Job.metadata analysis);
     GameInfo.result := Metadata.result (Job.metadata analysis);
     GameInfo.event := Some (orElse (Metadata.event (Job.metadata analysis)) "");
     GameInfo.date := Some (orElse (Metadata.date (Job.metadata analysis)) "") |}.

(** The document object [analysis] is assigned to in place, in the [try]
    block and then in the [catch] block.  The [try] block: its completion,
    and the document object as the block leaves it. *)
Definition tryBlock (w : World) (key : nat) (analysis : Doc.t)
    : State → (Completion unit * Doc.t) * State := λ st,
  let analysis := Doc.set_status PROCESSING analysis in
  match Analysis_save w key analysis st with
  | (Threw error, st) => ((Threw error, analysis), st)
  | (Returned _, st) =>
      match analyzeGame w (Job.pgn (Doc.fields analysis)) (gameInfo (Doc.fields analysis))
              (Job.player_name (Doc.fields analysis))
              (Job.player_color (Doc.fields analysis)) with
      | Threw error => ((Threw error, analysis), st)
      | Returned result =>
          let analysis := Doc.set_result w result analysis in
          let analysis := Doc.set_status COMPLETED analysis in
          let analysis := Doc.set_completed_at (now w) analysis in
          let '(completion, st) := Analysis_save w key analysis st in
          ((completion, analysis), st)
      end
  end.

(** The [catch] block; what its save throws leaves the worker. *)
Definition catchBlock (w : World) (key : nat) (analysis : Doc.t) (error : Thrown)
    : M unit :=
  let analysis := Doc.set_status FAILED analysis in
  let analysis := Doc.set_error (failureReason error) analysis in
  Analysis_save w key analysis.

Definition processAnalysis (w : World) (analysisId : jsstring) : M unit :=
  found ← Analysis_findOne analysisId;
  match found with
  | None => mret ()
  | Some (key, analysis) =>
      if decide (Job.status analysis ≠ PENDING) then mret ()
      else
        (λ st,
           match tryBlock w key (Doc.found analysis) st with
           | ((Returned _, _), st) => (Returned (), st)
           | ((Threw error, analysis), st) => catchBlock w key analysis error st
           end) : M unit
  end.

(** ** Runs of the system *)

(** One call of the orchestrator or one invocation of the worker, in some
    world. *)
Inductive step : State → State → Prop :=
  | step_submit w urls userId playerName st :
      step st (processBulkAnalysis w urls userId playerName st).2
  | step_work w analysisId st :
      step st (processAnalysis w analysisId st).2.

Definition reachable (st : State) : Prop := rtc step initial st.

(** ** Vocabulary of the specification *)

Definition whiteSpaceOnly (s : jsstring) : Prop :=
  Forall (λ c, Js.isWhiteSpace c = true) s.

(** No white space at either end. *)
Definition trimmed (t : jsstring) : Prop :=
  (∀ c, head t = Some c → Js.isWhiteSpace c = false) ∧
  (∀ c, last t = Some c → Js.isWhiteSpace c = false).

(** [n] is [s] lowercased and trimmed. *)
Definition normalizes (s n : jsstring) : Prop :=
  ∃ l r, map Js.lowerChar s = l ++ n ++ r ∧
         whiteSpaceOnly l ∧ whiteSpaceOnly r ∧ trimmed n.

(** [t] is contained in [s]. *)
Definition occursIn (t s : jsstring) : Prop := ∃ pre post, s = pre ++ t ++ post.

(** Containment in either direction. *)
Definition nameMatch (a b : jsstring) : Prop := occursIn a b ∨ occursIn b a.

(** A blank line: a line feed, white space, a line feed. *)
Definition blankLine (sep : jsstring) : Prop :=
  ∃ ws, sep = LF :: ws ++ [LF] ∧ whiteSpaceOnly ws.

(** A blank-line boundary between two records: the end of the last line
    of a record (white space with no line feed in it, such as the carriage
    return of a CRLF line end), then a blank line. *)
Definition blankLineBoundary (sep : jsstring) : Prop :=
  ∃ pre line, sep = pre ++ line ∧ whiteSpaceOnly pre ∧ (LF ∉ pre) ∧ blankLine line.

(** [g] holds a blank line followed by an opening bracket. *)
Definition hasBoundary (g : jsstring) : Prop :=
  ∃ pre sep post, g = pre ++ sep ++ lbracket :: post ∧ blankLine sep.

(** A header-led game record: it starts with the bracket of its first
    header, ends with a code unit that is not white space, and holds no
    boundary before a header block inside. *)
Definition gameRecord (g : jsstring) : Prop :=
  head g = Some lbracket ∧
  (∃ c, last g = Some c ∧ Js.isWhiteSpace c = false) ∧
  ¬ hasBoundary g.

(** [gameSequence gs text]: [text] is the records [gs], in this order,
    with a blank-line boundary between each record and the next. *)
Inductive gameSequence : list jsstring → jsstring → Prop :=
  | gameSequence_nil : gameSequence [] []
  | gameSequence_one g : gameRecord g → gameSequence [g] g
  | gameSequence_cons g sep gs text :
      gameRecord g → blankLineBoundary sep → gs ≠ [] →
      gameSequence gs text → gameSequence (g :: gs) (g ++ sep ++ text).

Definition parsedGame (g : jsstring) : ParsedGame :=
  {| Game.pgn := g; Game.metadata := parseHeaders g |}.

(** [tag] reads as [name] when case is ignored. *)
Definition sameTag (tag name : jsstring) : Prop :=
  Forall2 (λ c p, Js.canonicalize c = Js.canonicalize p) tag name.

(** [s] starts with the header [name] and the quoted [value]: bracket,
    tag, white space, quoted value, bracket. *)
Definition headerAt (name value s : jsstring) : Prop :=
  ∃ tag ws rest,
    s = lbracket :: tag ++ ws ++ quote :: value ++ quote :: rbracket :: rest ∧
    sameTag tag name ∧ ws ≠ [] ∧ whiteSpaceOnly ws ∧ quote ∉ value.

(** The first place of [pgn] with a header [name] carries [value]. *)
Definition located (name pgn value : jsstring) : Prop :=
  ∃ pre s, pgn = pre ++ s ∧ headerAt name value s ∧
    ∀ pre' s' v', pgn = pre' ++ s' → length pre' < length pre → ¬ headerAt name v' s'.

(** No place of [pgn] has a header [name]. *)
Definition missing (name pgn : jsstring) : Prop :=
  ∀ pre s v, pgn = pre ++ s → ¬ headerAt name v s.

(** The games of the files of a submission, each with its file
    reference, in file order then game order. *)
Definition parsedGames (w : World) (urls : list jsstring) : list (jsstring * ParsedGame) :=
  flat_map (λ url,
              match downloadFile w url with
              | Returned pgnContent => (λ game, (url, game)) <$> splitPgn pgnContent
              | Threw _ => []
              end) urls.

Definition resolvable (playerName : jsstring) (g : jsstring * ParsedGame) : Prop :=
  is_Some (determinePlayerColor (Game.metadata g.2) playerName).

(** The job records a submission creates for [games], the first of them
    with the [n]-th identifier drawn. *)
Fixpoint createdJobs (w : World) (userId playerName batchId : jsstring) (n : nat)
    (games : list (jsstring * ParsedGame)) : list IAnalysis :=
  match games with
  | [] => []
  | (url, game) :: games' =>
      match determinePlayerColor (Game.metadata game) playerName with
      | None => createdJobs w userId playerName batchId n games'
      | Some playerColor =>
          newAnalysis w ("ana_" ++ uuidv4 w n) userId batchId url playerName
            playerColor game
          :: createdJobs w userId playerName batchId (S n) games'
      end
  end.

Global Instance resolvable_dec playerName g : Decision (resolvable playerName g).
Proof. unfold resolvable. apply _. Defined.

(** The skip entries a submission reports for [games]. *)
Definition skippedEntries (playerName : jsstring)
    (games : list (jsstring * ParsedGame)) : list Skipped.t :=
  (λ g, skipEntry g.2 playerName) <$> filter (λ g, ¬ resolvable playerName g) games.

(** Documents with the storage keys they get when appended after [n]
    documents. *)
Fixpoint keyed (n : nat) (docs : list IAnalysis) : list (nat * IAnalysis) :=
  match docs with
  | [] => []
  | doc :: docs' => (n, doc) :: keyed (S n) docs'
  end.

(** The state once [jobs] have been created and dispatched. *)
Definition afterJobs (st : State) (jobs : list IAnalysis) : State :=
  {| db := db st ++ jobs;
     drawn := drawn st + length jobs;
     queue := queue st ++ (Job.analysis_id <$> jobs);
     writes := writes st ++ keyed (length (db st)) jobs |}.

(** The state once one identifier has been drawn. *)
Definition afterDraw (st : State) : State :=
  {| db := db st; drawn := S (drawn st); queue := queue st; writes := writes st |}.

(** A job record as a submission for [playerName] creates it: pending,
    with the default of the schema as its result and no failure reason,
    for a game where the resolver found the side [playerColor]. *)
Definition submittedJob (playerName : jsstring) (a : IAnalysis) : Prop :=
  ∃ w analysisId userId batchId url playerColor game,
    a = newAnalysis w analysisId userId batchId url playerName playerColor game ∧
    determinePlayerColor (Game.metadata game) playerName = Some playerColor.

(** The documents the worker writes for a pending job [a]: first with
    the status [PROCESSING], then with the outcome of the model call. *)
Definition processingDoc (w : World) (a : IAnalysis) : IAnalysis :=
  Job.set_updated_at (now w) (Job.set_status PROCESSING a).

Definition completedDoc (w : World) (r : Json) (a : IAnalysis) : IAnalysis :=
  Job.set_updated_at (now w)
    (Job.set_completed_at (now w)
       (Job.set_status COMPLETED (Job.set_result r (Job.set_status PROCESSING a)))).

Definition failedDoc (w : World) (e : Thrown) (a : IAnalysis) : IAnalysis :=
  Job.set_updated_at (now w)
    (Job.set_error (failureReason e)
       (Job.set_status FAILED (Job.set_status PROCESSING a))).

Definition modelCall (w : World) (a : IAnalysis) : Completion Json :=
  analyzeGame w (Job.pgn a) (gameInfo a) (Job.player_name a) (Job.player_color a).

(** The paths at which the mapper rejects the answer of the model for
    [a]: none when the model call throws. *)
Definition rejected (w : World) (a : IAnalysis) : list jsstring :=
  match modelCall w a with
  | Returned r => (castResult (mapper w) r).2
  | Threw _ => []
  end.

(** The second document that the worker writes for the pending job [a],
    when it writes one: none when the mapper rejects the answer of the
    model. *)
Definition secondDoc (w : World) (a : IAnalysis) : option IAnalysis :=
  match modelCall w a with
  | Returned r =>
      match (castResult (mapper w) r).2 with
      | [] => Some (completedDoc w (castResult (mapper w) r).1 a)
      | _ :: _ => None
      end
  | Threw e => Some (failedDoc w e a)
  end.

(** The document stored for the pending job [a] once the worker has run. *)
Definition outcomeDoc (w : World) (a : IAnalysis) : IAnalysis :=
  default (processingDoc w a) (secondDoc w a).

(** The completion of the worker on the pending job [a]: it throws what
    validation throws when the mapper rejects the answer of the model. *)
Definition workCompletion (w : World) (a : IAnalysis) : Completion unit :=
  match rejected w a with
  | [] => Returned ()
  | path :: paths => Threw (validationError (mapper w) (path :: paths))
  end.

(** The state once the worker has processed the pending job [a] stored
    under [key]. *)
Definition afterWork (w : World) (st : State) (key : nat) (a : IAnalysis) : State :=
  {| db := <[key := outcomeDoc w a]> (db st);
     drawn := drawn st;
     queue := queue st;
     writes := writes st ++ (key, processingDoc w a)
                 :: match secondDoc w a with Some doc => [(key, doc)] | None => [] end |}.

(** The edges of the status machine. *)
Inductive advances : AnalysisStatus → AnalysisStatus → Prop :=
  | advances_start : advances PENDING PROCESSING
  | advances_complete : advances PROCESSING COMPLETED
  | advances_fail : advances PROCESSING FAILED.

(** The fields that go with each status: until the worker has stored the
    answer of the model, the result is the default of the schema. *)
Definition jobConsistent (a : IAnalysis) : Prop :=
  match Job.status a with
  | PENDING | PROCESSING =>
      Job.result a = Some Schema.defaultResult ∧ Job.error a = None ∧
      Job.completed_at a = None
  | COMPLETED =>
      is_Some (Job.result a) ∧ Job.error a = None ∧ is_Some (Job.completed_at a)
  | FAILED =>
      Job.result a = Some Schema.defaultResult ∧ is_Some (Job.error a) ∧
      Job.completed_at a = None
  end.

(** Every stored document and every document ever written is
    consistent. *)
Definition consistentState (st : State) : Prop :=
  Forall jobConsistent (db st) ∧ Forall (λ kd, jobConsistent kd.2) (writes st).

(** The mapping built from the documents found, one assignment each. *)
Definition statusMap (analyses : list IAnalysis) : gmap jsstring StatusEntry.t :=
  foldl (λ result analysis,
           <[Job.analysis_id analysis :=
               {| StatusEntry.status := Job.status analysis |}]> result)
        ∅ analyses.

(** Result and failure reason are never both there. *)
Definition exclusive (a : IAnalysis) : Prop :=
  ¬ (is_Some (Job.result a) ∧ is_Some (Job.error a)).

(** The claim that result and failure reason exclude each other and go
    with their terminal status: in every store reached by calls of the
    orchestrator and invocations of the worker, no job carries both, a
    job with a result is completed and a job with a failure reason is
    failed. *)
Definition resultOnlyWhenCompleted : Prop :=
  ∀ st, reachable st →
    Forall (λ a, exclusive a ∧
                 (is_Some (Job.result a) → Job.status a = COMPLETED) ∧
                 (is_Some (Job.error a) → Job.status a = FAILED)) (db st).

(** The claim that a failed model call always leaves a non-empty failure
    reason: for a pending job of a reachable store on which the model call
    throws, the worker returns and leaves the job failed, with a failure
    reason that is not the empty string and no result. *)
Definition failureReasonNonEmpty : Prop :=
  ∀ w analysisId st key a e,
    reachable st →
    list_find (λ a, Job.analysis_id a = analysisId) (db st) = Some (key, a) →
    Job.status a = PENDING →
    modelCall w a = Threw e →
    ∃ st' a',
      processAnalysis w analysisId st = (Returned (), st') ∧
      db st' !! key = Some a' ∧
      Job.status a' = FAILED ∧
      (∃ reason, Job.error a' = Some reason ∧ reason ≠ []) ∧
      Job.result a' = None.

(** The claim that a blank subject name gives one job per parsed game:
    for a subject name that is empty or made of white space only, a bulk
    submission in which every file is retrieved and every dispatch is
    acknowledged creates one job per parsed game, all with the side
    white, and reports no skip entry when it returns. *)
Definition blankSubjectCreates : Prop :=
  ∀ w urls userId playerName st c st',
    whiteSpaceOnly playerName →
    (∀ url, url ∈ urls → ∃ pgnContent, downloadFile w url = Returned pgnContent) →
    (∀ analysisId, enqueue w analysisId = Returned ()) →
    processBulkAnalysis w urls userId playerName st = (c, st') →
    ∃ new,
      db st' = db st ++ new ∧
      length new = length (parsedGames w urls) ∧
      Forall (λ a, Job.player_color a = Some White) new ∧
      ∀ r, c = Returned r → skipped_games r = None.

(** A job is owned by [userId] in the store. *)
Definition ownedJob (st : State) (userId analysisId : jsstring) : Prop :=
  ∃ a, a ∈ db st ∧ Job.analysis_id a = analysisId ∧ Job.user_id a = userId.

(** [hasBoundary], computed: the separator pattern matches somewhere. *)
Fixpoint hasBoundaryb (g : jsstring) : bool :=
  bool_decide (is_Some (matchBoundary g)) ||
  match g with [] => false | _ :: t => hasBoundaryb t end.

(** A participant or outcome field: the sentinel when the header is
    missing or its value empty, the value otherwise. *)
Definition requiredField (name pgn sentinel field : jsstring) : Prop :=
  (missing name pgn → field = sentinel) ∧
  (∀ value, located name pgn value →
     field = match value with [] => sentinel | _ :: _ => value end).

(** Any other field: absent when the header is missing, the value
    otherwise. *)
Definition optionalField (name pgn : jsstring) (field : option jsstring) : Prop :=
  (missing name pgn → field = None) ∧
  (∀ value, located name pgn value → field = Some value).

(** ** Sample data *)

Module Sample.

Definition header (tag value : jsstring) : jsstring :=
  "[" ++ tag ++ " " ++ [quote] ++ value ++ [quote] ++ "]".

Definition game1 : jsstring :=
  header "White" "Ann" ++ [LF] ++ header "Black" "Bob" ++ [LF]
  ++ header "Result" "1-0" ++ [LF; LF] ++ "1. e4 e5 2. Nf3 1-0".

Definition game2 : jsstring :=
  header "WHITE" "Cy" ++ [LF] ++ header "black" "Ann Lee" ++ [LF; LF] ++ "1. d4 d5 *".

Definition game3 : jsstring :=
  header "White" "Di" ++ [LF] ++ header "Black" "Ed" ++ [LF; LF] ++ "1. c4 1/2-1/2".

(** Two games with CRLF line ends between them. *)
Definition file1 : jsstring := game1 ++ [CR; LF; CR; LF] ++ game2 ++ [LF].

Definition file2 : jsstring := game3.

Definition analysis : AnalysisResult :=
  {| summary := "A short game."; phases := []; key_moments := [];
     recommendations := [("Castle early." : jsstring)] |}.

Definition isArray (value : Json) : bool :=
  match value with JArray _ => true | _ => false end.

(** A mapper that accepts an object, as it is, unless its key moments are
    not an array, and rejects every other value. *)
Definition mongoose : Mapper :=
  {| castResult := λ value,
       match value with
       | JObject members =>
           (value,
            if forallb (λ m : jsstring * Json,
                          negb (bool_decide (m.1 = "key_moments")) || isArray m.2)
                 members
            then [] else [("result.key_moments" : jsstring)])
       | _ => (value, [("result" : jsstring)])
       end;
     validationError := λ paths,
       JsError ("Analysis validation failed: " ++ concat paths) |}.

(** Two files in storage; the queue acknowledges; the model throws an
    [Error] whose message is [message] on games won by white and answers
    on the others. *)
Definition world (message : jsstring) : World :=
  {| downloadFile := λ url,
       if decide (url = "gs://bucket/one.pgn") then Returned file1
       else if decide (url = "gs://bucket/two.pgn") then Returned file2
       else Threw (JsError "No such object");
     enqueue := λ _, Returned ();
     analyzeGame := λ _ info _ _,
       if decide (GameInfo.result info = "1-0") then Threw (JsError message)
       else Returned (jsonOfResult analysis);
     uuidv4 := λ n, replicate (S n) "u"%char;
     now := 1700;
     mapper := mongoose |}.

Definition url1 : jsstring := "gs://bucket/one.pgn".
Definition url2 : jsstring := "gs://bucket/two.pgn".
Definition urls : list jsstring := [url1; url2].

(** The store after the submission of both files for Ann. *)
Definition submitted (message : jsstring) : State :=
  (processBulkAnalysis (world message) urls "guest" "ann" initial).2.

(** The store after the worker has then run on the first job. *)
Definition worked (message : jsstring) : State :=
  (processAnalysis (world message) "ana_uu" (submitted message)).2.

End Sample.

(** * Around the analysis module

    The services the module calls ([gcs.service.ts], [gemini.service.ts],
    [cloud-tasks.service.ts], [queue.service.ts]) and the handlers that
    call it ([analysis.controller.ts], [analysis.routes.ts],
    [worker.routes.ts], [auth.middleware.ts], [jwt.service.ts]).  The
    libraries behind them (storage client, task client, model client,
    token library, database driver) are the fields of a record each. *)

(** ** Further vocabulary *)

(** The code units of [s] that are not white space, in order. *)
Definition visible (s : jsstring) : jsstring :=
  filter (λ c, Js.isWhiteSpace c = false) s.

(** [s] starts with a header of any tag: bracket, a tag of word
    characters, white space, a quoted value, bracket. *)
Definition anyHeaderAt (s : jsstring) : Prop :=
  ∃ tag ws value rest,
    s = lbracket :: tag ++ ws ++ quote :: value ++ quote :: rbracket :: rest ∧
    tag ≠ [] ∧ Forall (λ c, isWordChar c = true) tag ∧
    ws ≠ [] ∧ whiteSpaceOnly ws ∧ quote ∉ value.

(** The 256 code units. *)
Definition allCodeUnits : list ascii := ascii_of_nat <$> seq 0 256.

(** The metadata of a text in which no recognised header stands. *)
Definition noMetadata : AnalysisMetadata := parseHeaders [].

(** A job record as the orchestrator creates it for [userId] and
    [playerName]: pending, with the default of the schema as its result,
    and no failure reason or time of completion. *)
Definition freshJob (userId playerName : jsstring) (a : IAnalysis) : Prop :=
  Job.status a = PENDING ∧ Job.user_id a = userId ∧ Job.player_name a = playerName ∧
  Job.result a = Some Schema.defaultResult ∧ Job.error a = None ∧
  Job.completed_at a = None.

(** The identifier made of the [n]-th value drawn. *)
Definition analysisIdOf (w : World) (n : nat) : jsstring := "ana_" ++ uuidv4 w n.

(** The job created for a game: what the orchestrator copies from the
    game, the file reference and the request. *)
Definition jobOf (userId playerName batchId : jsstring)
    (a : IAnalysis) (g : jsstring * ParsedGame) : Prop :=
  Job.pgn a = Game.pgn g.2 ∧ Job.metadata a = Game.metadata g.2 ∧
  Job.gcs_url a = Some g.1 ∧
  Job.player_color a = determinePlayerColor (Game.metadata g.2) playerName ∧
  Job.batch_id a = Some batchId ∧ freshJob userId playerName a.

(** Runs in one world: every call of the orchestrator and every
    invocation of the worker draws identifiers from the same generator. *)
Inductive stepIn (w : World) : State → State → Prop :=
  | stepIn_submit urls userId playerName st :
      stepIn w st (processBulkAnalysis w urls userId playerName st).2
  | stepIn_work analysisId st :
      stepIn w st (processAnalysis w analysisId st).2.

Definition reachableIn (w : World) (st : State) : Prop := rtc (stepIn w) initial st.

(** The identifiers in the collection are those made of the values drawn
    at [ns]. *)
Definition idsDrawnAt (w : World) (st : State) (ns : list nat) : Prop :=
  Job.analysis_id <$> db st = analysisIdOf w <$> ns ∧
  NoDup ns ∧ Forall (λ n, n < drawn st) ns.

(** [a'] holds what the submission stored in [a]: identifier, owner,
    batch, game text, file reference, subject, side, metadata and time of
    creation. *)
Definition sameSubmission (a a' : IAnalysis) : Prop :=
  Job.analysis_id a' = Job.analysis_id a ∧ Job.user_id a' = Job.user_id a ∧
  Job.batch_id a' = Job.batch_id a ∧ Job.pgn a' = Job.pgn a ∧
  Job.gcs_url a' = Job.gcs_url a ∧ Job.player_name a' = Job.player_name a ∧
  Job.player_color a' = Job.player_color a ∧ Job.metadata a' = Job.metadata a ∧
  Job.created_at a' = Job.created_at a.

(** ** More of the string library *)

Module JsLib.

(** [s.split(sep)] for a separator of one code unit: the pieces of [s]
    between the occurrences of [sep]; [cur] is the piece being read.  The
    result is never empty. *)
Fixpoint splitBy (sep : ascii) (cur s : jsstring) : list jsstring :=
  match s with
  | [] => [cur]
  | c :: t => if decide (c = sep) then cur :: splitBy sep [] t
              else splitBy sep (cur ++ [c]) t
  end.

Definition split (s : jsstring) (sep : ascii) : list jsstring := splitBy sep [] s.

(** [pieces.join(sep)] *)
Fixpoint join (sep : jsstring) (pieces : list jsstring) : jsstring :=
  match pieces with
  | [] => []
  | [piece] => piece
  | piece :: pieces' => piece ++ sep ++ join sep pieces'
  end.

(** The code units that the dot of a pattern does not match. *)
Definition isLineTerminator (c : ascii) : bool :=
  bool_decide (c = LF) || bool_decide (c = CR).

(** The text from the first occurrence of [c] on. *)
Fixpoint fromFirst (c : ascii) (s : jsstring) : option jsstring :=
  match s with
  | [] => None
  | x :: t => if decide (x = c) then Some s else fromFirst c t
  end.

(** The text up to and with the last occurrence of [c]. *)
Definition upToLast (c : ascii) (s : jsstring) : option jsstring :=
  reverse <$> fromFirst c (reverse s).

End JsLib.

(** A value of the environment of the process that counts as set: present
    and not empty. *)
Definition envSet (v : option jsstring) : option jsstring :=
  match v with
  | Some (c :: s) => Some (c :: s)
  | _ => None
  end.

(** ** Object storage ([gcs.service.ts]) *)

Module Gcs.

Record Storage := {
  (** [process.env.GCP_STORAGE_BUCKET] *)
  GCP_STORAGE_BUCKET : option jsstring;
  (** [bucket.file(fileName).save(fileBuffer, options)]: bucket, file
      name, content, then the metadata [originalName], [uploadedBy] and
      [uploadedAt] *)
  save : jsstring → jsstring → jsstring → jsstring → jsstring → nat → Completion unit;
  (** [bucket(bucketName).file(filePath).download()], decoded *)
  download : jsstring → jsstring → Completion jsstring;
}.

Definition getBucketName (g : Storage) : Completion jsstring :=
  match envSet (GCP_STORAGE_BUCKET g) with
  | Some name => Returned name
  | None => Threw (JsError "GCP_STORAGE_BUCKET environment variable is not set")
  end.

(** [getBucket()]: [bucket] is the variable of the module that keeps the
    bucket once made; the name of the bucket made, and the variable
    afterwards. *)
Definition getBucket (g : Storage) (bucket : option jsstring)
    : Completion jsstring * option jsstring :=
  match bucket with
  | Some name => (Returned name, bucket)
  | None =>
      match getBucketName g with
      | Returned name => (Returned name, Some name)
      | Threw e => (Threw e, None)
      end
  end.

(** The name of the object an upload writes. *)
Definition fileNameOf (userId uuid originalName : jsstring) : jsstring :=
  "uploads/" ++ userId ++ "/" ++ uuid ++ "-" ++ originalName.

(** [uploadFile]: the completion, the variable [bucket] and the state
    afterwards. *)
Definition uploadFile (g : Storage) (w : World)
    (fileBuffer originalName userId : jsstring) (bucket : option jsstring) (st : State)
    : Completion jsstring * option jsstring * State :=
  let fileName := fileNameOf userId (uuidv4 w (drawn st)) originalName in
  let st := afterDraw st in
  match getBucket g bucket with
  | (Threw e, bucket) => (Threw e, bucket, st)
  | (Returned name, bucket) =>
      match save g name fileName fileBuffer originalName userId (now w) with
      | Threw e => (Threw e, bucket, st)
      | Returned _ =>
          match getBucketName g with
          | Threw e => (Threw e, bucket, st)
          | Returned name' => (Returned ("gs://" ++ name' ++ "/" ++ fileName), bucket, st)
          end
      end
  end.

(** One attempt of the pattern of a file reference, anchored at both
    ends: [gs://], a bucket name of one or more code units other than the
    slash, a slash, a path of one or more code units none of which ends a
    line.  The two groups. *)
Definition matchGcsUrl (gcsUrl : jsstring) : option (jsstring * jsstring) :=
  if Js.startsWith gcsUrl "gs://" then
    let '(bucketName, s) :=
      Js.span (λ c, negb (bool_decide (c = "/"%char))) (drop 5 gcsUrl) in
    match bucketName, s with
    | _ :: _, _ :: filePath =>
        let '(_, rest) := Js.span (λ c, negb (JsLib.isLineTerminator c)) filePath in
        match filePath, rest with
        | _ :: _, [] => Some (bucketName, filePath)
        | _, _ => None
        end
    | _, _ => None
    end
  else None.

Definition downloadFile (g : Storage) (gcsUrl : jsstring) : Completion jsstring :=
  match matchGcsUrl gcsUrl with
  | None => Threw (JsError ("Invalid GCS URL format: " ++ gcsUrl))
  | Some (bucketName, filePath) => download g bucketName filePath
  end.

End Gcs.

(** ** Analysis model ([gemini.service.ts]) *)

Module Ctx.
Record AnalysisContext := {
  pgn : jsstring;
  white : jsstring;
  black : jsstring;
  result : jsstring;
  event : option jsstring;
  date : option jsstring;
  playerName : jsstring;
  playerColor : option PlayerColor;
}.
End Ctx.
Export Ctx (AnalysisContext).

Module Gemini.

Definition text (s : string) : jsstring := s.

Definition quoted (s : jsstring) : jsstring := [quote] ++ s ++ [quote].

Definition joinLines (lines : list jsstring) : jsstring := JsLib.join [LF] lines.

Definition playerSide (ctx : AnalysisContext) : jsstring :=
  if decide (Ctx.playerColor ctx = Some White) then "White" else "Black".

(** Computed by [buildPrompt] and not used in its text. *)
Definition opponentSide (ctx : AnalysisContext) : jsstring :=
  if decide (Ctx.playerColor ctx = Some White) then "Black" else "White".

Definition playerResult (ctx : AnalysisContext) : jsstring :=
  if decide (Ctx.result ctx = "1-0") then
    if decide (Ctx.playerColor ctx = Some White) then "won" else "lost"
  else if decide (Ctx.result ctx = "0-1") then
    if decide (Ctx.playerColor ctx = Some Black) then "won" else "lost"
  else "drew".

(** The lines of the text of the prompt. *)
Definition promptLines (ctx : AnalysisContext) : list jsstring :=
  [
    text "You are an expert chess analyst and personal coach. Analyze the following " ++
      text "chess game from the perspective of " ++ Ctx.playerName ctx ++ text " (playing as " ++ playerSide ctx ++ text ").";
    [];
    text "## Game Information";
    text "- White: " ++ Ctx.white ctx;
    text "- Black: " ++ Ctx.black ctx;
    text "- Result: " ++ Ctx.result ctx;
    text "- Event: " ++ orElse (Ctx.event ctx) "Unknown";
    text "- Date: " ++ orElse (Ctx.date ctx) "Unknown";
    text "- **Player being analyzed**: " ++ Ctx.playerName ctx ++ text " (" ++
      playerSide ctx ++ text ") - " ++ playerResult ctx;
    [];
    text "## PGN";
    Ctx.pgn ctx;
    [];
    text "## Instructions";
    text "Analyze this chess game specifically for " ++ Ctx.playerName ctx ++
      text " (" ++ playerSide ctx ++
      text "). Focus on their moves, decisions, and areas for improvement.";
    [];
    text "Respond with a JSON object in this exact format:";
    [];
    text "{";
    text "  " ++ quoted "summary" ++ text ": " ++ [quote] ++
      text "A 2-3 sentence overview focusing on how " ++ Ctx.playerName ctx ++
      text " played, including opening choice, key themes, and outcome from their perspective" ++
      [quote] ++ text ",";
    text "  " ++ quoted "phases" ++ text ": [";
    text "    {";
    text "      " ++ quoted "name" ++ text ": " ++ quoted "Opening" ++ text ",";
    text "      " ++ quoted "moves" ++ text ": " ++ quoted "1-15" ++ text ",";
    text "      " ++ quoted "evaluation" ++ text ": " ++ [quote] ++
      text "Assessment of " ++ Ctx.playerName ctx ++ text "'s play in this phase" ++
      [quote] ++ text ",";
    text "      " ++ quoted "key_ideas" ++ text ": [" ++ [quote] ++ text "What " ++
      Ctx.playerName ctx ++ text " did well or poorly" ++ [quote] ++ text "]";
    text "    }";
    text "  ],";
    text "  " ++ quoted "key_moments" ++ text ": [";
    text "    {";
    text "      " ++ quoted "move_number" ++ text ": 15,";
    text "      " ++ quoted "move" ++ text ": " ++ quoted "Nxe5" ++ text ",";
    text "      " ++ quoted "fen" ++ text ": " ++ quoted [] ++ text ",";
    text "      " ++ quoted "evaluation" ++ text ": " ++ quoted "+1.5" ++ text ",";
    text "      " ++ quoted "comment" ++ text ": " ++ [quote] ++
      text "Explanation of " ++ Ctx.playerName ctx ++
      text "'s decision and its impact" ++ [quote] ++ text ",";
    text "      " ++ quoted "is_mistake" ++ text ": false";
    text "    }";
    text "  ],";
    text "  " ++ quoted "recommendations" ++ text ": [" ++ [quote] ++
      text "Specific improvement for " ++ Ctx.playerName ctx ++ [quote] ++ text "]";
    text "}";
    [];
    text "Requirements:";
    text "- Include 3 phases: Opening, Middlegame, Endgame (or fewer if game ended early)";
    text "- Identify 3-5 key moments focusing on " ++ Ctx.playerName ctx ++
      text "'s moves";
    text "- Provide 3-5 actionable recommendations specifically for " ++
      Ctx.playerName ctx ++ text " to improve";
    text "- Focus on conceptual understanding and patterns " ++ Ctx.playerName ctx ++
      text " should recognize";
    text "- Be specific with move numbers";
    text "- Address " ++ Ctx.playerName ctx ++
      text " directly in recommendations (e.g., " ++ quoted "Consider developing..." ++
      text " not " ++ quoted "White should..." ++ text ")";
    [];
    text "Respond with ONLY the JSON object, no other text."
  ].

Definition buildPrompt (ctx : AnalysisContext) : jsstring :=
  joinLines (promptLines ctx).

(** The match of the pattern of a JSON object in the answer of the model:
    from the first opening brace to the last closing brace after it. *)
Definition matchJson (answer : jsstring) : option jsstring :=
  match JsLib.fromFirst "{"%char answer with
  | Some (brace :: rest) => (λ body, brace :: body) <$> JsLib.upToLast "}"%char rest
  | _ => None
  end.

Record Model := {
  (** [generateText] with the model and the prompt; the field [text] of
      what it resolves to *)
  generateText : jsstring → Completion jsstring;
  (** [JSON.parse]; the cast of its value to [AnalysisResult] checks
      nothing *)
  JSON_parse : jsstring → Completion Json;
}.

Definition contextOf (pgn : jsstring) (metadata : GameInfo.t)
    (playerName : jsstring) (playerColor : option PlayerColor) : AnalysisContext :=
  {| Ctx.pgn := pgn;
     Ctx.white := GameInfo.white metadata;
     Ctx.black := GameInfo.black metadata;
     Ctx.result := GameInfo.result metadata;
     Ctx.event := GameInfo.event metadata;
     Ctx.date := GameInfo.date metadata;
     Ctx.playerName := playerName;
     Ctx.playerColor := playerColor |}.

(** [analyzeGame]; its [catch] clause logs the error and throws it
    again. *)
Definition analyzeGame (m : Model) (pgn : jsstring) (metadata : GameInfo.t)
    (playerName : jsstring) (playerColor : option PlayerColor)
    : Completion Json :=
  let ctx := contextOf pgn metadata playerName playerColor in
  let prompt := buildPrompt ctx in
  match generateText m prompt with
  | Threw error => Threw error
  | Returned answer =>
      match matchJson answer with
      | None => Threw (JsError "Failed to parse JSON from Gemini response")
      | Some jsonMatch => JSON_parse m jsonMatch
      end
  end.

End Gemini.

(** ** Dispatch ([cloud-tasks.service.ts], [queue.service.ts]) *)

Module CloudTasks.

(** The task handed to the queue: a POST request of JSON content to the
    worker. *)
Record Task := {
  url : jsstring;
  body : jsstring;
}.

Record Client := {
  (** [process.env] *)
  GCP_PROJECT_ID : option jsstring;
  GCP_TASKS_LOCATION : option jsstring;
  GCP_TASKS_QUEUE : option jsstring;
  GCP_CLOUD_RUN_URL : option jsstring;
  (** [client.queuePath(projectId, location, queue)] *)
  queuePath : jsstring → jsstring → jsstring → jsstring;
  (** the object with the one key [analysis_id], serialized as JSON and
      encoded in base 64 *)
  encode : jsstring → jsstring;
  (** [client.createTask({ parent, task })] *)
  createTask : jsstring → Task → Completion unit;
}.

Definition getQueuePath (c : Client) : Completion jsstring :=
  let projectId := GCP_PROJECT_ID c in
  let location := orElse (GCP_TASKS_LOCATION c) "us-central1" in
  let queue := orElse (GCP_TASKS_QUEUE c) "analysis-queue" in
  match envSet projectId with
  | None => Threw (JsError "GCP_PROJECT_ID environment variable is not set")
  | Some projectId => Returned (queuePath c projectId location queue)
  end.

Definition getWorkerUrl (c : Client) : Completion jsstring :=
  match envSet (GCP_CLOUD_RUN_URL c) with
  | None => Threw (JsError "GCP_CLOUD_RUN_URL environment variable is not set")
  | Some url => Returned (url ++ "/worker/process")
  end.

(** [enqueueAnalysis]; its [catch] clause logs the error and throws it
    again. *)
Definition enqueueAnalysis (c : Client) (analysisId : jsstring) : Completion unit :=
  match getQueuePath c with
  | Threw e => Threw e
  | Returned queuePath =>
      match getWorkerUrl c with
      | Threw e => Threw e
      | Returned workerUrl =>
          createTask c queuePath {| url := workerUrl; body := encode c analysisId |}
      end
  end.

(** [enqueueAnalysisBatch]: one after the other, up to the first that
    throws; the identifiers handed over, and the completion. *)
Fixpoint enqueueAnalysisBatch (c : Client) (analysisIds : list jsstring)
    : list jsstring * Completion unit :=
  match analysisIds with
  | [] => ([], Returned ())
  | id :: ids =>
      match enqueueAnalysis c id with
      | Threw e => ([], Threw e)
      | Returned _ =>
          let '(sent, r) := enqueueAnalysisBatch c ids in (id :: sent, r)
      end
  end.

End CloudTasks.

Module Queue.

Inductive QueueService := MockQueueService | CloudTasksQueueService.

(** [getQueueService()]: [_queueService] is the variable of the module
    that keeps the service once chosen; the service, and the variable
    afterwards. *)
Definition getQueueService (USE_MOCK_QUEUE : option jsstring)
    (_queueService : option QueueService) : QueueService * option QueueService :=
  match _queueService with
  | Some service => (service, _queueService)
  | None =>
      let useMockQueue := bool_decide (USE_MOCK_QUEUE = Some ("true" : jsstring)) in
      let service := if useMockQueue then MockQueueService else CloudTasksQueueService in
      (service, Some service)
  end.

(** [queueService.enqueue(id)].  The mock service schedules one
    invocation of the worker for later and resolves. *)
Definition enqueue (USE_MOCK_QUEUE : option jsstring) (c : CloudTasks.Client)
    (_queueService : option QueueService) (analysisId : jsstring)
    : Completion unit * option QueueService :=
  let '(service, _queueService) := getQueueService USE_MOCK_QUEUE _queueService in
  match service with
  | MockQueueService => (Returned (), _queueService)
  | CloudTasksQueueService => (CloudTasks.enqueueAnalysis c analysisId, _queueService)
  end.

End Queue.

(** The collaborators of a process made of the services above, the
    dispatch service being chosen at its first use. *)
Definition serviceWorld (g : Gcs.Storage) (USE_MOCK_QUEUE : option jsstring)
    (c : CloudTasks.Client) (m : Gemini.Model) (o : Mapper)
    (uuid : nat → jsstring) (clock : nat)
    : World :=
  {| downloadFile := Gcs.downloadFile g;
     enqueue := λ analysisId, (Queue.enqueue USE_MOCK_QUEUE c None analysisId).1;
     analyzeGame := Gemini.analyzeGame m;
     uuidv4 := uuid;
     now := clock;
     mapper := o |}.

(** ** Requests and answers *)

Module Http.

(** [req.user] *)
Record User := {
  id : jsstring;
  email : jsstring;
}.

(** The JSON bodies the handlers send: [{ success: true, data }],
    [{ success: true, message }], [{ success: false, error: { message } }]. *)
Inductive Body (D : Type) :=
  | Success (data : D)
  | SuccessMessage (message : jsstring)
  | Failure (message : jsstring).
Arguments Success {D} data.
Arguments SuccessMessage {D} message.
Arguments Failure {D} message.

(** What a handler does with a request: it answers with a status code and
    a body, or hands over to the next handler, or to the error handler
    with what was thrown. *)
Inductive Outcome (D : Type) :=
  | Answered (statusCode : nat) (body : Body D)
  | Next
  | NextError (error : Thrown).
Arguments Answered {D} statusCode body.
Arguments Next {D}.
Arguments NextError {D} error.

(** The identifier of [req.user] when the request has a user, the
    identifier of the guest otherwise. *)
Definition requester (user : option User) : jsstring :=
  orElse (id <$> user) "guest".

(** [try { const r = await m; answer(r) } catch (error) { next(error) }] *)
Definition handle {A D} (m : M A) (answer : A → Outcome D) : State → Outcome D * State :=
  λ st,
  match m st with
  | (Returned r, st') => (answer r, st')
  | (Threw error, st') => (NextError error, st')
  end.

(** [validate(schema, source)] ([validate.ts]), given the messages of the
    issues that the schema finds in the source: with no issue the next
    handler runs, otherwise the request is answered with the messages.
    The value that [schema.parse] returns and that is stored back in the
    request is, for the two schemas used, the fields read from it. *)
Definition validate {D} (issues : list jsstring) (next : State → Outcome D * State)
    : State → Outcome D * State :=
  λ st,
  match issues with
  | [] => next st
  | _ :: _ => (Answered 400 (Failure (JsLib.join ", " issues)), st)
  end.

End Http.

(** ** Request schemas ([analysis.validator.ts]) *)

Module Validator.

(** The messages of the issues of [bulkAnalysisSchema] for a body whose
    [urls] is an array of strings and whose [playerName] is a string, in
    the order in which they are found: the size of the array, its
    elements, then the name. *)
Definition bulkAnalysisSchema (urls : list jsstring) (playerName : jsstring)
    : list jsstring :=
  (if decide (length urls < 1) then [("At least one URL is required" : jsstring)] else [])
  ++ (if decide (50 < length urls)
      then [("Maximum 50 URLs allowed per request" : jsstring)] else [])
  ++ omap (λ url, if Js.startsWith url "gs://" then None
                  else Some ("Each URL must be a valid GCS URL (gs://...)" : jsstring)) urls
  ++ (if decide (length playerName < 1)
      then [("Player name is required" : jsstring)] else []).

(** The messages of the issues of [statusQuerySchema] for a query whose
    [ids] is a string. *)
Definition statusQuerySchema (ids : jsstring) : list jsstring :=
  if decide (length ids < 1) then [("Analysis IDs are required" : jsstring)] else [].

End Validator.

(** ** Authentication ([jwt.service.ts], [auth.middleware.ts]) *)

Module Auth.

Record TokenPayload := {
  userId : jsstring;
  email : jsstring;
}.

Record Jwt := {
  (** [process.env.JWT_SECRET] *)
  JWT_SECRET : option jsstring;
  (** [jwt.verify(token, secret)]; the token is absent when the header
      has no second word *)
  verify : option jsstring → jsstring → Completion TokenPayload;
}.

(** [getSecrets()]: the secret of access tokens and that of refresh
    tokens. *)
Definition getSecrets (j : Jwt) : Completion (jsstring * jsstring) :=
  match envSet (JWT_SECRET j) with
  | None => Threw (JsError "JWT_SECRET environment variable is not set")
  | Some jwtSecret => Returned (jwtSecret, jwtSecret ++ "_refresh")
  end.

Definition verifyAccessToken (j : Jwt) (token : option jsstring) : Completion TokenPayload :=
  match getSecrets j with
  | Threw e => Threw e
  | Returned (accessSecret, _) => verify j token accessSecret
  end.

Definition verifyRefreshToken (j : Jwt) (token : option jsstring) : Completion TokenPayload :=
  match getSecrets j with
  | Threw e => Threw e
  | Returned (_, refreshSecret) => verify j token refreshSecret
  end.

(** The header when it is there, is not empty and starts with the word
    Bearer and a space. *)
Definition bearer (authorization : option jsstring) : option jsstring :=
  match envSet authorization with
  | Some authHeader => if Js.startsWith authHeader "Bearer " then Some authHeader else None
  | None => None
  end.

(** The second of the pieces of the header between its spaces. *)
Definition tokenOf (authHeader : jsstring) : option jsstring :=
  JsLib.split authHeader " "%char !! 1.

Definition userOf (payload : TokenPayload) : Http.User :=
  {| Http.id := userId payload; Http.email := email payload |}.

(** [requireAuth]: [req.user] afterwards, and the outcome. *)
Definition requireAuth {D} (j : Jwt) (authorization : option jsstring)
    : option Http.User * Http.Outcome D :=
  match bearer authorization with
  | None => (None, Http.Answered 401 (Http.Failure "No token provided"))
  | Some authHeader =>
      match verifyAccessToken j (tokenOf authHeader) with
      | Returned payload => (Some (userOf payload), Http.Next)
      | Threw _ => (None, Http.Answered 401 (Http.Failure "Invalid or expired token"))
      end
  end.

(** [optionalAuth]: [req.user] afterwards; the next handler is called in
    every case. *)
Definition optionalAuth (j : Jwt) (authorization : option jsstring) : option Http.User :=
  match bearer authorization with
  | None => None
  | Some authHeader =>
      match verifyAccessToken j (tokenOf authHeader) with
      | Returned payload => Some (userOf payload)
      | Threw _ => None
      end
  end.

End Auth.

(** ** Handlers ([analysis.controller.ts], [worker.routes.ts]) *)

Module Controller.

(** [createBulkAnalysis], on a validated body. *)
Definition createBulkAnalysis (w : World) (user : option Http.User)
    (urls : list jsstring) (playerName : jsstring)
    : State → Http.Outcome BulkAnalysisResponse * State :=
  let userId := Http.requester user in
  Http.handle (processBulkAnalysis w urls userId playerName)
    (λ result, Http.Answered 202 (Http.Success result)).

(** [getAnalysisStatus], on a validated query. *)
Definition getAnalysisStatus (user : option Http.User) (ids : jsstring)
    : State → Http.Outcome (gmap jsstring StatusEntry.t) * State :=
  let ids := JsLib.split ids ","%char in
  let userId := Http.requester user in
  Http.handle (getAnalysesStatus ids userId)
    (λ statuses, Http.Answered 200 (Http.Success statuses)).

Definition getAnalysisById (user : option Http.User) (id : jsstring)
    : State → Http.Outcome IAnalysis * State :=
  let userId := Http.requester user in
  Http.handle (getAnalysisById id userId)
    (λ analysis,
       match analysis with
       | None => Http.Answered 404 (Http.Failure "Analysis not found")
       | Some analysis => Http.Answered 200 (Http.Success analysis)
       end).

(** The handler of [POST /worker/process], on a parsed body; [analysis_id]
    is the field of the body, a string, when it is there.  The answer 500
    asks the queue to deliver the task again. *)
Definition process (w : World) (analysis_id : option jsstring)
    : State → Http.Outcome unit * State :=
  λ st,
  match envSet analysis_id with
  | None => (Http.Answered 400 (Http.Failure "analysis_id is required"), st)
  | Some analysis_id =>
      match processAnalysis w analysis_id st with
      | (Returned _, st') =>
          (Http.Answered 200
             (Http.SuccessMessage ("Analysis " ++ analysis_id ++ " processed")), st')
      | (Threw error, st') =>
          (Http.Answered 500
             (Http.Failure match error with
                           | JsError message => message
                           | NonError => "Processing failed"
                           end), st')
      end
  end.

End Controller.

(** ** Routes ([analysis.routes.ts]) *)

Module Route.

(** [POST /analysis/bulk]: [optionalAuth], [validate(bulkAnalysisSchema)],
    [createBulkAnalysis] *)
Definition postBulk (j : Auth.Jwt) (w : World) (authorization : option jsstring)
    (urls : list jsstring) (playerName : jsstring)
    : State → Http.Outcome BulkAnalysisResponse * State :=
  Http.validate (Validator.bulkAnalysisSchema urls playerName)
    (Controller.createBulkAnalysis w (Auth.optionalAuth j authorization) urls playerName).

(** [GET /analysis/status]: [optionalAuth], [validate(statusQuerySchema)]
    on the query, [getAnalysisStatus] *)
Definition getStatus (j : Auth.Jwt) (authorization : option jsstring) (ids : jsstring)
    : State → Http.Outcome (gmap jsstring StatusEntry.t) * State :=
  Http.validate (Validator.statusQuerySchema ids)
    (Controller.getAnalysisStatus (Auth.optionalAuth j authorization) ids).

(** [GET /analysis/:id] *)
Definition getById (j : Auth.Jwt) (authorization : option jsstring) (id : jsstring)
    : State → Http.Outcome IAnalysis * State :=
  Controller.getAnalysisById (Auth.optionalAuth j authorization) id.

End Route.

(** ** Runs of the queue *)

(** The worker invoked once for each of [analysisIds], one after the
    other: what happens to the requests handed to the queue. *)
Definition runWorker (w : World) (analysisIds : list jsstring) (st : State) : State :=
  foldl (λ st analysisId, (processAnalysis w analysisId st).2) st analysisIds.

(** The context of the model call the worker makes for a job. *)
Definition jobContext (a : IAnalysis) : AnalysisContext :=
  Gemini.contextOf (Job.pgn a) (gameInfo a) (Job.player_name a) (Job.player_color a).

(** ** A sample deployment *)

Module Deployed.

(** The two sample files in one bucket. *)
Definition storage : Gcs.Storage :=
  {| Gcs.GCP_STORAGE_BUCKET := Some ("bucket" : jsstring);
     Gcs.save := λ _ _ _ _ _ _, Returned ();
     Gcs.download := λ bucketName filePath,
       if decide (bucketName = "bucket" ∧ filePath = "one.pgn") then Returned Sample.file1
       else if decide (bucketName = "bucket" ∧ filePath = "two.pgn") then Returned Sample.file2
       else Threw (JsError "No such object") |}.

Definition client (projectId : option jsstring) : CloudTasks.Client :=
  {| CloudTasks.GCP_PROJECT_ID := projectId;
     CloudTasks.GCP_TASKS_LOCATION := None;
     CloudTasks.GCP_TASKS_QUEUE := None;
     CloudTasks.GCP_CLOUD_RUN_URL := Some ("https://worker.example" : jsstring);
     CloudTasks.queuePath := λ projectId location queue,
       "projects/" ++ projectId ++ "/locations/" ++ location ++ "/queues/" ++ queue;
     CloudTasks.encode := λ analysisId, analysisId;
     CloudTasks.createTask := λ _ _, Returned () |}.

(** An object whose key moments are a number. *)
Definition illTyped : jsstring :=
  "{" ++ [quote] ++ "key_moments" ++ [quote] ++ ":0}".

(** A model that gives the same answer to every prompt, and a parser that
    knows two texts. *)
Definition model (answer : jsstring) : Gemini.Model :=
  {| Gemini.generateText := λ _, Returned answer;
     Gemini.JSON_parse := λ json,
       if decide (json = "{}") then Returned (JObject [])
       else if decide (json = illTyped)
       then Returned (JObject [(("key_moments" : jsstring), JNumber 0)])
       else Threw (JsError "Unexpected token") |}.

(** One token is valid, that of the user zoe. *)
Definition jwt : Auth.Jwt :=
  {| Auth.JWT_SECRET := Some ("secret" : jsstring);
     Auth.verify := λ token secret,
       if decide (token = Some ("t-zoe" : jsstring) ∧ secret = "secret")
       then Returned {| Auth.userId := "zoe"; Auth.email := "zoe@example.org" |}
       else Threw (JsError "invalid token") |}.

Definition world (USE_MOCK_QUEUE projectId : option jsstring) (answer : jsstring) : World :=
  serviceWorld storage USE_MOCK_QUEUE (client projectId) (model answer) Sample.mongoose
    (λ n, replicate (S n) "u"%char) 1700.

Definition url1 : jsstring := "gs://bucket/one.pgn".
Definition url2 : jsstring := "gs://bucket/two.pgn".

End Deployed.

(** ** The list of the jobs of a user ([analysis.service.ts], getUserAnalyses) *)

Module Listing.

Record Driver := {
  (** the order in which a query sorted by time of creation, latest
      first, gives the documents it found *)
  sortByCreatedDesc : list IAnalysis → list IAnalysis;
  (** what a query with a negative number of documents to skip throws *)
  negativeSkip : Thrown;
}.

Record UserAnalyses := {
  analyses : list IAnalysis;
  total : nat;
}.

(** [getUserAnalyses] for a page number and a page size that are natural
    numbers.  The number of documents to skip is [(page - 1) * limit]: it
    is negative for the page 0 of a positive size; a limit of 0 is no
    limit. *)
Definition getUserAnalyses (d : Driver) (userId : jsstring) (page limit : nat)
    : M UserAnalyses := λ st,
  let found := sortByCreatedDesc d (filter (λ a, Job.user_id a = userId) (db st)) in
  let count := length (filter (λ a, Job.user_id a = userId) (db st)) in
  if decide (page = 0 ∧ 0 < limit) then (Threw (negativeSkip d), st)
  else
    let skip := (page - 1) * limit in
    let rest := drop skip found in
    (Returned {| analyses := if decide (limit = 0) then rest else take limit rest;
                 total := count |}, st).

(** The page [page] of size [limit] of a list. *)
Definition pageOf {A} (l : list A) (page limit : nat) : list A :=
  take limit (drop ((page - 1) * limit) l).

End Listing.

(** * Properties *)

(** ** Strings *)

Module JsFacts.
Import Js.

Lemma lowerChar_isWhiteSpace c : isWhiteSpace (lowerChar c) = isWhiteSpace c.
Proof. by destruct c as [[] [] [] [] [] [] [] []]. Qed.

Lemma whiteSpaceOnly_toLowerCase s : whiteSpaceOnly s → whiteSpaceOnly (toLowerCase s).
Proof.
  unfold whiteSpaceOnly, toLowerCase. rewrite Forall_map.
  intros Hs. eapply Forall_impl; [exact Hs|].
  intros c Hc. simpl. by rewrite lowerChar_isWhiteSpace.
Qed.

Lemma startsWith_spec s t : startsWith s t = true ↔ ∃ post, s = t ++ post.
Proof.
  revert s. induction t as [|b t IH]; intros s; simpl.
  - split; [intros _; by exists s|by intros _].
  - destruct s as [|a s].
    + split; [done|]. by intros [post ?].
    + case_decide as Hab.
      * subst b. rewrite IH. split; intros [post Hp]; exists post; congruence.
      * split; [done|]. intros [post Hp]. congruence.
Qed.

Lemma includes_spec s t : includes s t = true ↔ occursIn t s.
Proof.
  unfold occursIn. induction s as [|a s IH]; simpl.
  - rewrite orb_false_r, startsWith_spec. split.
    + intros [post Hp]. by exists [], post.
    + intros (pre & post & Hp). symmetry in Hp.
      apply app_eq_nil in Hp as [-> Hp]. eauto.
  - rewrite orb_true_iff, IH, startsWith_spec. split.
    + intros [[post Hp]|(pre & post & Hp)].
      * by exists [], post.
      * exists (a :: pre), post. by rewrite Hp.
    + intros (pre & post & Hp). destruct pre as [|a' pre].
      * left. by exists post.
      * right. exists pre, post. simpl in Hp. congruence.
Qed.

Lemma includes_nil s : includes s [] = true.
Proof. apply includes_spec. by exists [], s. Qed.

Lemma trimStart_whiteSpaceOnly l s : whiteSpaceOnly l → trimStart (l ++ s) = trimStart s.
Proof. induction 1 as [|c l Hc _ IH]; simpl; [done|]. by rewrite Hc. Qed.

Lemma trimStart_head s :
  (∀ c, head s = Some c → isWhiteSpace c = false) → trimStart s = s.
Proof. destruct s as [|c s]; simpl; [done|]. intros H. by rewrite (H c). Qed.

Lemma trimStart_spec s :
  ∃ l, s = l ++ trimStart s ∧ whiteSpaceOnly l ∧
       ∀ c, head (trimStart s) = Some c → isWhiteSpace c = false.
Proof.
  induction s as [|a s (l & Hs & Hl & Hh)]; simpl.
  - exists []. split_and!; [done|constructor|done].
  - destruct (isWhiteSpace a) eqn:Ha.
    + exists (a :: l). split_and!; [simpl; congruence|by constructor|done].
    + exists []. split_and!; [done|constructor|]. simpl. by intros c [= <-].
Qed.

Lemma whiteSpaceOnly_reverse s : whiteSpaceOnly s → whiteSpaceOnly (reverse s).
Proof. unfold whiteSpaceOnly. by rewrite Forall_reverse. Qed.

Lemma trimEnd_whiteSpaceOnly s r : whiteSpaceOnly r → trimEnd (s ++ r) = trimEnd s.
Proof.
  intros Hr. unfold trimEnd. rewrite reverse_app.
  by rewrite trimStart_whiteSpaceOnly by by apply whiteSpaceOnly_reverse.
Qed.

Lemma trimEnd_last s :
  (∀ c, last s = Some c → isWhiteSpace c = false) → trimEnd s = s.
Proof.
  intros H. unfold trimEnd. rewrite trimStart_head, reverse_involutive; [done|].
  intros c. rewrite head_reverse. apply H.
Qed.

Lemma trimEnd_spec s :
  ∃ r, s = trimEnd s ++ r ∧ whiteSpaceOnly r ∧
       ∀ c, last (trimEnd s) = Some c → isWhiteSpace c = false.
Proof.
  destruct (trimStart_spec (reverse s)) as (l & Hs & Hl & Hh).
  exists (reverse l). unfold trimEnd. split_and!.
  - rewrite <-reverse_app, <-Hs. by rewrite reverse_involutive.
  - by apply whiteSpaceOnly_reverse.
  - intros c. rewrite last_reverse. apply Hh.
Qed.

Lemma trimEnd_head s c :
  head s = Some c → isWhiteSpace c = false → head (trimEnd s) = Some c.
Proof.
  intros Hh Hc. destruct (trimEnd_spec s) as (r & Hs & Hr & _).
  destruct (trimEnd s) as [|a t] eqn:Ht.
  - simpl in Hs. subst s. destruct Hr as [|a r Ha _]; [done|].
    simpl in Hh. congruence.
  - rewrite Hs in Hh. done.
Qed.

(** [trim] removes white space at both ends and nothing else. *)
Lemma trim_spec s :
  ∃ l r, s = l ++ trim s ++ r ∧ whiteSpaceOnly l ∧ whiteSpaceOnly r ∧ trimmed (trim s).
Proof.
  destruct (trimStart_spec s) as (l & Hs & Hl & Hh).
  destruct (trimEnd_spec (trimStart s)) as (r & Hs' & Hr & Hlast).
  exists l, r. unfold trim. split_and!; [by rewrite <-Hs'|done|done|].
  split; [|done]. intros c Hc.
  destruct (trimStart s) as [|a t] eqn:Ht; [done|].
  rewrite (trimEnd_head (a :: t) a) in Hc; [|done|by apply Hh].
  injection Hc as <-. by apply Hh.
Qed.

Lemma trim_unique s l n r :
  s = l ++ n ++ r → whiteSpaceOnly l → whiteSpaceOnly r → trimmed n → trim s = n.
Proof.
  intros -> Hl Hr [Hh Hlast]. unfold trim.
  rewrite trimStart_whiteSpaceOnly by done.
  destruct n as [|a n].
  - simpl. destruct (trimStart_spec r) as (l' & Hr' & _ & Hh').
    destruct (trimStart r) as [|c t] eqn:Ht; [done|].
    assert (isWhiteSpace c = true) as Hc.
    { eapply (Forall_forall (λ c, isWhiteSpace c = true)); [exact Hr|].
      rewrite Hr'. set_solver. }
    rewrite (Hh' c) in Hc; done.
  - rewrite trimStart_head by (simpl; intros c [= <-]; by apply Hh).
    rewrite trimEnd_whiteSpaceOnly by done. by apply trimEnd_last.
Qed.

Lemma trim_whiteSpaceOnly s : whiteSpaceOnly s → trim s = [].
Proof.
  intros Hs. apply (trim_unique s s [] []); [by rewrite app_nil_r|done|constructor|].
  by split.
Qed.

Lemma trim_normalizes s : normalizes s (trim (toLowerCase s)).
Proof. apply trim_spec. Qed.

Lemma normalizes_unique s n : normalizes s n → n = trim (toLowerCase s).
Proof.
  intros (l & r & Hs & Hl & Hr & Hn). symmetry. by eapply trim_unique.
Qed.

End JsFacts.

(** ** Subject resolver *)

Section resolver.
Import Js JsFacts.

Lemma includes_nameMatch a b :
  includes b a || includes a b = true ↔ nameMatch a b.
Proof. unfold nameMatch. by rewrite orb_true_iff, !includes_spec. Qed.

Lemma includes_not_nameMatch a b :
  includes b a || includes a b = false ↔ ¬ nameMatch a b.
Proof. rewrite <-includes_nameMatch. by destruct (_ || _). Qed.

(** The resolver in terms of the three normalized names. *)
Lemma determinePlayerColor_cases metadata playerName :
  let n := trim (toLowerCase playerName) in
  let w := trim (toLowerCase (Metadata.white metadata)) in
  let b := trim (toLowerCase (Metadata.black metadata)) in
  (nameMatch n w ∧ determinePlayerColor metadata playerName = Some White) ∨
  (¬ nameMatch n w ∧ nameMatch n b ∧
     determinePlayerColor metadata playerName = Some Black) ∨
  (¬ nameMatch n w ∧ ¬ nameMatch n b ∧
     determinePlayerColor metadata playerName = None).
Proof.
  intros n w b. unfold determinePlayerColor. fold n w b.
  destruct (includes w n || includes n w) eqn:Hw.
  { left. split; [by apply includes_nameMatch|done]. }
  right. apply includes_not_nameMatch in Hw.
  destruct (includes b n || includes n b) eqn:Hb.
  - left. split_and!; [done|by apply includes_nameMatch|done].
  - right. split_and!; [done|by apply includes_not_nameMatch|done].
Qed.

(** A subject name made of white space only (the empty name included)
    normalizes to the empty string, which every name contains. *)
Lemma determinePlayerColor_blank metadata playerName :
  whiteSpaceOnly playerName → determinePlayerColor metadata playerName = Some White.
Proof.
  intros Hws. unfold determinePlayerColor.
  rewrite (trim_whiteSpaceOnly (toLowerCase playerName))
    by by apply whiteSpaceOnly_toLowerCase.
  by rewrite includes_nil.
Qed.

End resolver.

(** C2.  For every game metadata and subject name: with [n], [w] and [b]
    the subject name, the white name and the black name lowercased and
    trimmed, the resolver returns white when [n] contains or is contained
    in [w] (also when black would match too); otherwise black when [n]
    contains or is contained in [b]; otherwise no match.  The resolver is
    a total function: it returns one of these three values on every input
    and throws on none. *)
Theorem determinePlayerColor_spec metadata playerName n w b :
  normalizes playerName n →
  normalizes (Metadata.white metadata) w →
  normalizes (Metadata.black metadata) b →
  (nameMatch n w → determinePlayerColor metadata playerName = Some White) ∧
  (¬ nameMatch n w → nameMatch n b →
     determinePlayerColor metadata playerName = Some Black) ∧
  (¬ nameMatch n w → ¬ nameMatch n b →
     determinePlayerColor metadata playerName = None).
Proof.
  intros ->%JsFacts.normalizes_unique ->%JsFacts.normalizes_unique
         ->%JsFacts.normalizes_unique.
  destruct (determinePlayerColor_cases metadata playerName)
    as [[Hw ->]|[(Hw & Hb & ->)|(Hw & Hb & ->)]]; naive_solver.
Qed.

Lemma determinePlayerColor_spec_witness :
  determinePlayerColor (parseHeaders Sample.game2) " ANN " = Some Black.
Proof.
  apply (determinePlayerColor_spec (parseHeaders Sample.game2) " ANN "
           "ann" "cy" "ann lee").
  - exact (JsFacts.trim_normalizes " ANN ").
  - exact (JsFacts.trim_normalizes (Metadata.white (parseHeaders Sample.game2))).
  - exact (JsFacts.trim_normalizes (Metadata.black (parseHeaders Sample.game2))).
  - apply includes_not_nameMatch. vm_compute. reflexivity.
  - apply includes_nameMatch. vm_compute. reflexivity.
Defined.

(** ** Game-record parser *)

Section parser.
Import Js JsFacts.

Lemma span_spec p s a b :
  span p s = (a, b) →
  s = a ++ b ∧ Forall (λ c, p c = true) a ∧ ∀ c, head b = Some c → p c = false.
Proof.
  revert a b. induction s as [|c s IH]; simpl; intros a b.
  - intros [= <- <-]. split_and!; [done|constructor|done].
  - destruct (p c) eqn:Hc.
    + destruct (span p s) as [a' b'] eqn:Hs. intros [= <- <-].
      destruct (IH a' b' eq_refl) as (-> & Ha & Hb).
      split_and!; [done|by constructor|done].
    + intros [= <- <-]. split_and!; [done|constructor|]. simpl. by intros ? [= <-].
Qed.

Lemma span_app p a b :
  Forall (λ c, p c = true) a → (∀ c, head b = Some c → p c = false) →
  span p (a ++ b) = (a, b).
Proof.
  intros Ha Hb. induction Ha as [|c a Hc _ IH]; simpl.
  - destruct b as [|c b]; simpl; [done|]. by rewrite (Hb c).
  - by rewrite Hc, IH.
Qed.

Lemma isWhiteSpace_LF : isWhiteSpace LF = true.
Proof. done. Qed.

Lemma isWhiteSpace_lbracket : isWhiteSpace lbracket = false.
Proof. done. Qed.

Lemma isWhiteSpace_quote : isWhiteSpace quote = false.
Proof. done. Qed.

(** The separator pattern matches at the start of [s] exactly when [s]
    starts with a blank line followed by an opening bracket; the match
    ends before the bracket. *)
Lemma matchBoundary_Some s rest :
  matchBoundary s = Some rest ↔
  ∃ sep, blankLine sep ∧ s = sep ++ rest ∧ head rest = Some lbracket.
Proof.
  unfold matchBoundary, blankLine. split.
  - destruct s as [|c t]; [done|]. case_decide as Hc; [subst c|done].
    destruct (span isWhiteSpace t) as [ws r] eqn:Hspan.
    apply span_spec in Hspan as (-> & Hws & _).
    destruct (last ws) as [l|] eqn:Hl; [|done].
    destruct r as [|b r]; [done|]. case_decide as Hlb; [|done].
    destruct Hlb as [-> ->]. intros [= <-].
    apply last_Some in Hl as [ws' ->].
    exists (LF :: ws' ++ [LF]). split_and!; [|done|done].
    exists ws'. split; [done|]. by apply Forall_app in Hws as [? _].
  - intros (sep & (ws & -> & Hws) & -> & Hhead).
    destruct rest as [|b rest]; [done|]. injection Hhead as ->.
    simpl.
    rewrite (span_app isWhiteSpace (ws ++ [LF]) (lbracket :: rest)).
    + rewrite last_snoc. by rewrite decide_True.
    + apply Forall_app. split; [done|]. by constructor.
    + simpl. by intros ? [= <-].
Qed.

Lemma whiteSpaceOnly_blankLine sep : blankLine sep → whiteSpaceOnly sep.
Proof.
  intros (ws & -> & Hws). constructor; [done|].
  apply Forall_app. split; [done|]. by constructor.
Qed.

(** Inside a game record, and across its end, the separator pattern
    matches nowhere. *)
Lemma gameRecord_no_match g tail p s :
  gameRecord g → g = p ++ s → s ≠ [] → matchBoundary (s ++ tail) = None.
Proof.
  intros (_ & (c & Hlast & Hc) & Hnb) -> Hs.
  destruct (matchBoundary (s ++ tail)) as [rest|] eqn:Hm; [|done].
  exfalso. apply matchBoundary_Some in Hm as (sep & Hsep & Heq & Hhead).
  rewrite last_app in Hlast.
  destruct (last s) as [c'|] eqn:Hls; [|by apply last_None in Hls].
  injection Hlast as ->. apply last_Some in Hls as [s' ->].
  rewrite <-(assoc_L (++)) in Heq.
  apply app_eq_inv in Heq as [(k & -> & ->)|(k & -> & Hk)].
  - apply Hnb. destruct k as [|b k].
    + simpl in Hhead. injection Hhead as ->.
      exists p, sep, []. split; [|done]. by rewrite app_nil_r.
    + simpl in Hhead. injection Hhead as ->.
      exists p, sep, (k ++ [c]). split; [|done].
      by rewrite <-!(assoc_L (++)).
  - destruct k as [|b k].
    + simpl in Hk. subst rest. simpl in Hhead. injection Hhead as ->.
      apply Hnb. exists p, (s' ++ []), []. split; [|done].
      by rewrite app_nil_r.
    + injection Hk as <- _.
      apply whiteSpaceOnly_blankLine in Hsep.
      apply Forall_app in Hsep as [_ Hsep]. apply Forall_cons in Hsep as [Hsep _].
      congruence.
Qed.

(** The split loop runs through a stretch of text where the separator
    matches nowhere, adding it to the current piece. *)
Lemma splitLoop_S fuel cur s :
  splitLoop (S fuel) cur s =
  match matchBoundary s with
  | Some rest => cur :: splitLoop fuel [] rest
  | None => match s with [] => [cur] | c :: t => splitLoop fuel (cur ++ [c]) t end
  end.
Proof. done. Qed.

Lemma splitLoop_run g tail :
  (∀ p s, g = p ++ s → s ≠ [] → matchBoundary (s ++ tail) = None) →
  ∀ fuel cur, splitLoop (length g + fuel) cur (g ++ tail) = splitLoop fuel (cur ++ g) tail.
Proof.
  induction g as [|c g IH]; intros Hg fuel cur.
  - by rewrite app_nil_r.
  - change (length (c :: g) + fuel) with (S (length g + fuel)).
    rewrite splitLoop_S, (Hg [] (c :: g)) by done.
    rewrite <-app_comm_cons, IH.
    + by rewrite <-(assoc_L (++)).
    + intros p s -> Hs. by apply (Hg (c :: p) s).
Qed.

Lemma matchBoundary_shorter s rest :
  matchBoundary s = Some rest → length rest < length s.
Proof.
  intros (sep & (ws & -> & _) & -> & _)%matchBoundary_Some.
  rewrite length_app. simpl. lia.
Qed.

(** The split loop never runs out of fuel: any two amounts of fuel beyond
    the length of the text give the same pieces. *)
Lemma splitLoop_fuel fuel fuel' cur s :
  length s < fuel → length s < fuel' → splitLoop fuel cur s = splitLoop fuel' cur s.
Proof.
  revert fuel' cur s. induction fuel as [|fuel IH]; intros fuel' cur s Hf Hf'; [lia|].
  destruct fuel' as [|fuel']; [lia|]. rewrite !splitLoop_S.
  destruct (matchBoundary s) as [rest|] eqn:Hm.
  - apply matchBoundary_shorter in Hm. f_equal. apply IH; lia.
  - destruct s as [|c t]; [done|]. simpl in Hf, Hf'. apply IH; lia.
Qed.

Lemma gameSequence_records gs text : gameSequence gs text → Forall gameRecord gs.
Proof.
  induction 1 as [|g Hg|g sep gs text Hg _ _ _ IH].
  - apply Forall_nil_2.
  - by apply Forall_singleton.
  - by apply Forall_cons_2.
Qed.

Lemma gameSequence_head gs text :
  gameSequence gs text → gs ≠ [] → head text = Some lbracket.
Proof.
  destruct 1 as [|g (Hh & _)|g sep gs text (Hh & _) _ _ _]; intros Hgs; [done|done|].
  apply head_Some in Hh as [g' ->]. done.
Qed.

Lemma gameSequence_last gs text :
  gameSequence gs text → gs ≠ [] →
  ∃ c, last text = Some c ∧ isWhiteSpace c = false.
Proof.
  induction 1 as [|g (_ & Hl & _)|g sep gs text _ _ Hgs _ IH]; intros Hne; [done|done|].
  destruct (IH Hgs) as (c & Hc & Hws). exists c. split; [|done].
  by rewrite !last_app, Hc.
Qed.

Lemma matchBoundary_not_LF c s : c ≠ LF → matchBoundary (c :: s) = None.
Proof. intros Hc. unfold matchBoundary. by rewrite decide_False. Qed.

(** Up to the blank line that ends it, a record and the end of its last
    line hold no match of the separator pattern. *)
Lemma record_line_no_match g pre tail p s :
  gameRecord g → LF ∉ pre → g ++ pre = p ++ s → s ≠ [] →
  matchBoundary (s ++ tail) = None.
Proof.
  intros Hg Hpre Heq Hs.
  apply app_eq_inv in Heq as [(k & -> & ->)|(k & -> & ->)].
  - destruct k as [|c k].
    + simpl. destruct pre as [|c pre]; [done|]. apply matchBoundary_not_LF.
      intros ->. apply Hpre. by left.
    + rewrite <-(assoc_L (++)). by eapply (gameRecord_no_match (p ++ c :: k)).
  - destruct s as [|c s]; [done|]. apply matchBoundary_not_LF.
    intros ->. apply Hpre. apply elem_of_app. right. by left.
Qed.

(** The pieces the split cuts a sequence of records into: each record,
    followed by the end of its last line. *)
Lemma splitLoop_games gs text :
  gameSequence gs text → gs ≠ [] →
  ∀ fuel, length text < fuel →
  Forall2 (λ piece g, ∃ pre, piece = g ++ pre ∧ whiteSpaceOnly pre)
          (splitLoop fuel [] text) gs.
Proof.
  induction 1 as [|g Hg|g sep gs text Hg Hsep Hgs Hseq IH]; intros Hne fuel Hfuel; [done| |].
  - replace (splitLoop fuel [] g)
      with (splitLoop (length g + (fuel - length g)) [] (g ++ []))
      by (rewrite app_nil_r; f_equal; lia).
    rewrite splitLoop_run by (intros p s; by apply gameRecord_no_match).
    destruct (fuel - length g) as [|fuel'] eqn:Hf; [lia|].
    apply Forall2_cons_2; [|constructor]. exists []. split; [by rewrite app_nil_r|constructor].
  - destruct Hsep as (pre & line & -> & Hpre & HLF & Hline).
    rewrite !length_app in Hfuel.
    replace (splitLoop fuel [] (g ++ (pre ++ line) ++ text))
      with (splitLoop (length (g ++ pre) + (fuel - length (g ++ pre))) []
              ((g ++ pre) ++ line ++ text))
      by (rewrite <-!(assoc_L (++)); f_equal; rewrite length_app; lia).
    rewrite splitLoop_run by (intros p s; by apply record_line_no_match).
    rewrite length_app.
    destruct (fuel - (length g + length pre)) as [|fuel'] eqn:Hf; [lia|].
    rewrite splitLoop_S.
    assert (matchBoundary (line ++ text) = Some text) as ->.
    { apply matchBoundary_Some. exists line. split_and!; [done|done|].
      by eapply gameSequence_head. }
    apply Forall2_cons_2; [by exists pre|].
    apply IH; [done|].
    destruct Hline as (ws & -> & _). simpl in Hfuel. rewrite length_app in Hfuel.
    simpl in Hfuel. lia.
Qed.

Lemma gameRecord_trim g pre : gameRecord g → whiteSpaceOnly pre → trim (g ++ pre) = g.
Proof.
  intros (Hh & (c & Hl & Hc) & _) Hpre.
  apply (trim_unique (g ++ pre) [] g pre); [done|constructor|done|].
  split.
  - intros c'. rewrite Hh. intros [= <-]. apply isWhiteSpace_lbracket.
  - intros c'. rewrite Hl. by intros [= <-].
Qed.

Lemma gameRecord_nonempty g : gameRecord g → 0 < length g.
Proof. intros (Hh & _). apply head_Some in Hh as [g' ->]. simpl. lia. Qed.

Lemma gameSequence_trim gs text lead trail :
  gameSequence gs text → whiteSpaceOnly lead → whiteSpaceOnly trail →
  trim (lead ++ text ++ trail) = text.
Proof.
  intros Hseq Hlead Htrail. eapply trim_unique; [done|done|done|].
  destruct gs as [|g gs].
  - by inversion Hseq.
  - split.
    + intros c. rewrite (gameSequence_head (g :: gs) text) by done.
      intros [= <-]. apply isWhiteSpace_lbracket.
    + intros c. destruct (gameSequence_last (g :: gs) text) as (c' & -> & Hc'); [done..|].
      by intros [= <-].
Qed.

Lemma splitPgn_records pieces gs :
  Forall2 (λ piece g, ∃ pre, piece = g ++ pre ∧ whiteSpaceOnly pre) pieces gs →
  Forall gameRecord gs →
  omap (λ gameStr,
          let trimmed := trim gameStr in
          if decide (length trimmed = 0) then None
          else Some {| Game.pgn := trimmed; Game.metadata := parseHeaders trimmed |})
       (filter (λ g, 0 < length (trim g)) pieces)
  = parsedGame <$> gs.
Proof.
  induction 1 as [|piece g pieces gs (pre & -> & Hpre) _ IH]; [done|].
  intros [Hg Hgs]%Forall_cons.
  pose proof (gameRecord_nonempty g Hg) as Hlen.
  rewrite filter_cons_True by by rewrite gameRecord_trim.
  simpl. rewrite gameRecord_trim by done.
  rewrite decide_False by lia. f_equal. by apply IH.
Qed.

Lemma splitPgn_sequence gs text lead trail :
  gameSequence gs text → whiteSpaceOnly lead → whiteSpaceOnly trail →
  splitPgn (lead ++ text ++ trail) = parsedGame <$> gs.
Proof.
  intros Hseq Hlead Htrail. unfold splitPgn.
  rewrite (gameSequence_trim gs) by done.
  destruct gs as [|g gs].
  - by inversion Hseq.
  - apply splitPgn_records; [|by eapply gameSequence_records].
    unfold splitAtBoundaries. apply splitLoop_games; [done|done|lia].
Qed.

End parser.

Section headers.
Import Js JsFacts.

Lemma stripPrefixCI_spec name s rest :
  stripPrefixCI name s = Some rest ↔ ∃ tag, s = tag ++ rest ∧ sameTag tag name.
Proof.
  unfold sameTag. revert s. induction name as [|p name IH]; intros s; simpl.
  - split.
    + intros [= ->]. exists []. split; [done|constructor].
    + intros (tag & -> & Htag). by inversion Htag.
  - destruct s as [|c s].
    + split; [done|]. intros (tag & Hs & Htag). inversion Htag; by subst.
    + case_decide as Hc.
      * rewrite IH. split.
        -- intros (tag & -> & Htag). exists (c :: tag). split; [done|by constructor].
        -- intros (tag & Hs & Htag). inversion Htag as [|c' ? tag' ? _ Htag']; subst.
           injection Hs as -> ->. by exists tag'.
      * split; [done|]. intros (tag & Hs & Htag).
        inversion Htag as [|c' ? tag' ? Hc' _]; subst. injection Hs as -> _. done.
Qed.

Lemma not_quote_Forall value :
  quote ∉ value ↔ Forall (λ c, negb (bool_decide (c = quote)) = true) value.
Proof.
  rewrite Forall_forall. split.
  - intros Hq c Hc. apply negb_true_iff, bool_decide_eq_false. by intros ->.
  - intros Hq Hin. specialize (Hq _ Hin). by rewrite bool_decide_eq_true_2 in Hq.
Qed.

(** One attempt of the header pattern succeeds with [value] exactly when
    the text starts with the header [name] and the quoted [value]. *)
Lemma matchHeaderAt_spec name s value :
  matchHeaderAt name s = Some value ↔ headerAt name value s.
Proof.
  unfold matchHeaderAt, headerAt. split.
  - destruct s as [|c s1]; [done|]. case_decide as Hc; [subst c|done].
    destruct (stripPrefixCI name s1) as [s2|] eqn:Hstrip; [|done].
    apply stripPrefixCI_spec in Hstrip as (tag & -> & Htag).
    destruct (span isWhiteSpace s2) as [ws s3] eqn:Hws.
    apply span_spec in Hws as (-> & Hws & _).
    destruct ws as [|w ws]; [done|]. destruct s3 as [|q s4]; [done|].
    case_decide as Hq; [subst q|done].
    destruct (span _ s4) as [v s5] eqn:Hv.
    apply span_spec in Hv as (-> & Hv & _).
    destruct s5 as [|q' [|b s6]]; [done|done|].
    case_decide as Hqb; [|done]. destruct Hqb as [-> ->]. intros [= <-].
    exists tag, (w :: ws), s6. split_and!; [done|done|done|done|].
    by apply not_quote_Forall.
  - intros (tag & ws & rest & -> & Htag & Hne & Hws & Hq).
    rewrite decide_True by done.
    assert (stripPrefixCI name (tag ++ ws ++ quote :: value ++ quote :: rbracket :: rest)
            = Some (ws ++ quote :: value ++ quote :: rbracket :: rest)) as ->.
    { apply stripPrefixCI_spec. by exists tag. }
    rewrite (span_app isWhiteSpace ws) by (done || (simpl; by intros ? [= <-])).
    destruct ws as [|w ws]; [done|]. rewrite decide_True by done.
    rewrite (span_app _ value)
      by (by apply not_quote_Forall || (simpl; by intros ? [= <-])).
    by rewrite decide_True.
Qed.

Lemma getHeader_unfold name pgn :
  getHeader name pgn =
  match matchHeaderAt name pgn with
  | Some value => Some value
  | None => match pgn with [] => None | _ :: rest => getHeader name rest end
  end.
Proof. by destruct pgn. Qed.

(** The header search returns the value at the first place where the
    header stands. *)
Lemma getHeader_Some name pgn value :
  getHeader name pgn = Some value ↔ located name pgn value.
Proof.
  unfold located. induction pgn as [|c pgn IH]; rewrite getHeader_unfold.
  - destruct (matchHeaderAt name []) as [v|] eqn:Hm.
    { apply matchHeaderAt_spec in Hm as (? & ? & ? & ? & _). done. }
    split; [done|]. intros (pre & s & Heq & (? & ? & ? & -> & _) & _).
    symmetry in Heq. by apply app_eq_nil in Heq as [_ ?].
  - destruct (matchHeaderAt name (c :: pgn)) as [v|] eqn:Hm.
    + split.
      * intros [= ->]. exists [], (c :: pgn). split_and!; [done| |].
        -- by apply matchHeaderAt_spec.
        -- simpl. lia.
      * intros (pre & s & Heq & Hat & Hfirst). destruct pre as [|c' pre].
        -- simpl in Heq. subst s. apply matchHeaderAt_spec in Hat. congruence.
        -- exfalso. apply (Hfirst [] (c :: pgn) v); [done|simpl; lia|].
           by apply matchHeaderAt_spec.
    + rewrite IH. split.
      * intros (pre & s & -> & Hat & Hfirst). exists (c :: pre), s.
        split_and!; [done|done|].
        intros pre' s' v' Heq Hlen Hat'. destruct pre' as [|c' pre'].
        -- simpl in Heq. subst s'. apply matchHeaderAt_spec in Hat'. congruence.
        -- injection Heq as -> Heq. apply (Hfirst pre' s' v'); [done|simpl in Hlen; lia|done].
      * intros (pre & s & Heq & Hat & Hfirst). destruct pre as [|c' pre].
        -- simpl in Heq. subst s. apply matchHeaderAt_spec in Hat. congruence.
        -- injection Heq as -> Heq. exists pre, s. split_and!; [done|done|].
           intros pre' s' v' Heq' Hlen Hat'.
           apply (Hfirst (c' :: pre') s' v'); [by rewrite Heq'|simpl; lia|done].
Qed.

Lemma getHeader_None name pgn : getHeader name pgn = None ↔ missing name pgn.
Proof.
  unfold missing. induction pgn as [|c pgn IH]; rewrite getHeader_unfold.
  - destruct (matchHeaderAt name []) as [v|] eqn:Hm.
    { apply matchHeaderAt_spec in Hm as (? & ? & ? & ? & _). done. }
    split; [|done]. intros _ pre s v Heq (? & ? & ? & -> & _).
    symmetry in Heq. by apply app_eq_nil in Heq as [_ ?].
  - destruct (matchHeaderAt name (c :: pgn)) as [v|] eqn:Hm.
    + split; [done|]. intros Hmiss. exfalso.
      apply (Hmiss [] (c :: pgn) v); [done|]. by apply matchHeaderAt_spec.
    + rewrite IH. split.
      * intros Hmiss pre s v Heq Hat. destruct pre as [|c' pre].
        -- simpl in Heq. subst s. apply matchHeaderAt_spec in Hat. congruence.
        -- injection Heq as -> Heq. by apply (Hmiss pre s v).
      * intros Hmiss pre s v Heq Hat.
        apply (Hmiss (c :: pre) s v); [by rewrite Heq|done].
Qed.

Lemma located_unique name pgn v v' : located name pgn v → located name pgn v' → v = v'.
Proof. rewrite <-!getHeader_Some. congruence. Qed.

Lemma orElse_None d : orElse None d = d.
Proof. done. Qed.

Lemma orElse_Some v d : v ≠ [] → orElse (Some v) d = v.
Proof. by destruct v. Qed.

End headers.

Section boundaries.
Import Js JsFacts.

Lemma hasBoundary_suffix g :
  hasBoundary g ↔ ∃ p s, g = p ++ s ∧ is_Some (matchBoundary s).
Proof.
  split.
  - intros (pre & sep & post & -> & Hsep). exists pre, (sep ++ lbracket :: post).
    split; [done|]. exists (lbracket :: post). apply matchBoundary_Some. by exists sep.
  - intros (p & s & -> & rest & (sep & Hsep & -> & Hhead)%matchBoundary_Some).
    apply head_Some in Hhead as [post ->]. by exists p, sep, post.
Qed.

Lemma hasBoundaryb_spec g : hasBoundaryb g = true ↔ hasBoundary g.
Proof.
  rewrite hasBoundary_suffix. induction g as [|c g IH].
  - split; [done|]. intros (p & s & Heq & Hm). symmetry in Heq.
    apply app_eq_nil in Heq as [_ ->]. by destruct Hm.
  - change (hasBoundaryb (c :: g))
      with (bool_decide (is_Some (matchBoundary (c :: g))) || hasBoundaryb g).
    rewrite orb_true_iff, bool_decide_eq_true, IH. split.
    + intros [Hm|(p & s & -> & Hm)]; [by exists [], (c :: g)|by exists (c :: p), s].
    + intros (p & s & Heq & Hm). destruct p as [|c' p].
      * left. simpl in Heq. by subst s.
      * right. injection Heq as -> ->. by exists p, s.
Qed.

Lemma gameRecord_intro g c :
  head g = Some lbracket → last g = Some c → isWhiteSpace c = false →
  hasBoundaryb g = false → gameRecord g.
Proof.
  intros Hh Hl Hc Hb. split_and!; [done|by exists c|].
  rewrite <-hasBoundaryb_spec. by rewrite Hb.
Qed.

End boundaries.

(** C6.  A text made of the header-led game records [gs], each separated
    from the next by a blank-line boundary that the bracket of the next
    header block follows (line feeds, or CRLF line ends; white space may
    surround the whole text): the split yields exactly these records as
    game texts, as many and in the same order, none of them empty; a text
    with no record yields no game. *)
Theorem splitPgn_wellformed gs text lead trail :
  gameSequence gs text → whiteSpaceOnly lead → whiteSpaceOnly trail →
  let games := splitPgn (lead ++ text ++ trail) in
  length games = length gs ∧
  Game.pgn <$> games = gs ∧
  Forall (λ game, 0 < length (Game.pgn game)) games ∧
  games = parsedGame <$> gs.
Proof.
  intros Hseq Hlead Htrail games. unfold games.
  rewrite (splitPgn_sequence gs text lead trail) by done.
  split_and!; [by rewrite length_fmap| |  |done].
  - rewrite <-list_fmap_compose. apply list_fmap_id.
  - rewrite Forall_fmap. eapply Forall_impl; [by eapply gameSequence_records|].
    intros g Hg. by apply gameRecord_nonempty.
Qed.

Lemma splitPgn_wellformed_witness :
  let games := splitPgn ([LF] ++ Sample.file1 ++ []) in
  length games = 2 ∧
  Game.pgn <$> games = [Sample.game1; Sample.game2] ∧
  Forall (λ game, 0 < length (Game.pgn game)) games ∧
  games = parsedGame <$> [Sample.game1; Sample.game2].
Proof.
  apply (splitPgn_wellformed [Sample.game1; Sample.game2]
           (Sample.game1 ++ [CR; LF; CR; LF] ++ Sample.game2) [LF] [LF]).
  - apply gameSequence_cons.
    + by apply (gameRecord_intro _ "0"%char).
    + exists [CR], [LF; CR; LF]. split_and!; [done|by repeat constructor| |].
      * by intros [=]%list_elem_of_singleton.
      * exists [CR]. split; [done|]. by repeat constructor.
    + done.
    + apply gameSequence_one. by apply (gameRecord_intro _ "*"%char).
  - by repeat constructor.
  - by repeat constructor.
Defined.

(** C7.  Header extraction finds each field by its tag, read without
    regard to case, followed by white space and a quoted value, at the
    first place where such a header stands.  A missing white, black or
    result header gives the sentinel of the field (the name Unknown for a
    participant, the asterisk for the outcome) and never a failure; event,
    date, opening code and opening name are absent when their header is
    missing and carry its value otherwise. *)
Theorem parseHeaders_spec pgn :
  (∀ name, missing name pgn ∨ ∃ value, located name pgn value) ∧
  requiredField "White" pgn "Unknown" (Metadata.white (parseHeaders pgn)) ∧
  requiredField "Black" pgn "Unknown" (Metadata.black (parseHeaders pgn)) ∧
  requiredField "Result" pgn "*" (Metadata.result (parseHeaders pgn)) ∧
  optionalField "Event" pgn (Metadata.event (parseHeaders pgn)) ∧
  optionalField "Date" pgn (Metadata.date (parseHeaders pgn)) ∧
  optionalField "ECO" pgn (Metadata.eco (parseHeaders pgn)) ∧
  optionalField "Opening" pgn (Metadata.opening (parseHeaders pgn)).
Proof.
  assert (∀ name sentinel,
            requiredField name pgn sentinel (orElse (getHeader name pgn) sentinel))
    as Hreq.
  { intros name sentinel. split.
    - intros Hmiss%getHeader_None. by rewrite Hmiss.
    - intros value Hloc%getHeader_Some. rewrite Hloc. by destruct value. }
  assert (∀ name, optionalField name pgn (getHeader name pgn)) as Hopt.
  { intros name. split.
    - by intros Hmiss%getHeader_None.
    - by intros value Hloc%getHeader_Some. }
  split_and!; try done.
  intros name. destruct (getHeader name pgn) as [value|] eqn:Hget.
  - right. exists value. by apply getHeader_Some.
  - left. by apply getHeader_None.
Qed.

Lemma parseHeaders_spec_witness :
  Metadata.white (parseHeaders Sample.game2) = "Cy" ∧
  Metadata.result (parseHeaders Sample.game2) = "*" ∧
  Metadata.event (parseHeaders Sample.game2) = None.
Proof.
  destruct (parseHeaders_spec Sample.game2)
    as (_ & [_ Hwhite] & _ & [Hresult _] & [Hevent _] & _).
  split; [|split].
  - apply (Hwhite "Cy"), getHeader_Some. vm_compute. reflexivity.
  - apply Hresult, getHeader_None. vm_compute. reflexivity.
  - apply Hevent, getHeader_None. vm_compute. reflexivity.
Defined.

(** ** Bulk submission orchestrator *)

(** No game that the split yields has an empty text. *)
Lemma splitPgn_pgn_nonempty pgnContent :
  Forall (λ game, Game.pgn game ≠ []) (splitPgn pgnContent).
Proof.
  apply Forall_forall. intros game Hin. unfold splitPgn in Hin.
  apply list_elem_of_omap in Hin as (gameStr & _ & Hgame).
  case_decide as Hlen; [done|]. injection Hgame as <-. simpl.
  by destruct (Js.trim gameStr).
Qed.

Section orchestrator.
Context (w : World) (userId playerName batchId : jsstring).

Lemma forGames_skip url game games ids sk :
  determinePlayerColor (Game.metadata game) playerName = None →
  forGames w url userId playerName batchId (game :: games) ids sk
  = forGames w url userId playerName batchId games ids (sk ++ [skipEntry game playerName]).
Proof. intros H. simpl. by rewrite H. Qed.

(** The paths that validation rejects in a new document: the game text
    and the subject name, when empty. *)
Lemma newAnalysis_rejectedPaths analysisId url playerColor game :
  Schema.rejectedPaths
    (newAnalysis w ("ana_" ++ analysisId) userId batchId url playerName playerColor game)
  = Schema.required "pgn" (Game.pgn game) ++ Schema.required "player_name" playerName.
Proof. done. Qed.

Lemma newAnalysis_accepted analysisId url playerColor game :
  Game.pgn game ≠ [] → playerName ≠ [] →
  Schema.rejectedPaths
    (newAnalysis w ("ana_" ++ analysisId) userId batchId url playerName playerColor game)
  = [].
Proof.
  intros Hpgn Hname. rewrite newAnalysis_rejectedPaths.
  destruct (Game.pgn game); [done|]. by destruct playerName.
Qed.

Lemma newAnalysis_rejected analysisId url playerColor game :
  Schema.rejectedPaths
    (newAnalysis w ("ana_" ++ analysisId) userId batchId url playerName playerColor game)
  ≠ [] →
  Game.pgn game = [] ∨ playerName = [].
Proof.
  rewrite newAnalysis_rejectedPaths.
  destruct (Game.pgn game); [by left|]. destruct playerName; [by right|done].
Qed.

(** One pass of the loop body for a game whose side is resolved. *)
Lemma forGames_create url game games ids sk playerColor st :
  determinePlayerColor (Game.metadata game) playerName = Some playerColor →
  let analysisId := "ana_" ++ uuidv4 w (drawn st) in
  let doc := newAnalysis w analysisId userId batchId url playerName playerColor game in
  forGames w url userId playerName batchId (game :: games) ids sk st
  = match Schema.rejectedPaths doc with
    | [] =>
        match enqueue w analysisId with
        | Returned _ =>
            forGames w url userId playerName batchId games (ids ++ [analysisId]) sk
              (afterJobs st [doc])
        | Threw e =>
            (Threw e,
             {| db := db st ++ [doc]; drawn := S (drawn st); queue := queue st;
                writes := writes st ++ [(length (db st), doc)] |})
        end
    | path :: paths => (Threw (validationError (mapper w) (path :: paths)), afterDraw st)
    end.
Proof.
  intros H analysisId doc. subst analysisId doc.
  change (forGames w url userId playerName batchId (game :: games) ids sk st)
    with (match determinePlayerColor (Game.metadata game) playerName with
          | None =>
              forGames w url userId playerName batchId games
                ids (sk ++ [skipEntry game playerName])
          | Some playerColor =>
              u ← nextUuid w;
              let analysisId := "ana_" ++ u in
              Analysis_create w
                (newAnalysis w analysisId userId batchId url playerName playerColor game);;
              queue_enqueue w analysisId;;
              forGames w url userId playerName batchId games
                (ids ++ [analysisId]) sk
          end st).
  rewrite H. unfold mbind, M_bind, nextUuid, Analysis_create, queue_enqueue.
  cbv beta iota zeta.
  destruct (Schema.rejectedPaths _) as [|path paths]; [|done].
  destruct (enqueue w _) as [[]|e]; [|done].
  unfold afterJobs. cbn [db drawn queue writes length fmap list_fmap keyed].
  by replace (drawn st + 1) with (S (drawn st)) by lia.
Qed.

Lemma keyed_app n l1 l2 : keyed n (l1 ++ l2) = keyed n l1 ++ keyed (n + length l1) l2.
Proof.
  revert n. induction l1 as [|a l1 IH]; intros n; simpl.
  - by rewrite Nat.add_0_r.
  - rewrite IH. by replace (S n + length l1) with (n + S (length l1)) by lia.
Qed.

Lemma keyed_snd n l : (snd <$> keyed n l) = l.
Proof. revert n. induction l as [|a l IH]; intros n; simpl; [done|]. by rewrite IH. Qed.

Lemma afterJobs_nil st : afterJobs st [] = st.
Proof.
  destruct st. unfold afterJobs. simpl.
  by rewrite !app_nil_r, Nat.add_0_r.
Qed.

Lemma afterJobs_app st l1 l2 : afterJobs (afterJobs st l1) l2 = afterJobs st (l1 ++ l2).
Proof.
  unfold afterJobs. simpl.
  rewrite keyed_app, fmap_app, !length_app, <-!(assoc_L (++)).
  f_equal. lia.
Qed.

Lemma createdJobs_app n l1 l2 :
  createdJobs w userId playerName batchId n (l1 ++ l2)
  = createdJobs w userId playerName batchId n l1
    ++ createdJobs w userId playerName batchId
         (n + length (createdJobs w userId playerName batchId n l1)) l2.
Proof.
  revert n. induction l1 as [|[url game] l1 IH]; intros n; simpl.
  - by rewrite Nat.add_0_r.
  - destruct (determinePlayerColor _ _); [|done].
    simpl. rewrite IH. do 3 f_equal. lia.
Qed.

Lemma createdJobs_length n games :
  length (createdJobs w userId playerName batchId n games)
  = length (filter (resolvable playerName) games).
Proof.
  revert n. induction games as [|[url game] games IH]; intros n; [done|].
  simpl. destruct (determinePlayerColor _ _) as [c|] eqn:Hc.
  - rewrite filter_cons_True by (unfold resolvable; simpl; by rewrite Hc).
    simpl. by rewrite IH.
  - rewrite filter_cons_False by (unfold resolvable; simpl; rewrite Hc; by intros []).
    done.
Qed.

Lemma createdJobs_submitted n games :
  Forall (submittedJob playerName) (createdJobs w userId playerName batchId n games).
Proof.
  revert n. induction games as [|[url game] games IH]; intros n; simpl; [constructor|].
  destruct (determinePlayerColor _ _) as [c|] eqn:Hc; [|done].
  constructor; [|done]. by repeat eexists.
Qed.

Lemma skippedEntries_app l1 l2 :
  skippedEntries playerName (l1 ++ l2)
  = skippedEntries playerName l1 ++ skippedEntries playerName l2.
Proof. unfold skippedEntries. by rewrite filter_app, fmap_app. Qed.

Lemma filter_complement_length (games : list (jsstring * ParsedGame)) :
  length (filter (resolvable playerName) games)
  + length (filter (λ g, ¬ resolvable playerName g) games) = length games.
Proof.
  induction games as [|g games IH]; [done|].
  destruct (decide (resolvable playerName g)) as [Hg|Hg].
  - rewrite filter_cons_True, filter_cons_False by tauto. simpl. lia.
  - rewrite filter_cons_False, filter_cons_True by tauto. simpl. lia.
Qed.

(** When the inner loop returns, it has created and dispatched one job
    per game with a resolved side, and pushed one skip entry per other
    game. *)
Lemma forGames_returned url games ids sk st ids' sk' st' :
  forGames w url userId playerName batchId games ids sk st = (Returned (ids', sk'), st') →
  let jobs := createdJobs w userId playerName batchId (drawn st)
                ((λ game, (url, game)) <$> games) in
  st' = afterJobs st jobs ∧
  ids' = ids ++ (Job.analysis_id <$> jobs) ∧
  sk' = sk ++ skippedEntries playerName ((λ game, (url, game)) <$> games).
Proof.
  revert ids sk st. induction games as [|game games IH]; intros ids sk st.
  - intros [= <- <- <-]. simpl. by rewrite afterJobs_nil, !app_nil_r.
  - destruct (determinePlayerColor (Game.metadata game) playerName) as [c|] eqn:Hc.
    + rewrite (forGames_create _ _ _ _ _ c) by done.
      destruct (Schema.rejectedPaths _) as [|path paths]; [|done].
      destruct (enqueue w _) as [[]|e]; [|done].
      intros (-> & -> & ->)%IH. simpl. rewrite Hc. simpl.
      replace (drawn st + 1) with (S (drawn st)) by lia.
      rewrite afterJobs_app, <-!(assoc_L (++)). split_and!; [done|done|].
      unfold skippedEntries.
      rewrite filter_cons_False; [done|].
      unfold resolvable. simpl. rewrite Hc. by intros [].
    + rewrite forGames_skip by done.
      intros (-> & -> & ->)%IH. simpl. rewrite Hc.
      split_and!; [done|done|]. rewrite <-(assoc_L (++)). f_equal.
      unfold skippedEntries.
      rewrite filter_cons_True; [done|].
      unfold resolvable. simpl. rewrite Hc. by intros [? ?].
Qed.

(** The inner loop returns when the subject name is not empty, no game
    text is empty and every dispatch is acknowledged. *)
Lemma forGames_progress url games ids sk st :
  playerName ≠ [] → Forall (λ game, Game.pgn game ≠ []) games →
  (∀ analysisId, enqueue w analysisId = Returned ()) →
  ∃ r st', forGames w url userId playerName batchId games ids sk st = (Returned r, st').
Proof.
  intros Hname Hpgn Hq. revert ids sk st.
  induction Hpgn as [|game games Hgame Hgames IH]; intros ids sk st.
  - by eexists _, _.
  - destruct (determinePlayerColor (Game.metadata game) playerName) as [c|] eqn:Hc.
    + rewrite (forGames_create _ _ _ _ _ c) by done.
      rewrite newAnalysis_accepted by done. rewrite Hq. apply IH.
    + rewrite forGames_skip by done. apply IH.
Qed.

(** Whatever its outcome, the inner loop only appends to the collection
    and to the log, and what it appends are jobs as a submission creates
    them. *)
Lemma forGames_effect url games ids sk st c st' :
  forGames w url userId playerName batchId games ids sk st = (c, st') →
  ∃ new, db st' = db st ++ new ∧
         writes st' = writes st ++ keyed (length (db st)) new ∧
         Forall (submittedJob playerName) new.
Proof.
  revert ids sk st. induction games as [|game games IH]; intros ids sk st.
  - intros [= <- <-]. exists []. by rewrite !app_nil_r.
  - destruct (determinePlayerColor (Game.metadata game) playerName) as [pc|] eqn:Hc.
    + rewrite (forGames_create _ _ _ _ _ pc) by done.
      set (doc := newAnalysis _ _ _ _ _ _ _ _).
      assert (submittedJob playerName doc) as Hdoc by by repeat eexists.
      destruct (Schema.rejectedPaths doc) as [|path paths];
        [|intros [= <- <-]; exists []; by rewrite !app_nil_r].
      destruct (enqueue w _) as [[]|e].
      * intros (new & Hdb & Hwr & Hnew)%IH. exists (doc :: new).
        rewrite Hdb, Hwr. simpl. rewrite length_app, <-!(assoc_L (++)). simpl.
        split_and!; [done| |by constructor].
        by replace (length (db st) + 1) with (S (length (db st))) by lia.
      * intros [= <- <-]. exists [doc]. simpl. split_and!; [done|done|by constructor].
    + rewrite forGames_skip by done. apply IH.
Qed.

End orchestrator.

Section submission.
Context (w : World) (userId playerName : jsstring).

Lemma forUrls_cons batchId url urls ids sk st :
  forUrls w userId playerName batchId (url :: urls) ids sk st
  = match downloadFile w url with
    | Returned pgnContent =>
        match forGames w url userId playerName batchId (splitPgn pgnContent) ids sk st with
        | (Returned (ids', sk'), st') => forUrls w userId playerName batchId urls ids' sk' st'
        | (Threw e, st') => (Threw e, st')
        end
    | Threw e => (Threw e, st)
    end.
Proof.
  simpl. unfold mbind, M_bind, await.
  destruct (downloadFile w url) as [pgnContent|e]; [|done].
  by destruct (forGames _ _ _ _ _ _ _ _ _) as [[[ids' sk']|e] st'].
Qed.

Lemma parsedGames_cons url urls :
  parsedGames w (url :: urls)
  = match downloadFile w url with
    | Returned pgnContent => (λ game, (url, game)) <$> splitPgn pgnContent
    | Threw _ => []
    end ++ parsedGames w urls.
Proof. done. Qed.

Lemma parsedGames_app urls1 urls2 :
  parsedGames w (urls1 ++ urls2) = parsedGames w urls1 ++ parsedGames w urls2.
Proof. unfold parsedGames. apply flat_map_app. Qed.

(** The outer loop over a list of files in two parts. *)
Lemma forUrls_app batchId pre post ids sk st :
  forUrls w userId playerName batchId (pre ++ post) ids sk st
  = match forUrls w userId playerName batchId pre ids sk st with
    | (Returned (ids', sk'), st') => forUrls w userId playerName batchId post ids' sk' st'
    | (Threw e, st') => (Threw e, st')
    end.
Proof.
  revert ids sk st. induction pre as [|url pre IH]; intros ids sk st; [done|].
  rewrite <-app_comm_cons, !forUrls_cons.
  destruct (downloadFile w url) as [pgnContent|e]; [|done].
  destruct (forGames _ _ _ _ _ _ _ _ _) as [[[ids' sk']|e] st']; [|done].
  apply IH.
Qed.

Lemma forUrls_returned batchId urls ids sk st ids' sk' st' :
  forUrls w userId playerName batchId urls ids sk st = (Returned (ids', sk'), st') →
  let jobs := createdJobs w userId playerName batchId (drawn st) (parsedGames w urls) in
  (∀ url, url ∈ urls → ∃ pgnContent, downloadFile w url = Returned pgnContent) ∧
  st' = afterJobs st jobs ∧
  ids' = ids ++ (Job.analysis_id <$> jobs) ∧
  sk' = sk ++ skippedEntries playerName (parsedGames w urls).
Proof.
  revert ids sk st. induction urls as [|url urls IH]; intros ids sk st.
  - intros [= <- <- <-]. simpl. rewrite afterJobs_nil, !app_nil_r.
    split_and!; [|done..]. by intros url ?%elem_of_nil.
  - rewrite forUrls_cons, parsedGames_cons.
    destruct (downloadFile w url) as [pgnContent|e] eqn:Hd; [|done].
    destruct (forGames _ _ _ _ _ _ _ _ _) as [[[ids1 sk1]|e] st1] eqn:Hg; [|done].
    apply forGames_returned in Hg as (-> & -> & ->).
    intros (Hurls & -> & -> & ->)%IH. cbv zeta.
    rewrite createdJobs_app, skippedEntries_app, afterJobs_app, fmap_app.
    rewrite <-!(assoc_L (++)). split_and!; [|done..].
    intros url' [->|Hin]%elem_of_cons; [by eexists|by apply Hurls].
Qed.

Lemma forUrls_progress batchId urls ids sk st :
  playerName ≠ [] →
  (∀ url, url ∈ urls → ∃ pgnContent, downloadFile w url = Returned pgnContent) →
  (∀ analysisId, enqueue w analysisId = Returned ()) →
  ∃ r st', forUrls w userId playerName batchId urls ids sk st = (Returned r, st').
Proof.
  intros Hname Hd Hq. revert ids sk st.
  induction urls as [|url urls IH]; intros ids sk st.
  - by eexists _, _.
  - rewrite forUrls_cons.
    destruct (Hd url) as [pgnContent ->]; [by left|].
    destruct (forGames_progress w userId playerName batchId url
                (splitPgn pgnContent) ids sk st Hname (splitPgn_pgn_nonempty pgnContent) Hq)
      as ([ids' sk'] & st' & ->).
    apply IH. intros url' Hin. apply Hd. by right.
Qed.

Lemma forUrls_effect batchId urls ids sk st c st' :
  forUrls w userId playerName batchId urls ids sk st = (c, st') →
  ∃ new, db st' = db st ++ new ∧
         writes st' = writes st ++ keyed (length (db st)) new ∧
         Forall (submittedJob playerName) new.
Proof.
  revert ids sk st. induction urls as [|url urls IH]; intros ids sk st.
  - intros [= <- <-]. exists []. by rewrite !app_nil_r.
  - rewrite forUrls_cons.
    destruct (downloadFile w url) as [pgnContent|e].
    + destruct (forGames _ _ _ _ _ _ _ _ _) as [[[ids1 sk1]|e] st1] eqn:Hg.
      * apply forGames_effect in Hg as (new1 & Hdb1 & Hwr1 & Hnew1).
        intros (new2 & Hdb2 & Hwr2 & Hnew2)%IH. exists (new1 ++ new2).
        rewrite Hdb2, Hwr2, Hdb1, Hwr1, keyed_app, length_app, <-!(assoc_L (++)).
        split_and!; [done|done|by apply Forall_app].
      * apply forGames_effect in Hg. by intros [= <- <-].
    + intros [= <- <-]. exists []. by rewrite !app_nil_r.
Qed.

(** The orchestrator: one identifier for the batch, then the loop. *)
Lemma processBulkAnalysis_unfold urls st :
  processBulkAnalysis w urls userId playerName st
  = match forUrls w userId playerName ("batch_" ++ uuidv4 w (drawn st)) urls [] []
            (afterDraw st) with
    | (Returned (analysisIds, skippedGames), st') =>
        (Returned
           {| batch_id := "batch_" ++ uuidv4 w (drawn st);
              analysis_ids := analysisIds;
              total_games := length analysisIds;
              skipped_games :=
                if decide (0 < length skippedGames) then Some skippedGames else None |},
         st')
    | (Threw e, st') => (Threw e, st')
    end.
Proof.
  unfold processBulkAnalysis, mbind, M_bind, nextUuid. cbv beta iota zeta.
  fold (afterDraw st).
  by destruct (forUrls _ _ _ _ _ _ _ _) as [[[ids sk]|e] st'].
Qed.

Lemma skipEntries_response batchId ids n (sk : list Skipped.t) :
  skipEntries
    {| batch_id := batchId; analysis_ids := ids; total_games := n;
       skipped_games := if decide (0 < length sk) then Some sk else None |} = sk.
Proof.
  unfold skipEntries. simpl. case_decide as Hlen; [done|].
  destruct sk; [done|simpl in Hlen; lia].
Qed.

(** What a submission that returns has done and answers. *)
Lemma processBulkAnalysis_returned urls st r st' :
  processBulkAnalysis w urls userId playerName st = (Returned r, st') →
  let batchId := "batch_" ++ uuidv4 w (drawn st) in
  let games := parsedGames w urls in
  let jobs := createdJobs w userId playerName batchId (S (drawn st)) games in
  (∀ url, url ∈ urls → ∃ pgnContent, downloadFile w url = Returned pgnContent) ∧
  st' = afterJobs (afterDraw st) jobs ∧
  batch_id r = batchId ∧
  analysis_ids r = (Job.analysis_id <$> jobs) ∧
  total_games r = length jobs ∧
  skipEntries r = skippedEntries playerName games ∧
  (skippedEntries playerName games = [] → skipped_games r = None).
Proof.
  rewrite processBulkAnalysis_unfold.
  destruct (forUrls _ _ _ _ _ _ _ _) as [[[ids sk]|e] st1] eqn:Hf; [|done].
  intros [= <- <-]. apply forUrls_returned in Hf as (Hurls & -> & -> & ->).
  rewrite skipEntries_response. simpl. rewrite length_fmap.
  split_and!; try done. by intros ->.
Qed.

Lemma processBulkAnalysis_progress urls st :
  playerName ≠ [] →
  (∀ url, url ∈ urls → ∃ pgnContent, downloadFile w url = Returned pgnContent) →
  (∀ analysisId, enqueue w analysisId = Returned ()) →
  ∃ r st', processBulkAnalysis w urls userId playerName st = (Returned r, st').
Proof.
  intros Hname Hd Hq. rewrite processBulkAnalysis_unfold.
  destruct (forUrls_progress ("batch_" ++ uuidv4 w (drawn st)) urls [] []
              (afterDraw st) Hname Hd Hq) as ([ids sk] & st' & ->).
  by eexists _, _.
Qed.

(** Whatever its outcome, a submission only appends pending jobs. *)
Lemma processBulkAnalysis_effect urls st c st' :
  processBulkAnalysis w urls userId playerName st = (c, st') →
  ∃ new, db st' = db st ++ new ∧
         writes st' = writes st ++ keyed (length (db st)) new ∧
         Forall (submittedJob playerName) new.
Proof.
  rewrite processBulkAnalysis_unfold.
  destruct (forUrls _ _ _ _ _ _ _ _) as [[[ids sk]|e] st1] eqn:Hf;
    intros [= <- <-]; by apply forUrls_effect in Hf.
Qed.

End submission.

Lemma createdJobs_source w userId playerName batchId n games :
  Forall (λ a, ∃ url game, (url, game) ∈ games ∧
                Job.gcs_url a = Some url ∧ Job.pgn a = Game.pgn game ∧
                Job.status a = PENDING)
         (createdJobs w userId playerName batchId n games).
Proof.
  revert n. induction games as [|[url game] games IH]; intros n; simpl; [constructor|].
  assert (∀ m, Forall (λ a, ∃ url' game', (url', game') ∈ (url, game) :: games ∧
                        Job.gcs_url a = Some url' ∧ Job.pgn a = Game.pgn game' ∧
                        Job.status a = PENDING)
                 (createdJobs w userId playerName batchId m games)) as Htail.
  { intros m. eapply Forall_impl; [apply IH|]. intros a (url' & game' & Hin & Ha).
    exists url', game'. split; [by right|done]. }
  destruct (determinePlayerColor _ _) as [c|]; [|done].
  constructor; [|done]. exists url, game. split; [by left|done].
Qed.

Lemma parsedGames_url w urls url game : (url, game) ∈ parsedGames w urls → url ∈ urls.
Proof.
  induction urls as [|url' urls IH]; [by intros ?%elem_of_nil|].
  rewrite parsedGames_cons. intros [Hin|Hin]%elem_of_app.
  - destruct (downloadFile w url'); [|by apply elem_of_nil in Hin].
    apply list_elem_of_fmap in Hin as (game' & [= -> ->] & _). by left.
  - right. by apply IH.
Qed.

Lemma elem_of_sample_urls (P : jsstring → Prop) :
  P Sample.url1 → P Sample.url2 → ∀ url, url ∈ Sample.urls → P url.
Proof.
  intros H1 H2 url Hin. unfold Sample.urls in Hin.
  apply elem_of_cons in Hin as [->|Hin]; [done|].
  apply elem_of_cons in Hin as [->|Hin]; [done|]. by apply elem_of_nil in Hin.
Qed.

(** C1.  A bulk submission in which every file is retrieved and every
    dispatch is acknowledged returns, and in what it returns the number of
    job identifiers plus the number of skip entries is the number of games
    parsed from all the files: the games where the subject has a side give
    the identifiers, the other games give the skip entries.  The subject
    name is not empty: the schema of the collection rejects a job with an
    empty one, and the request schema lets none through. *)
Theorem processBulkAnalysis_accounts w urls userId playerName st :
  playerName ≠ [] →
  (∀ url, url ∈ urls → ∃ pgnContent, downloadFile w url = Returned pgnContent) →
  (∀ analysisId, enqueue w analysisId = Returned ()) →
  ∃ r st', processBulkAnalysis w urls userId playerName st = (Returned r, st') ∧
    length (analysis_ids r) + length (skipEntries r) = length (parsedGames w urls) ∧
    length (analysis_ids r) = length (filter (resolvable playerName) (parsedGames w urls)) ∧
    skipEntries r = skippedEntries playerName (parsedGames w urls) ∧
    total_games r = length (analysis_ids r).
Proof.
  intros Hname Hd Hq.
  destruct (processBulkAnalysis_progress w userId playerName urls st Hname Hd Hq)
    as (r & st' & Hrun).
  exists r, st'. split; [done|].
  apply processBulkAnalysis_returned in Hrun as (_ & _ & _ & -> & -> & -> & _).
  rewrite length_fmap, createdJobs_length. unfold skippedEntries.
  rewrite length_fmap. split_and!; [|done..].
  apply filter_complement_length.
Qed.

Lemma processBulkAnalysis_accounts_witness :
  ∃ r st',
    processBulkAnalysis (Sample.world "timeout") Sample.urls "guest" "ann" initial
    = (Returned r, st') ∧
    length (analysis_ids r) + length (skipEntries r)
    = length (parsedGames (Sample.world "timeout") Sample.urls) ∧
    length (analysis_ids r)
    = length (filter (resolvable "ann") (parsedGames (Sample.world "timeout") Sample.urls)) ∧
    skipEntries r = skippedEntries "ann" (parsedGames (Sample.world "timeout") Sample.urls) ∧
    total_games r = length (analysis_ids r).
Proof.
  apply (processBulkAnalysis_accounts (Sample.world "timeout") Sample.urls
           "guest" "ann" initial).
  - discriminate.
  - apply elem_of_sample_urls; by eexists.
  - done.
Defined.

(** C8.  When the files [pre] have been processed and the retrieval of
    the next file throws, the submission throws the same error and stops
    in the state reached after [pre]: the jobs of the games of [pre] where
    the subject has a side are in the collection, as created, and nothing
    was created for the failing file or for a later file. *)
Theorem processBulkAnalysis_retrieval_failure
    w pre url post userId playerName st r0 st0 e :
  processBulkAnalysis w pre userId playerName st = (Returned r0, st0) →
  downloadFile w url = Threw e →
  processBulkAnalysis w (pre ++ url :: post) userId playerName st = (Threw e, st0) ∧
  ∃ jobs,
    db st0 = db st ++ jobs ∧
    jobs = createdJobs w userId playerName (batch_id r0) (S (drawn st)) (parsedGames w pre) ∧
    Job.analysis_id <$> jobs = analysis_ids r0 ∧
    Forall (λ a, Job.status a = PENDING ∧ ∃ u, u ∈ pre ∧ Job.gcs_url a = Some u) jobs.
Proof.
  intros Hpre Hurl. split.
  - rewrite processBulkAnalysis_unfold in Hpre |- *. rewrite forUrls_app.
    destruct (forUrls _ _ _ _ pre _ _ _) as [[[ids sk]|e'] st1]; [|done].
    injection Hpre as _ ->. by rewrite forUrls_cons, Hurl.
  - apply processBulkAnalysis_returned in Hpre as (_ & -> & -> & -> & _).
    eexists. split_and!; [done|done|done|].
    eapply Forall_impl; [apply createdJobs_source|].
    intros a (u & game & Hin & Hu & _ & Hst). split; [done|].
    exists u. split; [|done]. by eapply parsedGames_url.
Qed.

Lemma processBulkAnalysis_retrieval_failure_witness :
  processBulkAnalysis (Sample.world "timeout")
    ([Sample.url1] ++ ("gs://bucket/lost.pgn" : jsstring) :: [Sample.url2])
    "guest" "ann" initial
  = (Threw (JsError "No such object"),
     (processBulkAnalysis (Sample.world "timeout") [Sample.url1] "guest" "ann" initial).2)
  ∧ length (db (processBulkAnalysis (Sample.world "timeout") [Sample.url1]
                  "guest" "ann" initial).2) = 2.
Proof.
  destruct (processBulkAnalysis (Sample.world "timeout") [Sample.url1]
              "guest" "ann" initial) as [[r0|e0] st0] eqn:Hpre;
    [|by vm_compute in Hpre].
  destruct (processBulkAnalysis_retrieval_failure (Sample.world "timeout")
              [Sample.url1] "gs://bucket/lost.pgn" [Sample.url2]
              "guest" "ann" initial r0 st0 (JsError "No such object") Hpre eq_refl)
    as (Hrun & jobs & Hdb & Hjobs & _).
  split; [exact Hrun|].
  simpl. rewrite Hdb, Hjobs. vm_compute. reflexivity.
Defined.

Lemma submittedJob_blank playerName a :
  whiteSpaceOnly playerName → submittedJob playerName a →
  Job.player_color a = Some White.
Proof.
  intros Hws (w & analysisId & userId & batchId & url & c & game & -> & Hc).
  rewrite determinePlayerColor_blank in Hc by done. by injection Hc as <-.
Qed.

Lemma resolvable_blank playerName games :
  whiteSpaceOnly playerName →
  filter (resolvable playerName) games = games ∧ skippedEntries playerName games = [].
Proof.
  intros Hws. unfold skippedEntries.
  induction games as [|g games [IH1 IH2]]; [done|].
  assert (resolvable playerName g) as Hg.
  { unfold resolvable. by rewrite determinePlayerColor_blank. }
  rewrite filter_cons_True, filter_cons_False by tauto. by rewrite IH1.
Qed.

(** With the empty subject name the loop stores nothing: the first game
    it meets resolves to white and validation rejects its job. *)
Lemma forGames_empty_name w url userId batchId games ids sk st c st' :
  forGames w url userId [] batchId games ids sk st = (c, st') →
  db st' = db st ∧ (∀ r, c = Returned r → games = []).
Proof.
  destruct games as [|game games].
  - by intros [= <- <-].
  - rewrite (forGames_create w userId [] batchId url game games ids sk White)
      by (apply determinePlayerColor_blank; constructor).
    rewrite newAnalysis_rejectedPaths.
    destruct (Schema.required "pgn" (Game.pgn game) ++ Schema.required "player_name" [])
      as [|path paths] eqn:Hpaths.
    { by apply app_eq_nil in Hpaths as [_ ?]. }
    by intros [= <- <-].
Qed.

Lemma forUrls_empty_name w userId batchId urls ids sk st c st' :
  forUrls w userId [] batchId urls ids sk st = (c, st') →
  db st' = db st ∧ (∀ r, c = Returned r → parsedGames w urls = []).
Proof.
  revert ids sk st. induction urls as [|url urls IH]; intros ids sk st.
  - by intros [= <- <-].
  - rewrite forUrls_cons, parsedGames_cons.
    destruct (downloadFile w url) as [pgnContent|e]; [|by intros [= <- <-]].
    destruct (forGames _ _ _ _ _ _ _ _ _) as [[[ids1 sk1]|e] st1] eqn:Hg;
      apply forGames_empty_name in Hg as [Hdb1 Hnone].
    + intros [Hdb Hret]%IH. split; [congruence|].
      intros r Hr. rewrite (Hnone _ eq_refl). by apply Hret in Hr.
    + by intros [= <- <-].
Qed.

(** With the empty subject name a submission stores nothing, and it
    returns only when no game was parsed. *)
Lemma processBulkAnalysis_empty_name w urls userId st c st' :
  processBulkAnalysis w urls userId [] st = (c, st') →
  db st' = db st ∧ (∀ r, c = Returned r → parsedGames w urls = []).
Proof.
  rewrite processBulkAnalysis_unfold.
  destruct (forUrls _ _ _ _ _ _ _ _) as [[[ids sk]|e] st1] eqn:Hf;
    apply forUrls_empty_name in Hf as [Hdb Hnone]; intros [= <- <-].
  - split; [done|]. intros r _. by eapply Hnone.
  - by split.
Qed.

(** C10, as amended.  A subject name that is empty or made of white
    space only resolves to white against every game.  Hence, in a bulk
    submission with such a name, every job created has the side white,
    whatever the outcome of the call, and a call that returns reports no
    skip entry and has created one job per parsed game.  For a name of
    white space that is not empty the call returns whenever every file is
    retrieved and every dispatch is acknowledged.  For the empty name no
    job is ever created: validation rejects the job of the first game, and
    the call returns only when no game was parsed. *)
Theorem blank_subject_resolves_white playerName :
  whiteSpaceOnly playerName →
  (∀ metadata, determinePlayerColor metadata playerName = Some White) ∧
  (∀ w urls userId st c st',
     processBulkAnalysis w urls userId playerName st = (c, st') →
     ∃ new, db st' = db st ++ new ∧
            Forall (λ a, Job.player_color a = Some White) new ∧
            ∀ r, c = Returned r →
                 skipped_games r = None ∧
                 length (analysis_ids r) = length (parsedGames w urls) ∧
                 length new = length (parsedGames w urls)) ∧
  (playerName ≠ [] →
   ∀ w urls userId st,
     (∀ url, url ∈ urls → ∃ pgnContent, downloadFile w url = Returned pgnContent) →
     (∀ analysisId, enqueue w analysisId = Returned ()) →
     ∃ r st', processBulkAnalysis w urls userId playerName st = (Returned r, st')) ∧
  (playerName = [] →
   ∀ w urls userId st c st',
     processBulkAnalysis w urls userId playerName st = (c, st') →
     db st' = db st ∧ (∀ r, c = Returned r → parsedGames w urls = [])).
Proof.
  intros Hws. split_and!.
  - intros metadata. by apply determinePlayerColor_blank.
  - intros w urls userId st c st' Hrun.
    destruct (processBulkAnalysis_effect _ _ _ _ _ _ _ Hrun) as (new & Hdb & _ & Hnew).
    exists new. split_and!; [done| |].
    + eapply Forall_impl; [exact Hnew|]. intros a. by apply submittedJob_blank.
    + intros r ->.
      apply processBulkAnalysis_returned in Hrun as (_ & -> & _ & -> & _ & _ & Hsk).
      destruct (resolvable_blank playerName (parsedGames w urls) Hws) as [Hall Hnone].
      simpl in Hdb. apply app_inv_head in Hdb as <-.
      rewrite length_fmap, !createdJobs_length, Hall. split_and!; [by apply Hsk|done..].
  - intros Hname w urls userId st. by apply processBulkAnalysis_progress.
  - intros -> w urls userId st c st'. apply processBulkAnalysis_empty_name.
Qed.

Lemma blank_subject_resolves_white_witness :
  determinePlayerColor (parseHeaders Sample.game3) "  " = Some White ∧
  ∃ r st',
    processBulkAnalysis (Sample.world "timeout") Sample.urls "guest" "  " initial
    = (Returned r, st') ∧
    skipped_games r = None ∧ length (analysis_ids r) = 3 ∧ length (db st') = 3.
Proof.
  assert (whiteSpaceOnly "  ") as Hws by by repeat constructor.
  destruct (blank_subject_resolves_white "  " Hws) as (Hcolor & Hrun & Hret & _).
  split; [apply Hcolor|].
  destruct (Hret ltac:(discriminate) (Sample.world "timeout") Sample.urls "guest" initial)
    as (r & st' & Hr).
  { apply elem_of_sample_urls; by eexists. }
  { done. }
  exists r, st'. split; [exact Hr|].
  destruct (Hrun _ _ _ _ _ _ Hr) as (new & Hdb & _ & Hnew).
  destruct (Hnew r eq_refl) as (Hsk & Hids & Hlen).
  rewrite Hdb, Hsk, Hids, length_app, Hlen. clear.
  split; [reflexivity|]. split; vm_compute; reflexivity.
Defined.

(** C10, the claim as stated fails.  With the empty subject name, a
    submission of the two sample files, both retrieved and with every
    dispatch acknowledged, parses three games and creates no job: the
    collection rejects the job of the first game, whose subject name is
    required, and the call throws. *)
Lemma blankSubjectCreates_refuted : ¬ blankSubjectCreates.
Proof.
  intros Hclaim.
  destruct (processBulkAnalysis (Sample.world "timeout") Sample.urls "guest" [] initial)
    as [c st'] eqn:Hrun.
  destruct (Hclaim (Sample.world "timeout") Sample.urls "guest" [] initial c st')
    as (new & Hdb & Hlen & _).
  - constructor.
  - apply elem_of_sample_urls; by eexists.
  - done.
  - exact Hrun.
  - apply processBulkAnalysis_empty_name in Hrun as [Hnone _].
    rewrite Hnone in Hdb. simpl in Hdb. subst new.
    revert Hlen. clear. vm_compute. discriminate.
Qed.

(** ** Worker *)

Section worker.
Context (w : World) (analysisId : jsstring).

Lemma processAnalysis_unknown st :
  list_find (λ a, Job.analysis_id a = analysisId) (db st) = None →
  processAnalysis w analysisId st = (Returned (), st).
Proof.
  intros Hfind. unfold processAnalysis, mbind, M_bind, Analysis_findOne.
  by rewrite Hfind.
Qed.

Lemma processAnalysis_not_pending st key a :
  list_find (λ a, Job.analysis_id a = analysisId) (db st) = Some (key, a) →
  Job.status a ≠ PENDING →
  processAnalysis w analysisId st = (Returned (), st).
Proof.
  intros Hfind Hst. unfold processAnalysis, mbind, M_bind, Analysis_findOne.
  rewrite Hfind. by rewrite decide_True.
Qed.

(** The worker on a pending job: the first save is accepted; the model
    call throws and the [catch] block stores the failure, or it returns
    and the second save stores the result, unless the mapper rejects the
    result: the second save and the save of the [catch] block then throw
    the same error, and only the first write was made. *)
Lemma processAnalysis_pending st key a :
  list_find (λ a, Job.analysis_id a = analysisId) (db st) = Some (key, a) →
  Job.status a = PENDING →
  processAnalysis w analysisId st = (workCompletion w a, afterWork w st key a).
Proof.
  intros Hfind Hst. unfold processAnalysis, mbind, M_bind, Analysis_findOne.
  rewrite Hfind. rewrite decide_False by (intros H; by apply H).
  unfold tryBlock, catchBlock, Analysis_save, afterWork, workCompletion, rejected,
    outcomeDoc, secondDoc.
  cbn [Doc.found Doc.set_status Doc.set_error Doc.set_completed_at Doc.set_result
       Doc.fields Doc.castErrors].
  cbv beta iota zeta.
  change (analyzeGame w _ _ _ _) with (modelCall w a).
  destruct (modelCall w a) as [r|e].
  - simpl. destruct (castResult (mapper w) r).2 as [|path paths] eqn:Hpaths; simpl.
    + by rewrite list_insert_insert_eq, <-(assoc_L (++)).
    + by rewrite Hpaths.
  - simpl. by rewrite list_insert_insert_eq, <-(assoc_L (++)).
Qed.

(** The three cases of an invocation. *)
Lemma processAnalysis_cases st :
  (processAnalysis w analysisId st = (Returned (), st) ∧
   ∀ key a, list_find (λ a, Job.analysis_id a = analysisId) (db st) = Some (key, a) →
            Job.status a ≠ PENDING) ∨
  (∃ key a,
     list_find (λ a, Job.analysis_id a = analysisId) (db st) = Some (key, a) ∧
     Job.status a = PENDING ∧
     processAnalysis w analysisId st = (workCompletion w a, afterWork w st key a)).
Proof.
  destruct (list_find _ (db st)) as [[key a]|] eqn:Hfind.
  - destruct (decide (Job.status a = PENDING)) as [Hst|Hst].
    + right. exists key, a. split_and!; [done|done|]. by apply processAnalysis_pending.
    + left. split; [by eapply processAnalysis_not_pending|]. by intros ?? [= <- <-].
  - left. split; [by apply processAnalysis_unknown|done].
Qed.

(** The second document written is completed or failed. *)
Lemma secondDoc_status a doc :
  secondDoc w a = Some doc → Job.status doc = COMPLETED ∨ Job.status doc = FAILED.
Proof.
  unfold secondDoc. destruct (modelCall w a) as [r|e].
  - destruct (castResult (mapper w) r).2; [|done]. intros [= <-]. by left.
  - intros [= <-]. by right.
Qed.

Lemma secondDoc_rejected a : secondDoc w a = None ↔ rejected w a ≠ [].
Proof.
  unfold secondDoc, rejected. destruct (modelCall w a) as [r|e]; [|done].
  by destruct (castResult (mapper w) r).2.
Qed.

Lemma outcomeDoc_status a :
  Job.status (outcomeDoc w a) = PROCESSING ∨
  Job.status (outcomeDoc w a) = COMPLETED ∨ Job.status (outcomeDoc w a) = FAILED.
Proof.
  unfold outcomeDoc. destruct (secondDoc w a) as [doc|] eqn:Hdoc; [|by left].
  right. by apply secondDoc_status in Hdoc.
Qed.

Lemma outcomeDoc_not_pending a : Job.status (outcomeDoc w a) ≠ PENDING.
Proof. by destruct (outcomeDoc_status a) as [-> | [-> | ->]]. Qed.

Lemma secondDoc_id a doc : secondDoc w a = Some doc → Job.analysis_id doc = Job.analysis_id a.
Proof.
  unfold secondDoc. destruct (modelCall w a) as [r|e].
  - destruct (castResult (mapper w) r).2; [|done]. by intros [= <-].
  - by intros [= <-].
Qed.

Lemma outcomeDoc_id a : Job.analysis_id (outcomeDoc w a) = Job.analysis_id a.
Proof.
  unfold outcomeDoc. destruct (secondDoc w a) as [doc|] eqn:Hdoc; [|done].
  by apply secondDoc_id in Hdoc.
Qed.

Lemma processingDoc_consistent a :
  Job.status a = PENDING → jobConsistent a → jobConsistent (processingDoc w a).
Proof. unfold jobConsistent. intros ->. done. Qed.

Lemma secondDoc_consistent a doc :
  Job.status a = PENDING → jobConsistent a → secondDoc w a = Some doc → jobConsistent doc.
Proof.
  unfold jobConsistent. intros -> (Hres & Herr & Hdone). unfold secondDoc.
  destruct (modelCall w a) as [r|e].
  - destruct (castResult (mapper w) r).2; [|done]. intros [= <-]. simpl.
    split_and!; [by eexists|done|by eexists].
  - intros [= <-]. simpl. split_and!; [done|by eexists|done].
Qed.

Lemma outcomeDoc_consistent a :
  Job.status a = PENDING → jobConsistent a → jobConsistent (outcomeDoc w a).
Proof.
  intros Hst Ha. unfold outcomeDoc. destruct (secondDoc w a) as [doc|] eqn:Hdoc.
  - by eapply secondDoc_consistent.
  - by apply processingDoc_consistent.
Qed.

(** After an invocation the job is found where it was, and is not
    pending. *)
Lemma list_find_afterWork st key a :
  list_find (λ a, Job.analysis_id a = analysisId) (db st) = Some (key, a) →
  list_find (λ a, Job.analysis_id a = analysisId) (db (afterWork w st key a))
  = Some (key, outcomeDoc w a).
Proof.
  intros (Hlook & Hid & Hfirst)%list_find_Some. simpl.
  apply list_find_insert_Some. right. left.
  split_and!; [done|done|by eapply lookup_lt_Some|by rewrite outcomeDoc_id|done].
Qed.

End worker.

Lemma advances_outcome s :
  s = PROCESSING ∨ s = COMPLETED ∨ s = FAILED → rtc advances PENDING s.
Proof.
  intros [->|[->| ->]]; [apply rtc_once; constructor|..];
    (eapply rtc_l; [apply advances_start|]); apply rtc_once; constructor.
Qed.

(** C3.  The worker invoked on a job whose stored status is not pending
    returns normally and writes nothing: the collection, the write log and
    the rest of the state are as before.  Hence an invocation that follows
    another one on the same identifier changes nothing; and across any
    invocation the status of every stored document either stays or moves
    forward along the status machine, the writes made for a pending job
    being the status processing and then, unless the mapper rejects the
    answer of the model, completed or failed. *)
Theorem processAnalysis_idempotent w analysisId :
  (∀ st key a,
     list_find (λ a, Job.analysis_id a = analysisId) (db st) = Some (key, a) →
     Job.status a ≠ PENDING →
     processAnalysis w analysisId st = (Returned (), st)) ∧
  (∀ w0 st0,
     processAnalysis w analysisId (processAnalysis w0 analysisId st0).2
     = (Returned (), (processAnalysis w0 analysisId st0).2)) ∧
  (∀ st key a,
     db st !! key = Some a →
     ∃ a', db (processAnalysis w analysisId st).2 !! key = Some a' ∧
           rtc advances (Job.status a) (Job.status a') ∧
           (Job.status a ≠ PENDING → a' = a)) ∧
  (∀ st,
     writes (processAnalysis w analysisId st).2 = writes st ∨
     ∃ key a a1,
       db st !! key = Some a ∧
       advances (Job.status a) (Job.status a1) ∧
       (writes (processAnalysis w analysisId st).2 = writes st ++ [(key, a1)] ∧
        rejected w a ≠ [] ∨
        ∃ a2,
          writes (processAnalysis w analysisId st).2
          = writes st ++ [(key, a1); (key, a2)] ∧
          advances (Job.status a1) (Job.status a2))).
Proof.
  split_and!.
  - intros st key a. apply processAnalysis_not_pending.
  - intros w0 st0.
    destruct (processAnalysis_cases w0 analysisId st0)
      as [[Hrun Hst]|(key & a & Hfind & Hst & Hrun)]; rewrite Hrun; simpl.
    + destruct (list_find (λ a, Job.analysis_id a = analysisId) (db st0))
        as [[key a]|] eqn:Hfind.
      * eapply processAnalysis_not_pending; [done|by eapply Hst].
      * by apply processAnalysis_unknown.
    + eapply processAnalysis_not_pending; [by apply list_find_afterWork|].
      apply outcomeDoc_not_pending.
  - intros st key a Hlook.
    destruct (processAnalysis_cases w analysisId st)
      as [[Hrun Hst]|(key' & a0 & Hfind & Hst & Hrun)]; rewrite Hrun; simpl.
    + exists a. by split_and!.
    + pose proof Hfind as (Hlook0 & _)%list_find_Some.
      destruct (decide (key' = key)) as [->|Hne].
      * assert (a0 = a) as -> by congruence.
        exists (outcomeDoc w a). split_and!.
        -- apply list_lookup_insert_eq. by eapply lookup_lt_Some.
        -- rewrite Hst. apply advances_outcome, outcomeDoc_status.
        -- done.
      * exists a. rewrite list_lookup_insert_ne by done. by split_and!.
  - intros st.
    destruct (processAnalysis_cases w analysisId st)
      as [[Hrun Hst]|(key & a & Hfind & Hst & Hrun)]; rewrite Hrun; simpl.
    + by left.
    + right. exists key, a, (processingDoc w a).
      pose proof Hfind as (Hlook & _)%list_find_Some.
      split_and!; [done|rewrite Hst; constructor|].
      destruct (secondDoc w a) as [doc|] eqn:Hdoc.
      * right. exists doc. split; [done|]. simpl.
        destruct (secondDoc_status w a doc Hdoc) as [-> | ->]; constructor.
      * left. split; [done|]. by apply secondDoc_rejected.
Qed.

Lemma processAnalysis_idempotent_witness :
  Job.status <$> db (Sample.worked "timeout") = [FAILED; PENDING] ∧
  processAnalysis (Sample.world "timeout") "ana_uu" (Sample.worked "timeout")
  = (Returned (), Sample.worked "timeout").
Proof.
  split; [by vm_compute|].
  apply (processAnalysis_idempotent (Sample.world "timeout") "ana_uu").
Defined.

(** ** Invariant of the job records *)

Lemma submittedJob_consistent playerName a : submittedJob playerName a → jobConsistent a.
Proof. by intros (w & analysisId & userId & batchId & url & c & game & -> & _). Qed.

(** What the fields of a consistent job say of result and failure
    reason. *)
Lemma jobConsistent_result a :
  jobConsistent a →
  is_Some (Job.result a) ∧
  (is_Some (Job.error a) →
     Job.status a = FAILED ∧ Job.result a = Some Schema.defaultResult) ∧
  (Job.result a ≠ Some Schema.defaultResult → Job.status a = COMPLETED).
Proof.
  unfold jobConsistent.
  destruct (Job.status a); intros (Hres & Herr & Hdone); rewrite ?Hres, ?Herr;
    split_and!; try done; try by eexists.
  all: by intros [].
Qed.

Lemma step_consistent st st' : step st st' → consistentState st → consistentState st'.
Proof.
  intros Hstep [Hdb Hwr]. destruct Hstep as [w urls userId playerName st|w analysisId st].
  - destruct (processBulkAnalysis w urls userId playerName st) as [c st'] eqn:Hrun.
    apply processBulkAnalysis_effect in Hrun as (new & Hdb' & Hwr' & Hnew). simpl.
    assert (Forall jobConsistent new) as Hcons.
    { eapply Forall_impl; [exact Hnew|]. intros a. apply submittedJob_consistent. }
    split.
    + rewrite Hdb'. by apply Forall_app.
    + rewrite Hwr'. apply Forall_app. split; [done|].
      rewrite <-(Forall_fmap snd jobConsistent), keyed_snd. done.
  - destruct (processAnalysis_cases w analysisId st)
      as [[Hrun Hst]|(key & a & Hfind & Hst & Hrun)]; rewrite Hrun; simpl; [done|].
    pose proof Hfind as (Hlook & _)%list_find_Some.
    assert (jobConsistent a) as Ha.
    { eapply (Forall_lookup_1 jobConsistent); [exact Hdb|exact Hlook]. }
    split; simpl.
    + apply Forall_insert; [done|]. by apply outcomeDoc_consistent.
    + apply Forall_app. split; [done|].
      apply Forall_cons_2; [by apply processingDoc_consistent|].
      destruct (secondDoc w a) as [doc|] eqn:Hdoc; [|constructor].
      apply Forall_singleton. by eapply secondDoc_consistent.
Qed.

Lemma reachable_consistent st : reachable st → consistentState st.
Proof.
  unfold reachable. revert st. apply rtc_ind_r.
  - split; constructor.
  - intros st1 st2 _ Hstep IH. by eapply step_consistent.
Qed.

Lemma sample_submitted_reachable message : reachable (Sample.submitted message).
Proof. apply rtc_once. apply step_submit. Qed.

Lemma sample_worked_reachable message : reachable (Sample.worked message).
Proof.
  eapply rtc_r; [apply sample_submitted_reachable|]. apply step_work.
Qed.

(** C5, as amended.  In every store reached by calls of the orchestrator
    and invocations of the worker, in any number and order, every job
    record carries a result from its creation on: the default of the
    schema, until the worker stores the answer of the model.  A record
    with a failure reason has the status failed, and its result is still
    this default; a record whose result is not the default has the status
    completed.  So a result that the worker stored and a failure reason
    are never both there.  The same holds of every document that was ever
    written. *)
Theorem result_error_exclusive st :
  reachable st →
  Forall (λ a, is_Some (Job.result a) ∧
               (is_Some (Job.error a) →
                  Job.status a = FAILED ∧ Job.result a = Some Schema.defaultResult) ∧
               (Job.result a ≠ Some Schema.defaultResult → Job.status a = COMPLETED))
         (db st) ∧
  Forall (λ kd, is_Some (Job.result kd.2) ∧
                (is_Some (Job.error kd.2) →
                   Job.status kd.2 = FAILED ∧
                   Job.result kd.2 = Some Schema.defaultResult) ∧
                (Job.result kd.2 ≠ Some Schema.defaultResult →
                   Job.status kd.2 = COMPLETED))
         (writes st).
Proof.
  intros [Hdb Hwr]%reachable_consistent. split.
  - eapply Forall_impl; [exact Hdb|]. intros a. apply jobConsistent_result.
  - eapply Forall_impl; [exact Hwr|]. intros kd. apply jobConsistent_result.
Qed.

Lemma result_error_exclusive_witness :
  Forall (λ a, is_Some (Job.result a) ∧
               (is_Some (Job.error a) →
                  Job.status a = FAILED ∧ Job.result a = Some Schema.defaultResult) ∧
               (Job.result a ≠ Some Schema.defaultResult → Job.status a = COMPLETED))
         (db (Sample.worked "timeout")) ∧
  Job.error <$> db (Sample.worked "timeout") = [Some ("timeout" : jsstring); None].
Proof.
  split; [|vm_compute; reflexivity].
  apply (result_error_exclusive (Sample.worked "timeout")).
  apply sample_worked_reachable.
Defined.

Lemma sample_first_job message :
  ∃ a, list_find (λ a, Job.analysis_id a = ("ana_uu" : jsstring))
         (db (Sample.submitted message)) = Some (0, a) ∧
       Job.status a = PENDING ∧
       Job.result a = Some Schema.defaultResult ∧
       modelCall (Sample.world message) a = Threw (JsError message).
Proof. eexists. split_and!; by vm_compute. Qed.

(** C5, as stated, fails: a job carries a result from its creation on,
    while it is pending. *)
Lemma resultOnlyWhenCompleted_refuted : ¬ resultOnlyWhenCompleted.
Proof.
  intros Hclaim.
  destruct (sample_first_job "timeout") as (a & Hfind & Hst & Hres & _).
  apply list_find_Some in Hfind as (Hlook & _).
  pose proof (Hclaim _ (sample_submitted_reachable "timeout")) as Hall.
  destruct (Forall_lookup_1 _ _ _ _ Hall Hlook) as (_ & Hcompleted & _).
  rewrite Hcompleted in Hst; [done|]. rewrite Hres. by eexists.
Qed.

(** ** Failure of the model call *)

Lemma failureReason_empty e : failureReason e = [] ↔ e = JsError [].
Proof. destruct e as [message|]; simpl; [|done]. split; [by intros ->|by intros [= ->]]. Qed.

Lemma failedDoc_error w e a : Job.error (failedDoc w e a) = Some (failureReason e).
Proof. done. Qed.

(** What the worker does on a pending job when the model call throws. *)
Lemma processAnalysis_failure w analysisId st key a e :
  consistentState st →
  list_find (λ a, Job.analysis_id a = analysisId) (db st) = Some (key, a) →
  Job.status a = PENDING →
  modelCall w a = Threw e →
  processAnalysis w analysisId st = (Returned (), afterWork w st key a) ∧
  db (afterWork w st key a) !! key = Some (failedDoc w e a) ∧
  Job.result (failedDoc w e a) = Some Schema.defaultResult.
Proof.
  intros [Hdb _] Hfind Hst Hcall.
  pose proof Hfind as (Hlook & _)%list_find_Some.
  split_and!.
  - rewrite (processAnalysis_pending w analysisId st key a) by done.
    unfold workCompletion, rejected. by rewrite Hcall.
  - simpl. unfold outcomeDoc, secondDoc. rewrite Hcall.
    apply list_lookup_insert_eq. by eapply lookup_lt_Some.
  - simpl. pose proof (Forall_lookup_1 jobConsistent _ _ _ Hdb Hlook) as Ha.
    unfold jobConsistent in Ha. rewrite Hst in Ha. by destruct Ha.
Qed.

(** C4, as amended.  For a pending job of a reachable store on which the
    model call throws, the worker returns normally and leaves the job
    failed, with the failure reason it stores: the message of the thrown
    error, or a fixed text when what was thrown is not an error.  The
    stored reason is empty exactly when the thrown error has an empty
    message.  The job keeps the result it has had since its creation, the
    default of the schema: it is not without a result.  No other document
    changes. *)
Theorem processAnalysis_model_failure w analysisId st key a e :
  reachable st →
  list_find (λ a, Job.analysis_id a = analysisId) (db st) = Some (key, a) →
  Job.status a = PENDING →
  modelCall w a = Threw e →
  ∃ st' a',
    processAnalysis w analysisId st = (Returned (), st') ∧
    db st' !! key = Some a' ∧
    Job.status a' = FAILED ∧
    Job.error a' = Some (failureReason e) ∧
    (failureReason e = [] ↔ e = JsError []) ∧
    Job.result a' = Some Schema.defaultResult ∧
    ∀ k, k ≠ key → db st' !! k = db st !! k.
Proof.
  intros Hreach%reachable_consistent Hfind Hst Hcall.
  destruct (processAnalysis_failure w analysisId st key a e) as (Hrun & Hlook & Hres);
    [done..|].
  exists (afterWork w st key a), (failedDoc w e a).
  split_and!; [done|done|done|done|apply failureReason_empty|done|].
  intros k Hk. simpl. by rewrite list_lookup_insert_ne.
Qed.

Lemma processAnalysis_model_failure_witness :
  ∃ st' a',
    processAnalysis (Sample.world "timeout") "ana_uu" (Sample.submitted "timeout")
    = (Returned (), st') ∧
    db st' !! 0 = Some a' ∧
    Job.status a' = FAILED ∧
    Job.error a' = Some ("timeout" : jsstring) ∧
    Job.result a' = Some Schema.defaultResult.
Proof.
  destruct (sample_first_job "timeout") as (a & Hfind & Hst & _ & Hcall).
  destruct (processAnalysis_model_failure (Sample.world "timeout") "ana_uu"
              (Sample.submitted "timeout") 0 a (JsError "timeout")
              (sample_submitted_reachable "timeout") Hfind Hst Hcall)
    as (st' & a' & Hrun & Hlook & Hfailed & Herr & _ & Hres & _).
  exists st', a'.
  split; [exact Hrun|]. split; [exact Hlook|]. split; [exact Hfailed|].
  split; [exact Herr|exact Hres].
Defined.

(** C4, as stated, fails twice.  The model call may throw an error whose
    message is empty, and the stored failure reason is then the empty
    string; and the failed job is not without a result. *)
Lemma failureReasonNonEmpty_refuted : ¬ failureReasonNonEmpty.
Proof.
  intros Hclaim.
  destruct (sample_first_job "") as (a & Hfind & Hst & _ & Hcall).
  destruct (Hclaim (Sample.world "") "ana_uu" (Sample.submitted "") 0 a (JsError "")
              (sample_submitted_reachable "") Hfind Hst Hcall)
    as (st' & a' & Hrun & Hlook & _ & _ & Hnone).
  destruct (processAnalysis_failure (Sample.world "") "ana_uu" (Sample.submitted "")
              0 a (JsError "")) as (Hrun' & Hlook' & Hres);
    [by apply reachable_consistent, sample_submitted_reachable|done..|].
  rewrite Hrun' in Hrun. injection Hrun as <-.
  pose proof (eq_trans (eq_sym Hlook) Hlook') as Heq. injection Heq as Heq.
  subst a'. discriminate (eq_trans (eq_sym Hres) Hnone).
Qed.

(** ** Status query *)

Section status.

Lemma statusMap_foldl_lookup_other (m : gmap jsstring StatusEntry.t) l k :
  k ∉ (Job.analysis_id <$> l) →
  foldl (λ result analysis,
           <[Job.analysis_id analysis :=
               {| StatusEntry.status := Job.status analysis |}]> result) m l !! k
  = m !! k.
Proof.
  revert m. induction l as [|a l IH]; intros m Hk; [done|].
  rewrite fmap_cons, not_elem_of_cons in Hk. destruct Hk as [Hka Hk].
  simpl. rewrite IH by done. by apply lookup_insert_ne.
Qed.

Lemma statusMap_foldl_lookup (m : gmap jsstring StatusEntry.t) l a :
  NoDup (Job.analysis_id <$> l) → a ∈ l →
  foldl (λ result analysis,
           <[Job.analysis_id analysis :=
               {| StatusEntry.status := Job.status analysis |}]> result) m l
    !! Job.analysis_id a
  = Some {| StatusEntry.status := Job.status a |}.
Proof.
  revert m. induction l as [|b l IH]; intros m Hnd Hin; [by apply elem_of_nil in Hin|].
  rewrite fmap_cons in Hnd. apply NoDup_cons in Hnd as [Hb Hnd].
  apply elem_of_cons in Hin as [->|Hin]; simpl.
  - rewrite statusMap_foldl_lookup_other by done. apply lookup_insert_eq.
  - by apply IH.
Qed.

(** The value under a key is the status of the last document found with
    this identifier. *)
Lemma statusMap_foldl_lookup_some (m : gmap jsstring StatusEntry.t) l k :
  k ∈ (Job.analysis_id <$> l) →
  ∃ a, a ∈ l ∧ Job.analysis_id a = k ∧
       foldl (λ result analysis,
                <[Job.analysis_id analysis :=
                    {| StatusEntry.status := Job.status analysis |}]> result) m l !! k
       = Some {| StatusEntry.status := Job.status a |}.
Proof.
  revert m. induction l as [|b l IH]; intros m Hk; [by apply elem_of_nil in Hk|].
  destruct (decide (k ∈ Job.analysis_id <$> l)) as [Hl|Hl].
  - destruct (IH (<[Job.analysis_id b :=
                      {| StatusEntry.status := Job.status b |}]> m) Hl)
      as (a & Hin & Ha & Hlook).
    exists a. split; [by right|done].
  - rewrite fmap_cons in Hk. apply elem_of_cons in Hk as [->|Hk]; [|done].
    exists b. split; [by left|]. split; [done|]. simpl.
    rewrite statusMap_foldl_lookup_other by done. apply lookup_insert_eq.
Qed.

Lemma statusMap_lookup_some l k :
  k ∈ (Job.analysis_id <$> l) →
  ∃ a, a ∈ l ∧ Job.analysis_id a = k ∧
       statusMap l !! k = Some {| StatusEntry.status := Job.status a |}.
Proof. apply statusMap_foldl_lookup_some. Qed.

Lemma statusMap_foldl_dom (m : gmap jsstring StatusEntry.t) l :
  dom (foldl (λ result analysis,
                <[Job.analysis_id analysis :=
                    {| StatusEntry.status := Job.status analysis |}]> result) m l)
  = dom m ∪ list_to_set (Job.analysis_id <$> l).
Proof.
  revert m. induction l as [|a l IH]; intros m; simpl.
  - by rewrite (right_id_L ∅ (∪)).
  - rewrite IH, dom_insert_L.
    by rewrite (comm_L (∪) {[Job.analysis_id a]}), <-(assoc_L (∪)).
Qed.

Lemma statusMap_dom l : dom (statusMap l) = list_to_set (Job.analysis_id <$> l).
Proof.
  unfold statusMap. by rewrite statusMap_foldl_dom, dom_empty_L, (left_id_L ∅ (∪)).
Qed.

Lemma getAnalysesStatus_unfold analysisIds userId st :
  getAnalysesStatus analysisIds userId st
  = (Returned
       (statusMap
          (filter (λ a, Job.analysis_id a ∈ analysisIds ∧ Job.user_id a = userId) (db st))),
     st).
Proof. done. Qed.

(** The keys of the mapping are the queried identifiers of jobs that the
    caller owns. *)
Lemma getAnalysesStatus_dom analysisIds userId st result k :
  getAnalysesStatus analysisIds userId st = (Returned result, st) →
  k ∈ dom result ↔ k ∈ analysisIds ∧ ownedJob st userId k.
Proof.
  rewrite getAnalysesStatus_unfold. intros [= <-].
  rewrite statusMap_dom, elem_of_list_to_set, list_elem_of_fmap. unfold ownedJob. split.
  - intros (a & -> & (Hp & Hin)%list_elem_of_filter). destruct Hp as [Hid Hu].
    split; [done|]. by exists a.
  - intros (Hk & a & Hin & <- & Hu). exists a. split; [done|].
    apply list_elem_of_filter. by split.
Qed.

End status.

(** C9.  For a list of identifiers of jobs that the caller owns, the
    status query returns a mapping whose keys are exactly the queried
    identifiers; the value under each is the record made of the status of
    an owned job with this identifier and nothing else: the status of the
    job, identifiers being unique in the collection. *)
Theorem getAnalysesStatus_mapping analysisIds userId st :
  (∀ analysisId, analysisId ∈ analysisIds → ownedJob st userId analysisId) →
  ∃ result,
    getAnalysesStatus analysisIds userId st = (Returned result, st) ∧
    dom result = list_to_set analysisIds ∧
    (∀ analysisId, analysisId ∈ analysisIds →
       ∃ a, a ∈ db st ∧ Job.analysis_id a = analysisId ∧ Job.user_id a = userId ∧
            result !! analysisId = Some {| StatusEntry.status := Job.status a |}) ∧
    (NoDup (Job.analysis_id <$> db st) →
     ∀ a, a ∈ db st → Job.analysis_id a ∈ analysisIds →
          result !! Job.analysis_id a = Some {| StatusEntry.status := Job.status a |}).
Proof.
  intros Hown. eexists. split; [apply getAnalysesStatus_unfold|]. split_and!.
  - apply set_eq. intros k.
    rewrite (getAnalysesStatus_dom analysisIds userId st _ k)
      by apply getAnalysesStatus_unfold.
    rewrite elem_of_list_to_set. split; [by intros [? _]|].
    intros Hk. split; [done|by apply Hown].
  - intros analysisId Hid. destruct (Hown _ Hid) as (a' & Hin' & Hid' & Hu).
    destruct (statusMap_lookup_some
                (filter (λ a, Job.analysis_id a ∈ analysisIds ∧ Job.user_id a = userId)
                        (db st)) analysisId) as (a & Hin & Ha & Hlook).
    { apply list_elem_of_fmap. exists a'. split; [done|].
      apply list_elem_of_filter. split; [|done]. by rewrite Hid'. }
    apply list_elem_of_filter in Hin as [[_ Hua] Hin]. by exists a.
  - intros Hnd a Hin Hid. unfold statusMap. apply statusMap_foldl_lookup.
    + eapply sublist_NoDup; [exact Hnd|]. apply fmap_sublist, sublist_filter.
    + apply list_elem_of_filter. split; [|done]. split; [done|].
      destruct (Hown _ Hid) as (a' & Hin' & Hid' & Hu).
      assert (a' = a) as <-; [|done].
      apply list_elem_of_lookup in Hin as [i Hi]. apply list_elem_of_lookup in Hin' as [j Hj].
      assert (i = j) as ->; [|congruence].
      eapply NoDup_lookup; [exact Hnd|..]; rewrite list_lookup_fmap.
      * by rewrite Hi.
      * rewrite Hj. simpl. by rewrite Hid'.
Qed.

Lemma sample_worked_jobs :
  ∃ a0 a1,
    db (Sample.worked "timeout") = [a0; a1] ∧
    (Job.analysis_id a0 = "ana_uu" ∧ Job.user_id a0 = "guest" ∧ Job.status a0 = FAILED) ∧
    (Job.analysis_id a1 = "ana_uuu" ∧ Job.user_id a1 = "guest" ∧ Job.status a1 = PENDING).
Proof.
  eexists _, _. split; [vm_compute; reflexivity|].
  split; (split; [|split]); vm_compute; reflexivity.
Qed.

Lemma getAnalysesStatus_mapping_witness :
  ∃ result,
    getAnalysesStatus ["ana_uuu" : jsstring; "ana_uu" : jsstring] "guest"
      (Sample.worked "timeout")
    = (Returned result, Sample.worked "timeout") ∧
    dom result = list_to_set ["ana_uuu" : jsstring; "ana_uu" : jsstring] ∧
    result !! ("ana_uu" : jsstring) = Some {| StatusEntry.status := FAILED |} ∧
    result !! ("ana_uuu" : jsstring) = Some {| StatusEntry.status := PENDING |}.
Proof.
  destruct sample_worked_jobs
    as (a0 & a1 & Hdb & (Hid0 & Hu0 & Hst0) & (Hid1 & Hu1 & Hst1)).
  assert (a0 ∈ db (Sample.worked "timeout")) as Hin0 by (rewrite Hdb; apply list_elem_of_here).
  assert (a1 ∈ db (Sample.worked "timeout")) as Hin1
    by (rewrite Hdb; apply list_elem_of_further, list_elem_of_here).
  assert (NoDup (Job.analysis_id <$> db (Sample.worked "timeout"))) as Hnd.
  { rewrite Hdb. simpl. rewrite Hid0, Hid1. clear.
    refine (bool_decide_unpack _ _). vm_compute. exact I. }
  destruct (getAnalysesStatus_mapping ["ana_uuu" : jsstring; "ana_uu" : jsstring]
              "guest" (Sample.worked "timeout")) as (result & Hrun & Hdom & _ & Hval).
  - intros analysisId Hin.
    apply elem_of_cons in Hin as [->|Hin].
    { exists a1. split; [exact Hin1|]. split; [exact Hid1|exact Hu1]. }
    apply elem_of_cons in Hin as [->|Hin].
    { exists a0. split; [exact Hin0|]. split; [exact Hid0|exact Hu0]. }
    by apply elem_of_nil in Hin.
  - exists result. split; [exact Hrun|]. split; [exact Hdom|]. split.
    + rewrite <-Hid0, <-Hst0. apply Hval; [exact Hnd|exact Hin0|].
      rewrite Hid0. apply list_elem_of_further, list_elem_of_here.
    + rewrite <-Hid1, <-Hst1. apply Hval; [exact Hnd|exact Hin1|].
      rewrite Hid1. apply list_elem_of_here.
Defined.

(** * Further properties *)

(** ** The split on arbitrary text *)

Section split_any.
Import Js JsFacts.

Lemma visible_app a b : visible (a ++ b) = visible a ++ visible b.
Proof. apply filter_app. Qed.

Lemma visible_nil_iff s : visible s = [] ↔ whiteSpaceOnly s.
Proof.
  unfold visible, whiteSpaceOnly. induction s as [|c s IH]; [by split; [constructor|]|].
  destruct (isWhiteSpace c) eqn:Hc.
  - rewrite filter_cons_False by by rewrite Hc. rewrite IH. split.
    + by constructor.
    + by intros [_ ?]%Forall_cons.
  - rewrite filter_cons_True by done. split; [done|].
    intros [Hc' _]%Forall_cons. congruence.
Qed.

Lemma visible_trim s : visible (trim s) = visible s.
Proof.
  destruct (trim_spec s) as (l & r & Hs & Hl & Hr & _).
  rewrite Hs at 2. rewrite !visible_app.
  apply visible_nil_iff in Hl, Hr. by rewrite Hl, Hr, app_nil_r.
Qed.

Lemma trim_nil_iff s : trim s = [] ↔ whiteSpaceOnly s.
Proof.
  split; [|apply trim_whiteSpaceOnly].
  intros Ht. apply visible_nil_iff. by rewrite <-visible_trim, Ht.
Qed.

Lemma trim_trimmed s : trimmed s → trim s = s.
Proof.
  intros Hs. apply (trim_unique s [] s []); [by rewrite app_nil_r|constructor..|done].
Qed.

Lemma splitLoop_visible fuel cur s :
  visible (concat (splitLoop fuel cur s)) = visible (cur ++ s).
Proof.
  revert cur s. induction fuel as [|fuel IH]; intros cur s.
  - simpl. by rewrite app_nil_r.
  - rewrite splitLoop_S. destruct (matchBoundary s) as [rest|] eqn:Hm.
    + apply matchBoundary_Some in Hm as (sep & Hsep%whiteSpaceOnly_blankLine & -> & _).
      apply visible_nil_iff in Hsep.
      simpl. rewrite !visible_app, IH, Hsep. done.
    + destruct s as [|c t]; [simpl; by rewrite !app_nil_r|].
      rewrite IH. by rewrite <-(assoc_L (++)).
Qed.

(** The games made of a list of pieces. *)
Lemma splitPgn_unfold text :
  splitPgn text
  = omap (λ gameStr,
            let trimmed := trim gameStr in
            if decide (length trimmed = 0) then None
            else Some {| Game.pgn := trimmed; Game.metadata := parseHeaders trimmed |})
         (filter (λ g, 0 < length (trim g)) (splitAtBoundaries (trim text))).
Proof. done. Qed.

Lemma games_of_pieces (pieces : list jsstring) :
  omap (λ gameStr,
          let trimmed := trim gameStr in
          if decide (length trimmed = 0) then None
          else Some {| Game.pgn := trimmed; Game.metadata := parseHeaders trimmed |})
       (filter (λ g, 0 < length (trim g)) pieces)
  = parsedGame <$> filter (λ g, g ≠ []) (trim <$> pieces).
Proof.
  induction pieces as [|piece pieces IH]; [done|].
  rewrite fmap_cons. destruct (trim piece) as [|c t] eqn:Ht.
  - rewrite filter_cons_False by (rewrite Ht; simpl; lia).
    by rewrite filter_cons_False by by intros [].
  - rewrite filter_cons_True by (rewrite Ht; simpl; lia).
    rewrite filter_cons_True by done. simpl. rewrite Ht. simpl.
    f_equal. exact IH.
Qed.

Lemma splitPgn_pieces text :
  splitPgn text
  = parsedGame <$> filter (λ g, g ≠ []) (trim <$> splitAtBoundaries (trim text)).
Proof. rewrite splitPgn_unfold. apply games_of_pieces. Qed.

Lemma visible_pieces (pieces : list jsstring) :
  visible (concat (filter (λ g, g ≠ []) (trim <$> pieces))) = visible (concat pieces).
Proof.
  induction pieces as [|piece pieces IH]; [done|].
  rewrite fmap_cons. change (concat (piece :: pieces)) with (piece ++ concat pieces).
  rewrite visible_app, <-IH, <-(visible_trim piece).
  destruct (trim piece) as [|c t] eqn:Ht.
  - by rewrite filter_cons_False by by intros [].
  - rewrite filter_cons_True by done.
    change (concat ((c :: t) :: ?l)) with ((c :: t) ++ concat l).
    by rewrite visible_app.
Qed.

Lemma matchBoundary_nil : matchBoundary [] = None.
Proof. done. Qed.

Lemma matchBoundary_app s rest tail :
  matchBoundary s = Some rest → matchBoundary (s ++ tail) = Some (rest ++ tail).
Proof.
  intros (sep & Hsep & -> & Hhead)%matchBoundary_Some. apply matchBoundary_Some.
  exists sep. split_and!; [done|by rewrite (assoc_L (++))|].
  by apply head_Some in Hhead as [r ->].
Qed.

(** A text with no boundary in it is one piece. *)
Lemma splitAtBoundaries_whole g : ¬ hasBoundary g → splitAtBoundaries g = [g].
Proof.
  intros Hg. unfold splitAtBoundaries.
  replace (splitLoop (S (length g)) [] g) with (splitLoop (length g + 1) [] (g ++ []))
    by (rewrite app_nil_r; f_equal; lia).
  rewrite splitLoop_run; [done|].
  intros p s -> Hs. rewrite app_nil_r.
  destruct (matchBoundary s) as [rest|] eqn:Hm; [|done].
  exfalso. apply Hg, hasBoundary_suffix. by exists p, s.
Qed.

Lemma hasBoundary_occursIn g text : occursIn g text → hasBoundary g → hasBoundary text.
Proof.
  intros (pre & post & ->) (pre' & sep & post' & -> & Hsep).
  exists (pre ++ pre'), sep, (post' ++ post). split; [|done].
  by rewrite <-!(assoc_L (++)).
Qed.

Lemma occursIn_trim s : occursIn (trim s) s.
Proof. destruct (trim_spec s) as (l & r & Hs & _). by exists l, r. Qed.

Lemma occursIn_trans a b c : occursIn a b → occursIn b c → occursIn a c.
Proof.
  intros (p & q & ->) (p' & q' & ->). exists (p' ++ p), (q ++ q').
  by rewrite <-!(assoc_L (++)).
Qed.

(** What the split loop cuts: pieces of the text, with no boundary left
    inside; each piece after the first starts with the bracket that
    followed the boundary before it. *)
Lemma splitLoop_pieces fuel cur s :
  length s < fuel →
  (∀ p q, cur = p ++ q → q ≠ [] → matchBoundary (q ++ s) = None) →
  Forall (λ piece, ¬ hasBoundary piece ∧ occursIn piece (cur ++ s)) (splitLoop fuel cur s).
Proof.
  revert cur s. induction fuel as [|fuel IH]; intros cur s Hfuel Hcur; [lia|].
  assert (¬ hasBoundary cur) as Hnb.
  { intros (p & q & -> & rest & Hm)%hasBoundary_suffix.
    assert (q ≠ []) as Hq by (intros ->; by rewrite matchBoundary_nil in Hm).
    apply (matchBoundary_app _ _ s) in Hm. by rewrite (Hcur p q) in Hm. }
  rewrite splitLoop_S. destruct (matchBoundary s) as [rest|] eqn:Hm.
  - pose proof (matchBoundary_shorter _ _ Hm) as Hlen.
    apply matchBoundary_Some in Hm as (sep & Hsep & -> & Hhead).
    apply Forall_cons_2; [split; [done|by exists [], (sep ++ rest)]|].
    eapply Forall_impl; [apply IH; [lia|]|].
    + intros p q Hpq Hq. symmetry in Hpq. by apply app_eq_nil in Hpq as [_ ->].
    + intros piece [Hp Hocc]. split; [done|].
      eapply occursIn_trans; [exact Hocc|]. exists (cur ++ sep), []. simpl.
      by rewrite app_nil_r, <-(assoc_L (++)).
  - destruct s as [|c t].
    + apply Forall_singleton. split; [done|]. exists [], []. by rewrite !app_nil_r.
    + eapply Forall_impl; [apply IH; [simpl in Hfuel; lia|]|].
      * intros p q Hpq Hq.
        destruct (last q) as [x|] eqn:Hl; [|by apply last_None in Hl].
        apply last_Some in Hl as [q' ->].
        rewrite (assoc_L (++)) in Hpq. apply app_inj_tail in Hpq as [-> <-].
        destruct q' as [|b q']; [done|].
        rewrite <-(assoc_L (++)). by apply (Hcur p (b :: q')).
      * intros piece [Hp Hocc]. split; [done|]. by rewrite <-(assoc_L (++)) in Hocc.
Qed.

Lemma splitLoop_first fuel cur s : ∃ p rest, splitLoop fuel cur s = (cur ++ p) :: rest.
Proof.
  revert cur s. induction fuel as [|fuel IH]; intros cur s; [by exists s, []|].
  rewrite splitLoop_S. destruct (matchBoundary s) as [rest|].
  - exists [], (splitLoop fuel [] rest). by rewrite app_nil_r.
  - destruct s as [|c t]; [exists [], []; by rewrite app_nil_r|].
    destruct (IH (cur ++ [c]) t) as (p & rest & ->).
    exists (c :: p), rest. by rewrite <-(assoc_L (++)).
Qed.

Lemma splitLoop_bracket fuel cur s :
  head (cur ++ s) = Some lbracket →
  Forall (λ piece, head piece = Some lbracket) (splitLoop fuel cur s).
Proof.
  revert cur s. induction fuel as [|fuel IH]; intros cur s Hh; [by apply Forall_singleton|].
  rewrite splitLoop_S. destruct (matchBoundary s) as [rest|] eqn:Hm.
  - apply matchBoundary_Some in Hm as (sep & (ws & -> & _) & -> & Hhead).
    apply Forall_cons_2; [by destruct cur|]. by apply IH.
  - destruct s as [|c t]; [apply Forall_singleton; by rewrite app_nil_r in Hh|].
    apply IH. by rewrite <-(assoc_L (++)).
Qed.

Lemma splitLoop_tail_bracket fuel cur s :
  Forall (λ piece, head piece = Some lbracket) (tail (splitLoop fuel cur s)).
Proof.
  revert cur s. induction fuel as [|fuel IH]; intros cur s; [constructor|].
  rewrite splitLoop_S. destruct (matchBoundary s) as [rest|] eqn:Hm.
  - apply matchBoundary_Some in Hm as (sep & _ & -> & Hhead).
    simpl. by apply splitLoop_bracket.
  - destruct s as [|c t]; [constructor|]. apply IH.
Qed.

Lemma head_trim s c : head s = Some c → isWhiteSpace c = false → head (trim s) = Some c.
Proof.
  intros Hh Hc. unfold trim. rewrite trimStart_head.
  - by apply trimEnd_head.
  - intros c'. rewrite Hh. by intros [= <-].
Qed.

Lemma Forall_tail {A} (P : A → Prop) l : Forall P l → Forall P (tail l).
Proof. destruct 1; [constructor|done]. Qed.

End split_any.

(** X1.  The split yields no game exactly when the text is empty or
    made of white space only; any other text yields at least one game. *)
Theorem splitPgn_nil_iff text : splitPgn text = [] ↔ whiteSpaceOnly text.
Proof.
  rewrite splitPgn_pieces. split.
  - intros Hnil. apply trim_nil_iff.
    destruct (JsFacts.trim_spec text) as (_ & _ & _ & _ & _ & [Hhead _]).
    destruct (Js.trim text) as [|c t]; [done|exfalso].
    specialize (Hhead c eq_refl).
    unfold splitAtBoundaries in Hnil. rewrite splitLoop_S in Hnil.
    rewrite matchBoundary_not_LF in Hnil by (intros ->; done).
    destruct (splitLoop_first (length (c :: t)) ([] ++ [c]) t) as (p & rest & Hsplit).
    rewrite Hsplit, fmap_cons in Hnil.
    rewrite filter_cons_True in Hnil; [done|].
    intros Hempty. pose proof (head_trim (c :: p) c eq_refl Hhead) as Hc.
    simpl in Hempty. by rewrite Hempty in Hc.
  - intros Hws. by rewrite (JsFacts.trim_whiteSpaceOnly text Hws).
Qed.

(** X2.  The split loses and invents no text: the code units of the
    games that are not white space, taken game after game, are those of
    the input, in the same order. *)
Theorem splitPgn_keeps_text text :
  visible (concat (Game.pgn <$> splitPgn text)) = visible text.
Proof.
  rewrite splitPgn_pieces, <-list_fmap_compose.
  rewrite (list_fmap_ext (Game.pgn ∘ parsedGame) id) by done.
  rewrite list_fmap_id, visible_pieces. unfold splitAtBoundaries.
  by rewrite splitLoop_visible, app_nil_l, visible_trim.
Qed.

(** X3.  Every game the split yields, whatever the text: its text is a
    piece of the input with no white space at either end, not empty, with
    no blank-line boundary before a bracket left inside, and its metadata
    are the headers of this text; splitting the text of a game again
    yields this game alone.  Every game after the first starts with an
    opening bracket. *)
Theorem splitPgn_games text :
  Forall (λ game,
            splitPgn (Game.pgn game) = [game] ∧
            ¬ hasBoundary (Game.pgn game) ∧
            occursIn (Game.pgn game) text ∧
            trimmed (Game.pgn game) ∧ Game.pgn game ≠ [] ∧
            Game.metadata game = parseHeaders (Game.pgn game))
         (splitPgn text) ∧
  Forall (λ game, head (Game.pgn game) = Some lbracket) (tail (splitPgn text)).
Proof.
  rewrite splitPgn_pieces. split.
  - rewrite Forall_fmap. apply Forall_forall. intros g Hg.
    apply list_elem_of_filter in Hg as [Hne Hg].
    apply list_elem_of_fmap in Hg as (piece & -> & Hpiece).
    unfold splitAtBoundaries in Hpiece.
    pose proof (splitLoop_pieces (S (length (Js.trim text))) [] (Js.trim text)) as Hall.
    rewrite Forall_forall in Hall. destruct (Hall ltac:(lia) ltac:(by intros [] []) _ Hpiece)
      as [Hnb Hocc].
    assert (¬ hasBoundary (Js.trim piece)) as Hnb'.
    { intros Hb. apply Hnb. eapply hasBoundary_occursIn; [apply occursIn_trim|done]. }
    assert (trimmed (Js.trim piece)) as Htr.
    { by destruct (JsFacts.trim_spec piece) as (_ & _ & _ & _ & _ & ?). }
    simpl. split_and!; [|done| |done|done|done].
    + rewrite splitPgn_pieces, (trim_trimmed (Js.trim piece)) by done.
      rewrite splitAtBoundaries_whole by done.
      simpl. rewrite (trim_trimmed (Js.trim piece)) by done.
      by rewrite filter_cons_True by done.
    + eapply occursIn_trans; [apply occursIn_trim|].
      eapply occursIn_trans; [exact Hocc|]. apply occursIn_trim.
  - unfold splitAtBoundaries.
    pose proof (splitLoop_tail_bracket (S (length (Js.trim text))) [] (Js.trim text)) as Ht.
    destruct (splitLoop _ _ _) as [|p0 ps]; [constructor|]. simpl in Ht.
    assert (Forall (λ g, head g = Some lbracket) (filter (λ g, g ≠ []) (Js.trim <$> ps)))
      as Hps.
    { apply Forall_forall. intros g [_ Hg]%list_elem_of_filter.
      apply list_elem_of_fmap in Hg as (piece & -> & Hpiece).
      rewrite Forall_forall in Ht. apply head_trim; [by apply Ht|done]. }
    rewrite fmap_cons.
    destruct (decide (Js.trim p0 = [])) as [Hp0|Hp0].
    + rewrite filter_cons_False by (by intros []).
      destruct (filter _ _) as [|g gs]; [constructor|].
      simpl. rewrite Forall_fmap. by apply Forall_cons in Hps as [_ ?].
    + rewrite filter_cons_True by done. simpl. by rewrite Forall_fmap.
Qed.

(** ** Validation of a game text *)

Section validity.
Import Js JsFacts.

(** One attempt of the pattern of a header with any tag. *)
Lemma matchAnyHeaderAt_spec s : matchAnyHeaderAt s = true ↔ anyHeaderAt s.
Proof.
  unfold matchAnyHeaderAt, anyHeaderAt. split.
  - destruct s as [|c s1]; [done|].
    intros [Hc H]%andb_true_iff. apply bool_decide_eq_true in Hc as ->.
    destruct (span isWordChar s1) as [tag s2] eqn:Htag.
    apply span_spec in Htag as (-> & Htag & _).
    destruct (span isWhiteSpace s2) as [ws s3] eqn:Hws.
    apply span_spec in Hws as (-> & Hws & _).
    destruct tag as [|t tag]; [done|]. destruct ws as [|w ws]; [done|].
    destruct s3 as [|q s4]; [done|].
    apply andb_true_iff in H as [Hq H]. apply bool_decide_eq_true in Hq as ->.
    destruct (span _ s4) as [v s5] eqn:Hv.
    apply span_spec in Hv as (-> & Hv & _).
    destruct s5 as [|q' [|b s6]]; [done|done|].
    apply bool_decide_eq_true in H as [-> ->].
    exists (t :: tag), (w :: ws), v, s6.
    split_and!; [done|done|done|done|done|]. by apply not_quote_Forall.
  - intros (tag & ws & value & rest & -> & Hne & Htag & Hwne & Hws & Hq).
    rewrite bool_decide_eq_true_2 by done. simpl.
    rewrite (span_app isWordChar tag).
    + rewrite (span_app isWhiteSpace ws) by (done || (simpl; by intros ? [= <-])).
      destruct tag as [|t tag]; [done|]. destruct ws as [|w ws]; [done|].
      rewrite bool_decide_eq_true_2 by done. simpl.
      rewrite (span_app _ value)
        by (by apply not_quote_Forall || (simpl; by intros ? [= <-])).
      by rewrite bool_decide_eq_true_2.
    + done.
    + destruct ws as [|w ws]; [done|]. simpl. intros c [= <-].
      apply Forall_cons in Hws as [Hw _]. revert Hw. clear.
      by destruct w as [[] [] [] [] [] [] [] []].
Qed.

Lemma hasHeader_spec s :
  hasHeader s = true ↔ ∃ pre post, s = pre ++ post ∧ anyHeaderAt post.
Proof.
  induction s as [|c s IH].
  - change (hasHeader []) with (matchAnyHeaderAt [] || false).
    rewrite orb_false_r, matchAnyHeaderAt_spec. split.
    + intros H. by exists [], [].
    + intros (pre & post & Heq & H). symmetry in Heq.
      by apply app_eq_nil in Heq as [_ ->].
  - change (hasHeader (c :: s)) with (matchAnyHeaderAt (c :: s) || hasHeader s).
    rewrite orb_true_iff, matchAnyHeaderAt_spec, IH. split.
    + intros [H|(pre & post & -> & H)]; [by exists [], (c :: s)|by exists (c :: pre), post].
    + intros (pre & post & Heq & H). destruct pre as [|c' pre].
      * left. simpl in Heq. by subst post.
      * right. injection Heq as -> ->. by exists pre, post.
Qed.

Lemma allCodeUnits_complete c : c ∈ allCodeUnits.
Proof.
  unfold allCodeUnits. apply list_elem_of_fmap. exists (nat_of_ascii c).
  split; [by rewrite ascii_nat_embedding|].
  apply elem_of_seq. pose proof (nat_ascii_bounded c). lia.
Qed.

(** Read without regard to case, a tag of word characters is made of
    word characters. *)
Lemma isWordChar_canonicalize c p :
  isWordChar p = true → canonicalize c = canonicalize p → isWordChar c = true.
Proof.
  assert (forallb (λ c, forallb (λ p,
            implb (isWordChar p && bool_decide (canonicalize c = canonicalize p))
                  (isWordChar c)) allCodeUnits) allCodeUnits = true) as Hall
    by (vm_compute; reflexivity).
  intros Hp Hcp. rewrite forallb_forall in Hall.
  specialize (Hall c). rewrite <-list_elem_of_In in Hall.
  specialize (Hall (allCodeUnits_complete c)).
  rewrite forallb_forall in Hall. specialize (Hall p).
  rewrite <-list_elem_of_In in Hall. specialize (Hall (allCodeUnits_complete p)).
  by rewrite Hp, bool_decide_eq_true_2 in Hall.
Qed.

Lemma sameTag_wordChars tag name :
  sameTag tag name → Forall (λ c, isWordChar c = true) name →
  Forall (λ c, isWordChar c = true) tag.
Proof.
  unfold sameTag. induction 1 as [|c p tag name Hcp _ IH]; [constructor|].
  intros [Hp Hname]%Forall_cons. constructor; [|by apply IH].
  by eapply isWordChar_canonicalize.
Qed.

Lemma headerAt_anyHeaderAt name value s :
  name ≠ [] → Forall (λ c, isWordChar c = true) name →
  headerAt name value s → anyHeaderAt s.
Proof.
  intros Hne Hname (tag & ws & rest & -> & Htag & Hws & Hwso & Hq).
  exists tag, ws, value, rest. split_and!; try done.
  - intros ->. inversion Htag. by subst.
  - by eapply sameTag_wordChars.
Qed.

Lemma getHeader_hasHeader name pgn value :
  name ≠ [] → Forall (λ c, isWordChar c = true) name →
  getHeader name pgn = Some value → hasHeader pgn = true.
Proof.
  intros Hne Hname (pre & s & -> & Hat & _)%getHeader_Some.
  apply hasHeader_spec. exists pre, s. split; [done|]. by eapply headerAt_anyHeaderAt.
Qed.

End validity.

(** X4.  A text is accepted as a valid game text exactly when a header
    stands somewhere in it (an opening bracket, a tag of one or more word
    characters, white space, a quoted value, a closing bracket) and the
    move number [1.] occurs somewhere in it. *)
Theorem isValidPgn_spec pgn :
  isValidPgn pgn = true ↔
  (∃ pre s, pgn = pre ++ s ∧ anyHeaderAt s) ∧ occursIn "1." pgn.
Proof.
  unfold isValidPgn.
  by rewrite andb_true_iff, hasHeader_spec, JsFacts.includes_spec.
Qed.

(** X5.  Validation agrees with header extraction: a text from which
    header extraction gets any metadata other than the defaults, and in
    which the move number [1.] occurs, is a valid game text. *)
Theorem parseHeaders_isValidPgn pgn :
  parseHeaders pgn ≠ noMetadata → occursIn "1." pgn → isValidPgn pgn = true.
Proof.
  intros Hmeta Hmoves. unfold isValidPgn.
  apply andb_true_iff. split; [|by apply JsFacts.includes_spec].
  destruct (hasHeader pgn) eqn:Hh; [done|]. exfalso. apply Hmeta.
  assert (∀ name : jsstring,
            name ≠ [] → Forall (λ c, isWordChar c = true) name →
            getHeader name pgn = None) as Hnone.
  { intros name Hne Hname. destruct (getHeader name pgn) as [v|] eqn:Hg; [|done].
    apply getHeader_hasHeader in Hg; [congruence|done..]. }
  unfold noMetadata, parseHeaders.
  rewrite !Hnone by (done || by repeat constructor). done.
Qed.

Lemma parseHeaders_isValidPgn_witness : isValidPgn Sample.game2 = true.
Proof.
  apply parseHeaders_isValidPgn.
  - intros Heq. apply (f_equal Metadata.white) in Heq. vm_compute in Heq. discriminate Heq.
  - apply JsFacts.includes_spec. vm_compute. reflexivity.
Defined.

(** ** Outcomes of a submission *)

Section outcomes.
Context (w : World) (userId playerName batchId : jsstring).

Lemma newAnalysis_fresh analysisId url playerColor game :
  freshJob userId playerName
    (newAnalysis w analysisId userId batchId url playerName playerColor game).
Proof. by repeat split. Qed.

(** The inner loop, whatever its outcome: the jobs it appends, their
    identifiers, and what reached the queue.  It throws what a dispatch
    threw, or, for the empty subject name, what validation throws for the
    first job. *)
Lemma forGames_outcome url games ids sk st c st' :
  Forall (λ game, Game.pgn game ≠ []) games →
  forGames w url userId playerName batchId games ids sk st = (c, st') →
  ∃ new,
    db st' = db st ++ new ∧
    drawn st + length new ≤ drawn st' ∧
    Job.analysis_id <$> new = analysisIdOf w <$> seq (drawn st) (length new) ∧
    Forall (freshJob userId playerName) new ∧
    match c with
    | Returned (ids', _) =>
        drawn st' = drawn st + length new ∧
        ids' = ids ++ (Job.analysis_id <$> new) ∧
        queue st' = queue st ++ (Job.analysis_id <$> new) ∧
        Forall (λ a, enqueue w (Job.analysis_id a) = Returned ()) new
    | Threw e =>
        (∃ sent a, new = sent ++ [a] ∧
           enqueue w (Job.analysis_id a) = Threw e ∧
           queue st' = queue st ++ (Job.analysis_id <$> sent) ∧
           Forall (λ a, enqueue w (Job.analysis_id a) = Returned ()) sent) ∨
        (playerName = [] ∧ new = [] ∧
         e = validationError (mapper w) [("player_name" : jsstring)] ∧
         queue st' = queue st)
    end.
Proof.
  intros Hpgn. revert ids sk st.
  induction Hpgn as [|game games Hgame Hgames IH]; intros ids sk st.
  - intros [= <- <-]. exists []. simpl. rewrite !app_nil_r, Nat.add_0_r.
    split_and!; (done || constructor).
  - destruct (determinePlayerColor (Game.metadata game) playerName) as [pc|] eqn:Hc.
    + rewrite (forGames_create _ _ _ _ _ _ _ _ _ pc) by done.
      set (doc := newAnalysis _ _ _ _ _ _ _ _).
      destruct (Schema.rejectedPaths doc) as [|path paths] eqn:Hpaths.
      * assert (playerName ≠ []) as Hname.
        { intros Hname. unfold doc in Hpaths.
          rewrite newAnalysis_rejectedPaths, Hname in Hpaths.
          by apply app_eq_nil in Hpaths as [_ ?]. }
        destruct (enqueue w _) as [[]|e] eqn:Hq.
        -- intros (new & Hdb & Hdr & Hids & Hfresh & Hc')%IH. exists (doc :: new).
           simpl in Hdb, Hdr, Hids, Hc'. rewrite Hdb, <-(assoc_L (++)).
           split_and!; [done|simpl; lia| |constructor; [apply newAnalysis_fresh|done]|].
           ++ change (length (doc :: new)) with (S (length new)).
              cbn [seq]. rewrite !fmap_cons, Hids. f_equal.
              by replace (drawn st + 1) with (S (drawn st)) by lia.
           ++ destruct c as [[ids' sk']|e].
              ** destruct Hc' as (-> & -> & -> & Hack). rewrite <-!(assoc_L (++)).
                 split_and!; [simpl; lia|done|done|by constructor].
              ** destruct Hc' as [(sent & a & -> & Ha & -> & Hack)|(Hempty & _)];
                   [|done].
                 left. exists (doc :: sent), a.
                 rewrite <-!(assoc_L (++)). split_and!; [done|done|done|by constructor].
        -- intros [= <- <-]. exists [doc]. simpl.
           split_and!; [done|lia|done|constructor; [apply newAnalysis_fresh|constructor]|].
           left. exists [], doc. rewrite app_nil_r. split_and!; (done || constructor).
      * intros [= <- <-]. exists []. simpl. rewrite !app_nil_r.
        split_and!; [done|lia|done|constructor|]. right.
        unfold doc in Hpaths. rewrite newAnalysis_rejectedPaths in Hpaths.
        destruct (Game.pgn game) as [|c0 pgn0]; [done|].
        destruct playerName as [|c1 name1]; [|done].
        simpl in Hpaths. by rewrite <-Hpaths.
    + rewrite forGames_skip by done. apply IH.
Qed.

End outcomes.

Section outcomes_urls.
Context (w : World) (userId playerName : jsstring).

Lemma forUrls_outcome batchId urls ids sk st c st' :
  forUrls w userId playerName batchId urls ids sk st = (c, st') →
  ∃ new,
    db st' = db st ++ new ∧
    drawn st + length new ≤ drawn st' ∧
    Job.analysis_id <$> new = analysisIdOf w <$> seq (drawn st) (length new) ∧
    Forall (freshJob userId playerName) new ∧
    match c with
    | Returned (ids', _) =>
        drawn st' = drawn st + length new ∧
        ids' = ids ++ (Job.analysis_id <$> new) ∧
        queue st' = queue st ++ (Job.analysis_id <$> new) ∧
        Forall (λ a, enqueue w (Job.analysis_id a) = Returned ()) new
    | Threw e =>
        (∃ url, url ∈ urls ∧ downloadFile w url = Threw e ∧
                queue st' = queue st ++ (Job.analysis_id <$> new) ∧
                Forall (λ a, enqueue w (Job.analysis_id a) = Returned ()) new) ∨
        (∃ sent a, new = sent ++ [a] ∧
           enqueue w (Job.analysis_id a) = Threw e ∧
           queue st' = queue st ++ (Job.analysis_id <$> sent) ∧
           Forall (λ a, enqueue w (Job.analysis_id a) = Returned ()) sent) ∨
        (playerName = [] ∧ new = [] ∧
         e = validationError (mapper w) [("player_name" : jsstring)] ∧
         queue st' = queue st)
    end.
Proof.
  revert ids sk st. induction urls as [|url urls IH]; intros ids sk st.
  - intros [= <- <-]. exists []. simpl. rewrite !app_nil_r, Nat.add_0_r.
    split_and!; (done || constructor).
  - rewrite forUrls_cons. destruct (downloadFile w url) as [pgnContent|e] eqn:Hd.
    + destruct (forGames _ _ _ _ _ _ _ _ _) as [[[ids1 sk1]|e] st1] eqn:Hg;
        pose proof Hg as Hg';
        apply forGames_outcome in Hg as (new1 & Hdb1 & Hdr1 & Hids1 & Hf1 & Hc1);
        try apply splitPgn_pgn_nonempty.
      * destruct Hc1 as (Hdr1' & -> & Hq1 & Hack1).
        intros (new2 & Hdb2 & Hdr2 & Hids2 & Hf2 & Hc2)%IH. exists (new1 ++ new2).
        rewrite Hdb2, Hdb1, length_app, <-!(assoc_L (++)).
        split_and!; [done|lia| |by apply Forall_app|].
        { rewrite seq_app, !fmap_app, Hids1, Hids2. by rewrite Hdr1'. }
        destruct c as [[ids' sk']|e].
        -- destruct Hc2 as (-> & -> & -> & Hack2).
           rewrite Hq1, fmap_app, <-!(assoc_L (++)).
           split_and!; [lia|done|done|by apply Forall_app].
        -- destruct Hc2 as [(url' & Hin & Hurl & -> & Hack2)
                           |[(sent & a & -> & Ha & -> & Hack2)
                            |(Hname & -> & -> & Hq2)]].
           ++ left. exists url'. rewrite Hq1, fmap_app, <-!(assoc_L (++)).
              split_and!; [by right|done|done|by apply Forall_app].
           ++ right. left. exists (new1 ++ sent), a.
              rewrite Hq1, fmap_app, <-!(assoc_L (++)).
              split_and!; [done|done|done|by apply Forall_app].
           ++ right. right.
              assert (new1 = []) as ->.
              { rewrite Hname in Hg'. apply forGames_empty_name in Hg' as [Hdb' _].
                rewrite Hdb' in Hdb1. rewrite <-(app_nil_r (db st)) in Hdb1 at 1.
                by apply app_inv_head in Hdb1. }
              simpl in Hq1. rewrite app_nil_r in Hq1.
              split_and!; [done|done|done|congruence].
      * intros [= <- <-]. exists new1. split_and!; [done..|].
        destruct Hc1 as [Hsent|Hrej]; [right; by left|right; by right].
    + intros [= <- <-]. exists []. simpl. rewrite !app_nil_r, Nat.add_0_r.
      split_and!; [done..|constructor|]. left. exists url.
      split_and!; [by left|done|done|constructor].
Qed.

(** Whatever its outcome, a submission appends jobs whose identifiers
    are made of the values drawn after the one of the batch. *)
Lemma processBulkAnalysis_ids urls st :
  ∃ new,
    db (processBulkAnalysis w urls userId playerName st).2 = db st ++ new ∧
    S (drawn st) + length new ≤ drawn (processBulkAnalysis w urls userId playerName st).2 ∧
    Job.analysis_id <$> new = analysisIdOf w <$> seq (S (drawn st)) (length new).
Proof.
  rewrite processBulkAnalysis_unfold.
  destruct (forUrls _ _ _ _ _ _ _ _) as [[[ids sk]|e] st1] eqn:Hf;
    apply forUrls_outcome in Hf as (new & Hdb & Hdr & Hids & _); by exists new.
Qed.

(** Whatever its outcome, a submission appends pending jobs of the
    caller. *)
Lemma processBulkAnalysis_appends urls st :
  ∃ new,
    db (processBulkAnalysis w urls userId playerName st).2 = db st ++ new ∧
    Forall (freshJob userId playerName) new.
Proof.
  rewrite processBulkAnalysis_unfold.
  destruct (forUrls _ _ _ _ _ _ _ _) as [[[ids sk]|e] st1] eqn:Hf;
    apply forUrls_outcome in Hf as (new & Hdb & _ & _ & Hfresh & _); by exists new.
Qed.

End outcomes_urls.

(** X6.  The outcomes of a bulk submission.  Whatever happens, the call
    only appends pending jobs of the caller to the collection.  When it
    returns, the identifiers returned are those of the appended jobs, and
    each was handed to the queue once, in this order.  When it throws,
    either the retrieval of one of the files threw this error, and every
    appended job was handed to the queue; or the dispatch of the last
    appended job threw it: this job stays in the collection, pending,
    without having reached the queue, and the jobs appended before it were
    handed to the queue; or the subject name is empty and validation
    rejected the first job: nothing was stored and nothing reached the
    queue. *)
Theorem processBulkAnalysis_outcomes w urls userId playerName st :
  ∃ new,
    db (processBulkAnalysis w urls userId playerName st).2 = db st ++ new ∧
    Forall (freshJob userId playerName) new ∧
    match (processBulkAnalysis w urls userId playerName st).1 with
    | Returned r =>
        analysis_ids r = (Job.analysis_id <$> new) ∧
        queue (processBulkAnalysis w urls userId playerName st).2
        = queue st ++ (Job.analysis_id <$> new)
    | Threw e =>
        (∃ url, url ∈ urls ∧ downloadFile w url = Threw e ∧
           queue (processBulkAnalysis w urls userId playerName st).2
           = queue st ++ (Job.analysis_id <$> new)) ∨
        (∃ sent a, new = sent ++ [a] ∧
           enqueue w (Job.analysis_id a) = Threw e ∧
           queue (processBulkAnalysis w urls userId playerName st).2
           = queue st ++ (Job.analysis_id <$> sent)) ∨
        (playerName = [] ∧ new = [] ∧
         e = validationError (mapper w) [("player_name" : jsstring)] ∧
         queue (processBulkAnalysis w urls userId playerName st).2 = queue st)
    end.
Proof.
  rewrite processBulkAnalysis_unfold.
  destruct (forUrls _ _ _ _ _ _ _ _) as [[[ids sk]|e] st1] eqn:Hf;
    apply forUrls_outcome in Hf as (new & Hdb & _ & _ & Hfresh & Hc);
    exists new; (split; [exact Hdb|split; [exact Hfresh|]]).
  - destruct Hc as (_ & -> & Hq & _). split; [done|exact Hq].
  - destruct Hc as [(url & Hin & Hurl & Hq & _)
                   |[(sent & a & Hnew & Ha & Hq & _)|Hrej]].
    + left. by exists url.
    + right. left. by exists sent, a.
    + right. by right.
Qed.

Lemma createdJobs_jobOf w userId playerName batchId n games :
  Forall2 (jobOf userId playerName batchId)
    (createdJobs w userId playerName batchId n games)
    (filter (resolvable playerName) games).
Proof.
  revert n. induction games as [|[url game] games IH]; intros n; [constructor|].
  simpl. destruct (determinePlayerColor _ _) as [c|] eqn:Hc.
  - rewrite filter_cons_True by (unfold resolvable; simpl; by rewrite Hc).
    constructor; [|apply IH]. unfold jobOf. simpl. rewrite Hc.
    split_and!; (done || apply newAnalysis_fresh).
  - rewrite filter_cons_False by (unfold resolvable; simpl; rewrite Hc; by intros []).
    apply IH.
Qed.

(** X7.  What a submission that returns has done.  It has appended to
    the collection one job for each parsed game in which the subject has a
    side, in file order then game order, and changed no other document.
    Each job carries the text and the metadata of its game, the reference
    of its file, the side found, the identifier of the batch, the caller
    and the subject name, and is pending.  The identifier of the batch and
    those of the jobs are made of consecutive values of the generator; the
    identifiers returned are those of the jobs, and each was handed to the
    queue once, in this order. *)
Theorem processBulkAnalysis_creates w urls userId playerName st r st' :
  processBulkAnalysis w urls userId playerName st = (Returned r, st') →
  ∃ new,
    db st' = db st ++ new ∧
    Forall2 (jobOf userId playerName (batch_id r)) new
      (filter (resolvable playerName) (parsedGames w urls)) ∧
    batch_id r = "batch_" ++ uuidv4 w (drawn st) ∧
    analysis_ids r = (Job.analysis_id <$> new) ∧
    analysis_ids r = (analysisIdOf w <$> seq (S (drawn st)) (length new)) ∧
    queue st' = queue st ++ analysis_ids r ∧
    drawn st' = S (drawn st) + length new.
Proof.
  intros Hrun.
  destruct (processBulkAnalysis_ids w userId playerName urls st)
    as (new & Hdb & Hdr & Hids).
  rewrite Hrun in Hdb, Hdr. cbn [snd] in Hdb, Hdr.
  pose proof (processBulkAnalysis_returned _ _ _ _ _ _ _ Hrun) as Hret.
  cbv zeta in Hret. destruct Hret as (_ & Hst & Hb & Hr & _).
  assert (createdJobs w userId playerName ("batch_" ++ uuidv4 w (drawn st))
            (S (drawn st)) (parsedGames w urls) = new) as Hnew.
  { rewrite Hst in Hdb. unfold afterJobs, afterDraw in Hdb. cbn [db] in Hdb.
    by apply app_inv_head in Hdb. }
  rewrite Hnew in Hr, Hst. exists new. split_and!.
  - exact Hdb.
  - rewrite Hb, <-Hnew. apply createdJobs_jobOf.
  - exact Hb.
  - exact Hr.
  - by rewrite Hr.
  - rewrite Hst, Hr. reflexivity.
  - rewrite Hst. reflexivity.
Qed.

Lemma processBulkAnalysis_creates_witness :
  ∃ new,
    db (Sample.submitted "timeout") = new ∧ length new = 2 ∧
    Forall2 (jobOf "guest" "ann" "batch_u") new
      (filter (resolvable "ann") (parsedGames (Sample.world "timeout") Sample.urls)) ∧
    queue (Sample.submitted "timeout") = ["ana_uu" : jsstring; "ana_uuu" : jsstring].
Proof.
  destruct (processBulkAnalysis (Sample.world "timeout") Sample.urls "guest" "ann" initial)
    as [[r|e] st'] eqn:Hrun; [|by vm_compute in Hrun].
  destruct (processBulkAnalysis_creates _ _ _ _ _ _ _ Hrun)
    as (new & Hdb & Hjobs & Hb & Hids & Hseq & Hq & Hdr).
  assert (Sample.submitted "timeout" = st') as Hst.
  { unfold Sample.submitted. by rewrite Hrun. }
  assert (length new = 2) as Hlen.
  { apply Forall2_length in Hjobs. rewrite Hjobs. clear. vm_compute. reflexivity. }
  exists new. rewrite Hst, Hdb, Hq, Hseq, Hlen. rewrite Hb in Hjobs.
  split; [reflexivity|]. split; [reflexivity|]. split; [exact Hjobs|]. reflexivity.
Defined.

(** ** Identifiers *)

Section identifiers.
Context (w : World).

Lemma insert_outcome_fmap {B} (f : IAnalysis → B) (l : list IAnalysis) key a a' :
  l !! key = Some a → f a' = f a → f <$> <[key := a']> l = f <$> l.
Proof.
  intros Hlook Hf. rewrite list_fmap_insert, Hf. apply list_insert_id.
  by rewrite list_lookup_fmap, Hlook.
Qed.

(** The worker draws no identifier, dispatches nothing and keeps the
    identifiers of the collection. *)
Lemma processAnalysis_ids analysisId st :
  Job.analysis_id <$> db (processAnalysis w analysisId st).2 = Job.analysis_id <$> db st ∧
  drawn (processAnalysis w analysisId st).2 = drawn st ∧
  queue (processAnalysis w analysisId st).2 = queue st.
Proof.
  destruct (processAnalysis_cases w analysisId st)
    as [[Hrun Hst]|(key & a & Hfind & Hst & Hrun)]; rewrite Hrun; [done|].
  apply list_find_Some in Hfind as (Hlook & _). simpl.
  split; [|done]. eapply insert_outcome_fmap; [done|apply outcomeDoc_id].
Qed.

Lemma stepIn_idsDrawnAt st st' ns :
  stepIn w st st' → idsDrawnAt w st ns → ∃ ns', idsDrawnAt w st' ns'.
Proof.
  intros Hstep (Hids & Hnd & Hlt). destruct Hstep as [urls userId playerName st|analysisId st].
  - destruct (processBulkAnalysis_ids w userId playerName urls st)
      as (new & Hdb & Hdr & Hnew).
    exists (ns ++ seq (S (drawn st)) (length new)). split_and!.
    + by rewrite Hdb, !fmap_app, Hids, Hnew.
    + apply NoDup_app. split_and!; [done| |apply NoDup_seq].
      intros n Hn Hn'%elem_of_seq.
      rewrite Forall_forall in Hlt. specialize (Hlt n Hn). lia.
    + apply Forall_app. split.
      * eapply Forall_impl; [exact Hlt|]. intros n Hn. simpl in Hn. lia.
      * apply Forall_forall. intros n Hn%elem_of_seq. lia.
  - destruct (processAnalysis_ids analysisId st) as (Hids' & Hdr & _).
    exists ns. split_and!; [by rewrite Hids'|done|by rewrite Hdr].
Qed.

Lemma reachableIn_idsDrawnAt st : reachableIn w st → ∃ ns, idsDrawnAt w st ns.
Proof.
  unfold reachableIn. revert st. apply rtc_ind_r.
  - exists []. split_and!; [done|constructor|constructor].
  - intros st1 st2 _ Hstep [ns Hns]. by eapply stepIn_idsDrawnAt.
Qed.

Lemma analysisIdOf_inj : Inj (=) (=) (uuidv4 w) → Inj (=) (=) (analysisIdOf w).
Proof.
  intros Hinj n m Hnm. unfold analysisIdOf in Hnm.
  apply Hinj. by apply (inj (app _)) in Hnm.
Qed.

Lemma reachableIn_NoDup st :
  Inj (=) (=) (uuidv4 w) → reachableIn w st → NoDup (Job.analysis_id <$> db st).
Proof.
  intros Hinj [ns (Hids & Hnd & _)]%reachableIn_idsDrawnAt.
  rewrite Hids. apply NoDup_fmap_2; [|done]. by apply analysisIdOf_inj.
Qed.

End identifiers.

(** With unique identifiers, the search by identifier finds each job. *)
Lemma list_find_unique (l : list IAnalysis) key a :
  NoDup (Job.analysis_id <$> l) → l !! key = Some a →
  list_find (λ a', Job.analysis_id a' = Job.analysis_id a) l = Some (key, a).
Proof.
  intros Hnd Hlook. apply list_find_Some. split_and!; [done|done|].
  intros j y Hy Hj Hid.
  assert (j = key) as ->; [|lia].
  eapply NoDup_lookup; [exact Hnd|..]; rewrite list_lookup_fmap.
  - by rewrite Hy.
  - rewrite Hlook. simpl. by rewrite Hid.
Qed.

Lemma reachableIn_reachable w st : reachableIn w st → reachable st.
Proof.
  unfold reachableIn, reachable. apply rtc_subrel.
  intros st1 st2 [urls userId playerName st0|analysisId st0]; constructor.
Qed.

Lemma sample_uuidv4_inj message : Inj (=) (=) (uuidv4 (Sample.world message)).
Proof.
  intros n m Hnm.
  change (replicate (S n) "u"%char = replicate (S m) "u"%char) in Hnm.
  apply (f_equal length) in Hnm. rewrite !length_replicate in Hnm. lia.
Qed.

Lemma sample_worked_reachableIn message :
  reachableIn (Sample.world message) (Sample.worked message).
Proof.
  eapply rtc_r; [apply rtc_once, stepIn_submit|]. apply stepIn_work.
Qed.

(** X8.  As long as the generator never gives the same value twice, the
    identifiers of the jobs in the collection are pairwise distinct in
    every state reached by calls of the orchestrator and invocations of
    the worker; so the search of a job by its identifier finds this very
    job. *)
Theorem analysis_ids_unique w st :
  Inj (=) (=) (uuidv4 w) → reachableIn w st →
  NoDup (Job.analysis_id <$> db st) ∧
  ∀ key a, db st !! key = Some a →
    Analysis_findOne (Job.analysis_id a) st = (Returned (Some (key, a)), st).
Proof.
  intros Hinj Hreach. pose proof (reachableIn_NoDup w st Hinj Hreach) as Hnd.
  split; [exact Hnd|]. intros key a Hlook. unfold Analysis_findOne.
  by rewrite (list_find_unique (db st) key a).
Qed.

Lemma analysis_ids_unique_witness :
  NoDup (Job.analysis_id <$> db (Sample.worked "timeout")) ∧
  length (db (Sample.worked "timeout")) = 2.
Proof.
  split; [|vm_compute; reflexivity].
  apply (analysis_ids_unique (Sample.world "timeout") (Sample.worked "timeout")).
  - apply sample_uuidv4_inj.
  - apply sample_worked_reachableIn.
Defined.

(** ** The worker on a pending job, and jobs over a run *)

Lemma sameSubmission_refl a : sameSubmission a a.
Proof. by repeat split. Qed.

Lemma sameSubmission_trans a b c :
  sameSubmission a b → sameSubmission b c → sameSubmission a c.
Proof. unfold sameSubmission. intros H1 H2. destruct_and!. split_and!; congruence. Qed.

Lemma sameSubmission_outcome w a : sameSubmission a (outcomeDoc w a).
Proof.
  unfold outcomeDoc, secondDoc. destruct (modelCall w a) as [r|e]; [|by repeat split].
  destruct (castResult (mapper w) r).2; by repeat split.
Qed.

(** One step keeps every job where it is, with what the submission
    stored in it; the status stays or advances, and a job that is not
    pending does not change. *)
Lemma step_persist st st' key a :
  step st st' → db st !! key = Some a →
  ∃ a', db st' !! key = Some a' ∧
        rtc advances (Job.status a) (Job.status a') ∧
        sameSubmission a a' ∧
        (Job.status a ≠ PENDING → a' = a).
Proof.
  intros Hstep Hlook. destruct Hstep as [w urls userId playerName st|w analysisId st].
  - destruct (processBulkAnalysis w urls userId playerName st) as [c st'] eqn:Hrun.
    apply processBulkAnalysis_effect in Hrun as (new & Hdb & _). simpl.
    exists a. rewrite Hdb. split_and!; [|done|apply sameSubmission_refl|done].
    by apply lookup_app_l_Some.
  - destruct (processAnalysis_cases w analysisId st)
      as [[Hrun Hst]|(key' & a0 & Hfind & Hst & Hrun)]; rewrite Hrun; simpl.
    + exists a. split_and!; [done|done|apply sameSubmission_refl|done].
    + pose proof Hfind as (Hlook0 & _)%list_find_Some.
      destruct (decide (key' = key)) as [->|Hne].
      * assert (a0 = a) as -> by congruence.
        exists (outcomeDoc w a). split_and!.
        -- apply list_lookup_insert_eq. by eapply lookup_lt_Some.
        -- rewrite Hst. apply advances_outcome, outcomeDoc_status.
        -- apply sameSubmission_outcome.
        -- done.
      * exists a. rewrite list_lookup_insert_ne by done.
        split_and!; [done|done|apply sameSubmission_refl|done].
Qed.

Lemma advances_not_pending s s' : rtc advances s s' → s ≠ PENDING → s' ≠ PENDING.
Proof.
  induction 1 as [|s1 s2 s3 H12 _ IH]; [done|]. intros Hs. apply IH.
  by destruct H12.
Qed.

(** X9.  Over any run of orchestrator calls and worker invocations, a
    job stays in the collection under its storage key with what the
    submission stored in it (identifier, owner, batch, game text, file
    reference, subject, side, metadata, time of creation); its status
    stays or advances along the status machine; and once it is not pending
    any more, the record never changes again: a result or a failure
    reason is never overwritten and a failed job is never run again. *)
Theorem jobs_persist st st' key a :
  rtc step st st' → db st !! key = Some a →
  ∃ a', db st' !! key = Some a' ∧
        rtc advances (Job.status a) (Job.status a') ∧
        sameSubmission a a' ∧
        (Job.status a ≠ PENDING → a' = a).
Proof.
  intros Hrun. revert a. induction Hrun as [st|st1 st2 st3 Hstep _ IH]; intros a Hlook.
  - exists a. split_and!; [done|done|apply sameSubmission_refl|done].
  - destruct (step_persist _ _ _ _ Hstep Hlook) as (a1 & Hlook1 & Hadv1 & Hsame1 & Hfix1).
    destruct (IH a1 Hlook1) as (a2 & Hlook2 & Hadv2 & Hsame2 & Hfix2).
    exists a2. split_and!.
    + done.
    + by etrans.
    + by eapply sameSubmission_trans.
    + intros Hst. rewrite <-(Hfix1 Hst). apply Hfix2.
      by eapply advances_not_pending.
Qed.

Lemma jobs_persist_witness :
  ∃ a, db (Sample.worked "timeout") !! 0 = Some a ∧ Job.status a = FAILED ∧
       db (processAnalysis (Sample.world "again") "ana_uu"
             (processBulkAnalysis (Sample.world "again") Sample.urls "guest" "ann"
                (Sample.worked "timeout")).2).2 !! 0 = Some a.
Proof.
  destruct sample_worked_jobs as (a0 & a1 & Hdb & (_ & _ & Hst0) & _).
  assert (db (Sample.worked "timeout") !! 0 = Some a0) as Hlook by by rewrite Hdb.
  exists a0. split; [exact Hlook|]. split; [exact Hst0|].
  destruct (jobs_persist (Sample.worked "timeout")
              (processAnalysis (Sample.world "again") "ana_uu"
                 (processBulkAnalysis (Sample.world "again") Sample.urls "guest" "ann"
                    (Sample.worked "timeout")).2).2 0 a0)
    as (a' & Hlook' & _ & _ & Hfix).
  - eapply rtc_l; [apply step_submit|]. apply rtc_once, step_work.
  - exact Hlook.
  - rewrite Hlook'. f_equal. apply Hfix. rewrite Hst0. discriminate.
Defined.

(** X10.  In every state reached by calls of the orchestrator and
    invocations of the worker, each run to its end, the status of a job
    tells which fields it carries.  A pending job has the default of the
    schema as its result, no failure reason and no time of completion, and
    so has a job left in the status processing, which is one whose answer
    the mapper rejected.  A completed job has a result and a time of
    completion and no failure reason.  A failed job has a failure reason,
    the default of the schema as its result, and no time of completion. *)
Theorem status_determines_fields st :
  reachable st →
  Forall (λ a,
            (Job.status a = PENDING ∨ Job.status a = PROCESSING →
               Job.result a = Some Schema.defaultResult ∧ Job.error a = None ∧
               Job.completed_at a = None) ∧
            (Job.status a = COMPLETED →
               is_Some (Job.result a) ∧ Job.error a = None ∧
               is_Some (Job.completed_at a)) ∧
            (Job.status a = FAILED →
               is_Some (Job.error a) ∧ Job.result a = Some Schema.defaultResult ∧
               Job.completed_at a = None)) (db st).
Proof.
  intros [Hdb _]%reachable_consistent.
  eapply Forall_impl; [exact Hdb|]. intros a Ha. unfold jobConsistent in Ha.
  destruct (Job.status a); split_and!; try done.
  all: try by intros [|].
  by destruct Ha as (? & ? & ?).
Qed.

Lemma status_determines_fields_witness :
  Forall (λ a,
            (Job.status a = PENDING ∨ Job.status a = PROCESSING →
               Job.result a = Some Schema.defaultResult ∧ Job.error a = None ∧
               Job.completed_at a = None) ∧
            (Job.status a = COMPLETED →
               is_Some (Job.result a) ∧ Job.error a = None ∧
               is_Some (Job.completed_at a)) ∧
            (Job.status a = FAILED →
               is_Some (Job.error a) ∧ Job.result a = Some Schema.defaultResult ∧
               Job.completed_at a = None)) (db (Sample.worked "timeout")).
Proof.
  apply (status_determines_fields (Sample.worked "timeout")).
  apply sample_worked_reachable.
Defined.

(** A pending job of a reachable store is as it was created. *)
Lemma reachable_pending st key a :
  reachable st → db st !! key = Some a → Job.status a = PENDING →
  Job.result a = Some Schema.defaultResult ∧ Job.error a = None ∧
  Job.completed_at a = None.
Proof.
  intros [Hdb _]%reachable_consistent Hlook Hst.
  pose proof (Forall_lookup_1 jobConsistent _ _ _ Hdb Hlook) as Ha.
  unfold jobConsistent in Ha. by rewrite Hst in Ha.
Qed.

(** X11.  For a pending job of a reachable store on which the model call
    returns a value that the mapper accepts, the worker returns normally
    and leaves the job completed, with the value that the mapper stores
    for this result, the time of completion and no failure reason; it has
    written the job twice, first as processing and then as completed, and
    no other document has changed. *)
Theorem processAnalysis_model_success w analysisId st key a r :
  reachable st →
  list_find (λ a, Job.analysis_id a = analysisId) (db st) = Some (key, a) →
  Job.status a = PENDING →
  modelCall w a = Returned r →
  (castResult (mapper w) r).2 = [] →
  ∃ st' a',
    processAnalysis w analysisId st = (Returned (), st') ∧
    db st' !! key = Some a' ∧
    Job.status a' = COMPLETED ∧
    Job.result a' = Some (castResult (mapper w) r).1 ∧
    Job.completed_at a' = Some (now w) ∧
    Job.error a' = None ∧
    sameSubmission a a' ∧
    (∃ a1, writes st' = writes st ++ [(key, a1); (key, a')] ∧
           Job.status a1 = PROCESSING ∧ Job.result a1 = Some Schema.defaultResult) ∧
    ∀ k, k ≠ key → db st' !! k = db st !! k.
Proof.
  intros Hreach Hfind Hst Hcall Hcast.
  pose proof Hfind as (Hlook & _)%list_find_Some.
  destruct (reachable_pending st key a Hreach Hlook Hst) as (Hr & He & Hc).
  exists (afterWork w st key a), (completedDoc w (castResult (mapper w) r).1 a).
  assert (secondDoc w a = Some (completedDoc w (castResult (mapper w) r).1 a)) as Hsnd.
  { unfold secondDoc. by rewrite Hcall, Hcast. }
  assert (outcomeDoc w a = completedDoc w (castResult (mapper w) r).1 a) as Hout.
  { unfold outcomeDoc. by rewrite Hsnd. }
  split_and!.
  - rewrite (processAnalysis_pending w analysisId st key a) by done.
    unfold workCompletion, rejected. by rewrite Hcall, Hcast.
  - simpl. rewrite Hout. apply list_lookup_insert_eq. by eapply lookup_lt_Some.
  - done.
  - done.
  - done.
  - exact He.
  - by repeat split.
  - exists (processingDoc w a). simpl. rewrite Hsnd. split_and!; [done|done|exact Hr].
  - intros k Hk. simpl. by rewrite list_lookup_insert_ne.
Qed.

Lemma sample_second_job message :
  ∃ a, list_find (λ a, Job.analysis_id a = ("ana_uuu" : jsstring))
         (db (Sample.submitted message)) = Some (1, a) ∧
       Job.status a = PENDING ∧
       modelCall (Sample.world message) a = Returned (jsonOfResult Sample.analysis).
Proof. eexists. split_and!; by vm_compute. Qed.

Lemma processAnalysis_model_success_witness :
  ∃ st' a',
    processAnalysis (Sample.world "timeout") "ana_uuu" (Sample.submitted "timeout")
    = (Returned (), st') ∧
    db st' !! 1 = Some a' ∧
    Job.status a' = COMPLETED ∧
    Job.result a' = Some (jsonOfResult Sample.analysis) ∧
    Job.completed_at a' = Some 1700.
Proof.
  destruct (sample_second_job "timeout") as (a & Hfind & Hst & Hcall).
  destruct (processAnalysis_model_success (Sample.world "timeout") "ana_uuu"
              (Sample.submitted "timeout") 1 a (jsonOfResult Sample.analysis)
              (sample_submitted_reachable "timeout") Hfind Hst Hcall eq_refl)
    as (st' & a' & Hrun & Hlook & Hdone & Hres & Hat & _).
  exists st', a'.
  split; [exact Hrun|]. split; [exact Hlook|]. split; [exact Hdone|].
  split; [exact Hres|exact Hat].
Defined.

(** ** The handler of the worker *)

(** The worker throws only what validation throws when the mapper
    rejects the answer of the model for a pending job; this job is then
    left in the status processing. *)
Lemma processAnalysis_throws w analysisId st e :
  (processAnalysis w analysisId st).1 = Threw e →
  ∃ key a path paths,
    list_find (λ a, Job.analysis_id a = analysisId) (db st) = Some (key, a) ∧
    Job.status a = PENDING ∧
    rejected w a = path :: paths ∧
    e = validationError (mapper w) (path :: paths) ∧
    db (processAnalysis w analysisId st).2 !! key = Some (processingDoc w a).
Proof.
  destruct (processAnalysis_cases w analysisId st)
    as [[Hrun _]|(key & a & Hfind & Hst & Hrun)]; rewrite Hrun; [done|].
  unfold workCompletion. destruct (rejected w a) as [|path paths] eqn:Hrej; [done|].
  intros [= <-]. exists key, a, path, paths. split_and!; [done..|].
  pose proof Hfind as (Hlook & _)%list_find_Some. simpl.
  assert (secondDoc w a = None) as Hsnd by (apply secondDoc_rejected; by rewrite Hrej).
  unfold outcomeDoc. rewrite Hsnd.
  apply list_lookup_insert_eq. by eapply lookup_lt_Some.
Qed.

(** A second invocation on the same identifier returns and changes
    nothing, in any world. *)
Lemma processAnalysis_again w w0 analysisId st0 :
  processAnalysis w analysisId (processAnalysis w0 analysisId st0).2
  = (Returned (), (processAnalysis w0 analysisId st0).2).
Proof.
  destruct (processAnalysis_cases w0 analysisId st0)
    as [[Hrun Hst]|(key & a & Hfind & Hst & Hrun)]; rewrite Hrun; simpl.
  - destruct (list_find (λ a, Job.analysis_id a = analysisId) (db st0))
      as [[key a]|] eqn:Hfind.
    + eapply processAnalysis_not_pending; [done|by eapply Hst].
    + by apply processAnalysis_unknown.
  - eapply processAnalysis_not_pending; [by apply list_find_afterWork|].
    apply outcomeDoc_not_pending.
Qed.

(** X12.  The handler of the worker answers 400 and touches nothing when
    the body carries no identifier or an empty one.  For any other
    identifier it runs the worker, and leaves the state the worker
    leaves.  It answers 200 with the message that the analysis was
    processed whatever the worker found (no such job, a job that is not
    pending, a job whose model call failed and that is now failed),
    unless the mapper rejected the answer of the model for a pending job:
    it then answers 500 with the message of the validation error, and the
    job is left in the status processing.  The delivery that the answer
    500 asks the queue for is of no use: any further delivery of the same
    identifier answers 200 and changes nothing. *)
Theorem process_answers w analysis_id st :
  match envSet analysis_id with
  | None =>
      Controller.process w analysis_id st
      = (Http.Answered 400 (Http.Failure "analysis_id is required"), st)
  | Some id =>
      (Controller.process w analysis_id st).2 = (processAnalysis w id st).2 ∧
      match list_find (λ a, Job.analysis_id a = id) (db st) with
      | Some (key, a) =>
          match Job.status a, rejected w a with
          | PENDING, path :: paths =>
              (Controller.process w analysis_id st).1
              = Http.Answered 500
                  (Http.Failure match validationError (mapper w) (path :: paths) with
                                | JsError message => message
                                | NonError => "Processing failed"
                                end) ∧
              db (Controller.process w analysis_id st).2 !! key
              = Some (processingDoc w a)
          | _, _ =>
              (Controller.process w analysis_id st).1
              = Http.Answered 200 (Http.SuccessMessage ("Analysis " ++ id ++ " processed"))
          end
      | None =>
          (Controller.process w analysis_id st).1
          = Http.Answered 200 (Http.SuccessMessage ("Analysis " ++ id ++ " processed"))
      end ∧
      ∀ w',
        Controller.process w' analysis_id (Controller.process w analysis_id st).2
        = (Http.Answered 200 (Http.SuccessMessage ("Analysis " ++ id ++ " processed")),
           (Controller.process w analysis_id st).2)
  end.
Proof.
  unfold Controller.process. destruct (envSet analysis_id) as [id|]; [|done].
  assert ((let (c, st') := processAnalysis w id st in
           match c with
           | Returned _ =>
               (Http.Answered 200
                  (Http.SuccessMessage ("Analysis " ++ id ++ " processed") : Http.Body unit),
                st')
           | Threw error =>
               (Http.Answered 500
                  (Http.Failure match error with
                                | JsError message => message
                                | NonError => "Processing failed"
                                end), st')
           end).2 = (processAnalysis w id st).2) as Hstate.
  { by destruct (processAnalysis w id st) as [[[]|e] st']. }
  split; [exact Hstate|]. split.
  - destruct (list_find (λ a, Job.analysis_id a = id) (db st)) as [[key a]|] eqn:Hfind.
    + destruct (decide (Job.status a = PENDING)) as [Hst|Hst].
      * rewrite (processAnalysis_pending w id st key a Hfind Hst), Hst.
        unfold workCompletion.
        destruct (rejected w a) as [|path paths] eqn:Hrej; [done|].
        split; [done|]. simpl.
        pose proof Hfind as (Hlook & _)%list_find_Some.
        rewrite list_lookup_insert_eq by by eapply lookup_lt_Some.
        assert (secondDoc w a = None) as Hsnd by (apply secondDoc_rejected; by rewrite Hrej).
        unfold outcomeDoc. by rewrite Hsnd.
      * rewrite (processAnalysis_not_pending w id st key a Hfind Hst).
        by destruct (Job.status a), (rejected w a).
    + by rewrite (processAnalysis_unknown w id st Hfind).
  - intros w'. rewrite Hstate. by rewrite processAnalysis_again.
Qed.

(** ** Object storage *)

Section storage.
Import Js JsFacts.

Lemma not_slash_Forall (s : jsstring) :
  "/"%char ∉ s ↔ Forall (λ c, negb (bool_decide (c = "/"%char)) = true) s.
Proof.
  rewrite Forall_forall. split.
  - intros Hs c Hc. apply negb_true_iff, bool_decide_eq_false. by intros ->.
  - intros Hs Hin. specialize (Hs _ Hin). by rewrite bool_decide_eq_true_2 in Hs.
Qed.

Lemma not_terminator_Forall (s : jsstring) :
  Forall (λ c, JsLib.isLineTerminator c = false) s
  ↔ Forall (λ c, negb (JsLib.isLineTerminator c) = true) s.
Proof. apply Forall_proper; [|done]. intros c. by rewrite negb_true_iff. Qed.

(** The pattern of a file reference matches exactly the texts made of
    [gs://], a bucket name that is not empty and holds no slash, a slash,
    and a path that is not empty and holds no end of line. *)
Lemma matchGcsUrl_spec gcsUrl bucketName filePath :
  Gcs.matchGcsUrl gcsUrl = Some (bucketName, filePath) ↔
  gcsUrl = "gs://" ++ bucketName ++ "/" ++ filePath ∧
  bucketName ≠ [] ∧ ("/"%char ∉ bucketName) ∧
  filePath ≠ [] ∧ Forall (λ c, JsLib.isLineTerminator c = false) filePath.
Proof.
  unfold Gcs.matchGcsUrl. split.
  - destruct (startsWith gcsUrl "gs://") eqn:Hstart; [|done].
    apply startsWith_spec in Hstart as [post ->].
    change (drop 5 ("gs://" ++ post)) with post.
    destruct (span _ post) as [b s] eqn:Hb.
    apply span_spec in Hb as (-> & Hb & Hs).
    destruct b as [|b0 b]; [done|]. destruct s as [|c path]; [done|].
    destruct (span _ path) as [p rest] eqn:Hp.
    apply span_spec in Hp as (Hpath & Hp & _).
    destruct path as [|p0 path]; [done|]. destruct rest as [|? ?]; [|done].
    intros [= <- <-]. rewrite app_nil_r in Hpath. subst p.
    specialize (Hs c eq_refl). apply negb_false_iff, bool_decide_eq_true in Hs as ->.
    split_and!; [done|done|by apply not_slash_Forall|done|by apply not_terminator_Forall].
  - intros (-> & Hb & Hslash & Hp & Hterm).
    change (startsWith _ _) with true. cbv iota.
    change (drop 5 ("gs://" ++ bucketName ++ "/" ++ filePath))
      with (bucketName ++ "/"%char :: filePath).
    rewrite (span_app _ bucketName)
      by (by apply not_slash_Forall || (simpl; by intros ? [= <-])).
    destruct bucketName as [|b0 b]; [done|].
    replace (span _ filePath) with (filePath, [] : jsstring).
    + by destruct filePath.
    + symmetry. rewrite <-(app_nil_r filePath) at 1.
      apply span_app; [by apply not_terminator_Forall|done].
Qed.

Lemma matchGcsUrl_no_path gcsUrl :
  "/"%char ∉ drop 5 gcsUrl → Gcs.matchGcsUrl gcsUrl = None.
Proof.
  intros Hno. destruct (Gcs.matchGcsUrl gcsUrl) as [[b p]|] eqn:Hm; [|done].
  exfalso. apply matchGcsUrl_spec in Hm as (-> & _). apply Hno.
  change (drop 5 ("gs://" ++ b ++ "/" ++ p)) with (b ++ "/"%char :: p).
  apply elem_of_app. right. by left.
Qed.

End storage.

(** X13.  A file reference is accepted by the download exactly when it
    is made of [gs://], a bucket name that is not empty and holds no
    slash, a slash, and a path that is not empty and holds no end of
    line; the download is then that of this path in this bucket.  On any
    other reference the download throws the error of an invalid format,
    which quotes the reference, and asks nothing of the storage. *)
Theorem downloadFile_spec g gcsUrl :
  (∀ bucketName filePath,
     Gcs.matchGcsUrl gcsUrl = Some (bucketName, filePath) ↔
     gcsUrl = "gs://" ++ bucketName ++ "/" ++ filePath ∧
     bucketName ≠ [] ∧ ("/"%char ∉ bucketName) ∧
     filePath ≠ [] ∧ Forall (λ c, JsLib.isLineTerminator c = false) filePath) ∧
  match Gcs.matchGcsUrl gcsUrl with
  | Some (bucketName, filePath) =>
      Gcs.downloadFile g gcsUrl = Gcs.download g bucketName filePath
  | None =>
      Gcs.downloadFile g gcsUrl = Threw (JsError ("Invalid GCS URL format: " ++ gcsUrl))
  end.
Proof.
  split; [intros b p; apply matchGcsUrl_spec|].
  unfold Gcs.downloadFile. by destruct (Gcs.matchGcsUrl gcsUrl) as [[b p]|].
Qed.

(** X14.  The reference an upload returns leads back to the object it
    wrote: when the name of the bucket holds no slash and neither the
    caller, the value drawn nor the name of the file holds an end of
    line, the download of the returned reference is the download of the
    object that the upload saved, in the same bucket. *)
Theorem upload_then_download g w fileBuffer originalName userId bucket st url bucket' st' :
  Gcs.uploadFile g w fileBuffer originalName userId bucket st = (Returned url, bucket', st') →
  (bucket = None ∨ bucket = envSet (Gcs.GCP_STORAGE_BUCKET g)) →
  (∀ name, envSet (Gcs.GCP_STORAGE_BUCKET g) = Some name → "/"%char ∉ name) →
  Forall (λ c, JsLib.isLineTerminator c = false)
         (userId ++ uuidv4 w (drawn st) ++ originalName) →
  ∃ name fileName,
    envSet (Gcs.GCP_STORAGE_BUCKET g) = Some name ∧
    fileName = Gcs.fileNameOf userId (uuidv4 w (drawn st)) originalName ∧
    Gcs.save g name fileName fileBuffer originalName userId (now w) = Returned () ∧
    url = "gs://" ++ name ++ "/" ++ fileName ∧
    Gcs.downloadFile g url = Gcs.download g name fileName ∧
    bucket' = Some name ∧ st' = afterDraw st.
Proof.
  intros Hrun Hbucket Hslash Hterm. unfold Gcs.uploadFile in Hrun.
  set (fileName := Gcs.fileNameOf userId (uuidv4 w (drawn st)) originalName) in *.
  assert (∃ name, envSet (Gcs.GCP_STORAGE_BUCKET g) = Some name ∧
                  Gcs.getBucket g bucket = (Returned name, Some name)) as (name & Henv & Hget).
  { unfold Gcs.getBucket, Gcs.getBucketName in *.
    destruct Hbucket as [->| ->].
    - destruct (envSet (Gcs.GCP_STORAGE_BUCKET g)) as [name|]; [by exists name|done].
    - destruct (envSet (Gcs.GCP_STORAGE_BUCKET g)) as [name|]; [by exists name|done]. }
  rewrite Hget in Hrun. unfold Gcs.getBucketName in Hrun. rewrite Henv in Hrun.
  destruct (Gcs.save g name fileName fileBuffer originalName userId (now w))
    as [[]|e] eqn:Hsave; [|done].
  injection Hrun as <- <- <-.
  exists name, fileName.
  assert (Gcs.downloadFile g ("gs://" ++ name ++ "/" ++ fileName)
          = Gcs.download g name fileName) as Hdl.
  { unfold Gcs.downloadFile.
    assert (Gcs.matchGcsUrl ("gs://" ++ name ++ "/" ++ fileName) = Some (name, fileName))
      as ->; [|done].
    apply matchGcsUrl_spec. split_and!; [done| |by apply Hslash|done|].
    - unfold envSet in Henv. destruct (Gcs.GCP_STORAGE_BUCKET g) as [[|c s]|]; [done| |done].
      by injection Henv as <-.
    - unfold fileName, Gcs.fileNameOf.
      apply Forall_app in Hterm as [Hu Hterm]. apply Forall_app in Hterm as [Hv Ho].
      repeat (apply Forall_app; split); try done; by repeat constructor. }
  split_and!; [exact Henv|reflexivity|exact Hsave|reflexivity|exact Hdl|reflexivity..].
Qed.

Lemma upload_then_download_witness :
  ∃ url,
    (Gcs.uploadFile Deployed.storage (Deployed.world None None "{}")
       Sample.file2 "two.pgn" "guest" None initial).1.1 = Returned url ∧
    url = "gs://bucket/uploads/guest/u-two.pgn" ∧
    Gcs.downloadFile Deployed.storage url
    = Gcs.download Deployed.storage "bucket" "uploads/guest/u-two.pgn".
Proof.
  destruct (Gcs.uploadFile Deployed.storage (Deployed.world None None "{}")
              Sample.file2 "two.pgn" "guest" None initial) as [[[url|e] bucket'] st'] eqn:Hrun;
    [|by vm_compute in Hrun].
  destruct (upload_then_download _ _ _ _ _ _ _ _ _ _ Hrun)
    as (name & fileName & Henv & -> & _ & -> & Hdl & _).
  - by left.
  - intros name [= <-]. vm_compute. intros Hin. by repeat (inversion Hin as [|? ? ? Hin']; subst; clear Hin; rename Hin' into Hin).
  - by repeat constructor.
  - exists ("gs://" ++ name ++ "/" ++
            Gcs.fileNameOf "guest" (uuidv4 (Deployed.world None None "{}") (drawn initial))
              "two.pgn").
    injection Henv as <-. split; [reflexivity|]. split; [reflexivity|exact Hdl].
Defined.

(** ** Submissions through the services *)

Lemma processBulkAnalysis_download_throws w pre url post userId playerName st r0 st0 e :
  processBulkAnalysis w pre userId playerName st = (Returned r0, st0) →
  downloadFile w url = Threw e →
  processBulkAnalysis w (pre ++ url :: post) userId playerName st = (Threw e, st0).
Proof.
  intros Hpre Hurl. rewrite processBulkAnalysis_unfold in Hpre |- *. rewrite forUrls_app.
  destruct (forUrls _ _ _ _ pre _ _ _) as [[[ids sk]|e'] st1]; [|done].
  injection Hpre as _ ->. by rewrite forUrls_cons, Hurl.
Qed.

(** X15.  In a process made of the services, a file reference with no
    slash after the name of its bucket, such as [gs://bucket], aborts the
    submission: once the files before it have been processed, the call
    throws the error of an invalid format that quotes the reference, and
    stops in the state reached after those files. *)
Theorem reference_without_path_aborts
    g USE_MOCK_QUEUE c m o uuid clock pre url post userId playerName st r0 st0 :
  ("/"%char ∉ drop 5 url) →
  processBulkAnalysis (serviceWorld g USE_MOCK_QUEUE c m o uuid clock)
    pre userId playerName st = (Returned r0, st0) →
  processBulkAnalysis (serviceWorld g USE_MOCK_QUEUE c m o uuid clock)
    (pre ++ url :: post) userId playerName st
  = (Threw (JsError ("Invalid GCS URL format: " ++ url)), st0).
Proof.
  intros Hurl Hpre. eapply processBulkAnalysis_download_throws; [exact Hpre|].
  change (downloadFile (serviceWorld g USE_MOCK_QUEUE c m o uuid clock) url)
    with (Gcs.downloadFile g url).
  unfold Gcs.downloadFile. by rewrite matchGcsUrl_no_path.
Qed.

Lemma reference_without_path_aborts_witness :
  ∃ st0,
    processBulkAnalysis (Deployed.world (Some ("true" : jsstring)) None "{}")
      ([Deployed.url1] ++ ("gs://bucket" : jsstring) :: [Deployed.url2])
      "guest" "ann" initial
    = (Threw (JsError "Invalid GCS URL format: gs://bucket"), st0) ∧
    length (db st0) = 2.
Proof.
  destruct (processBulkAnalysis (Deployed.world (Some ("true" : jsstring)) None "{}")
              [Deployed.url1] "guest" "ann" initial) as [[r0|e0] st0] eqn:Hpre;
    [|by vm_compute in Hpre].
  exists st0. split.
  - apply (reference_without_path_aborts Deployed.storage (Some ("true" : jsstring))
             (Deployed.client None) (Deployed.model "{}")
             Sample.mongoose (λ n, replicate (S n) "u"%char) 1700
             [Deployed.url1] "gs://bucket" [Deployed.url2] "guest" "ann" initial r0 st0).
    + vm_compute. intros Hin. inversion Hin as [|? ? ? Hin']; subst; clear Hin.
      inversion Hin' as [|? ? ? Hin]; subst; clear Hin'.
      inversion Hin as [|? ? ? Hin']; subst; clear Hin.
      inversion Hin' as [|? ? ? Hin]; subst; clear Hin'.
      inversion Hin as [|? ? ? Hin']; subst; clear Hin.
      inversion Hin' as [|? ? ? Hin]; subst; clear Hin'.
      inversion Hin.
    + exact Hpre.
  - apply (f_equal (λ x, length (db x.2))) in Hpre. simpl in Hpre. rewrite <-Hpre.
    clear. vm_compute. reflexivity.
Defined.

(** ** The answer of the model *)

Section answer.
Import JsLib.

Lemma fromFirst_Some c s r :
  fromFirst c s = Some r ↔ ∃ pre post, s = pre ++ c :: post ∧ (c ∉ pre) ∧ r = c :: post.
Proof.
  induction s as [|x s IH]; simpl.
  - split; [done|]. intros (pre & post & Heq & _). by destruct pre.
  - case_decide as Hx.
    + subst x. split.
      * intros [= <-]. exists [], s. split_and!; [done|apply not_elem_of_nil|done].
      * intros (pre & post & Heq & Hpre & ->). destruct pre as [|y pre].
        -- simpl in Heq. by injection Heq as ->.
        -- injection Heq as -> _. exfalso. apply Hpre. by left.
    + rewrite IH. split.
      * intros (pre & post & -> & Hpre & ->). exists (x :: pre), post.
        split_and!; [done| |done]. by apply not_elem_of_cons.
      * intros (pre & post & Heq & Hpre & ->). destruct pre as [|y pre].
        -- simpl in Heq. injection Heq as -> _. done.
        -- injection Heq as -> ->. exists pre, post.
           apply not_elem_of_cons in Hpre as [_ Hpre]. done.
Qed.

Lemma fromFirst_None c s : fromFirst c s = None ↔ c ∉ s.
Proof.
  induction s as [|x s IH]; simpl.
  - split; [intros _; apply not_elem_of_nil|done].
  - case_decide as Hx.
    + subst x. split; [done|]. intros Hs. exfalso. apply Hs. by left.
    + rewrite IH, not_elem_of_cons. split; [by intros ?|by intros [_ ?]].
Qed.

Lemma upToLast_Some c s r :
  upToLast c s = Some r ↔ ∃ pre post, s = pre ++ c :: post ∧ (c ∉ post) ∧ r = pre ++ [c].
Proof.
  unfold upToLast. rewrite fmap_Some. split.
  - intros (r' & (pre & post & Hs & Hpre & ->)%fromFirst_Some & ->).
    exists (reverse post), (reverse pre). split_and!.
    + apply (inj reverse). rewrite Hs, reverse_app, reverse_cons, !reverse_involutive.
      by rewrite <-(assoc_L (++)).
    + by rewrite elem_of_reverse.
    + by rewrite reverse_cons.
  - intros (pre & post & -> & Hpost & ->). exists (c :: reverse pre). split.
    + apply fromFirst_Some. exists (reverse post), (reverse pre). split_and!.
      * rewrite reverse_app, reverse_cons. by rewrite <-(assoc_L (++)).
      * by rewrite elem_of_reverse.
      * done.
    + by rewrite reverse_cons, reverse_involutive.
Qed.

Lemma upToLast_None c s : upToLast c s = None ↔ c ∉ s.
Proof.
  unfold upToLast. rewrite fmap_None, fromFirst_None. by rewrite elem_of_reverse.
Qed.

Lemma first_occurrence_unique (c : ascii) (pre post pre' post' : jsstring) :
  c ∉ pre → c ∉ pre' → pre ++ c :: post = pre' ++ c :: post' → pre = pre' ∧ post = post'.
Proof.
  revert pre'. induction pre as [|x pre IH]; intros [|y pre'] Hpre Hpre' Heq.
  - by injection Heq as ->.
  - injection Heq as -> _. exfalso. apply Hpre'. by left.
  - injection Heq as -> _. exfalso. apply Hpre. by left.
  - injection Heq as -> Heq. apply not_elem_of_cons in Hpre as [_ Hpre].
    apply not_elem_of_cons in Hpre' as [_ Hpre'].
    by destruct (IH pre' Hpre Hpre' Heq) as [-> ->].
Qed.

Lemma matchJson_Some answer json :
  Gemini.matchJson answer = Some json ↔
  ∃ pre body post,
    answer = pre ++ "{"%char :: body ++ "}"%char :: post ∧
    ("{"%char ∉ pre) ∧ ("}"%char ∉ post) ∧ json = "{"%char :: body ++ ["}"%char].
Proof.
  unfold Gemini.matchJson. split.
  - destruct (fromFirst "{"%char answer) as [[|brace rest]|] eqn:Hf; [done| |done].
    apply fromFirst_Some in Hf as (pre & post & -> & Hpre & [= -> ->]).
    rewrite fmap_Some.
    intros (body' & (body & post' & -> & Hpost & ->)%upToLast_Some & ->).
    by exists pre, body, post'.
  - intros (pre & body & post & -> & Hpre & Hpost & ->).
    assert (fromFirst "{"%char (pre ++ "{"%char :: body ++ "}"%char :: post)
            = Some ("{"%char :: body ++ "}"%char :: post)) as ->.
    { apply fromFirst_Some. by exists pre, (body ++ "}"%char :: post). }
    assert (upToLast "}"%char (body ++ "}"%char :: post) = Some (body ++ ["}"%char])) as ->.
    { apply upToLast_Some. by exists body, post. }
    done.
Qed.

Lemma matchJson_None answer :
  Gemini.matchJson answer = None ↔
  ∀ pre post, answer = pre ++ "{"%char :: post → "}"%char ∈ post → "{"%char ∈ pre.
Proof.
  unfold Gemini.matchJson. split.
  - destruct (fromFirst "{"%char answer) as [[|brace rest]|] eqn:Hf.
    + apply fromFirst_Some in Hf as (? & ? & _ & _ & [=]).
    + apply fromFirst_Some in Hf as (pre0 & post0 & -> & Hpre0 & [= -> ->]).
      rewrite fmap_None, upToLast_None. intros Hno pre post Heq Hin.
      destruct (decide ("{"%char ∈ pre)) as [|Hpre]; [done|exfalso].
      by destruct (first_occurrence_unique _ _ _ _ _ Hpre0 Hpre Heq) as [-> ->].
    + intros _ pre post -> _. apply fromFirst_None in Hf. exfalso. apply Hf.
      apply elem_of_app. right. by left.
  - intros Hno. destruct (fromFirst "{"%char answer) as [[|brace rest]|] eqn:Hf; [done| |done].
    apply fromFirst_Some in Hf as (pre0 & post0 & -> & Hpre0 & [= -> ->]).
    rewrite fmap_None, upToLast_None. intros Hin. apply Hpre0. by eapply Hno.
Qed.

End answer.

(** X16.  The text handed to the JSON parser is the part of the answer of
    the model from its first opening brace to the last closing brace after
    it: whatever stands before and after is dropped, and what lies between
    is kept as it is.  When no closing brace follows the first opening
    brace, or the answer has no opening brace, the call throws the error
    of a response that cannot be parsed, and the parser is not called. *)
Theorem analyzeGame_json m pgn metadata playerName playerColor answer :
  Gemini.generateText m
    (Gemini.buildPrompt (Gemini.contextOf pgn metadata playerName playerColor))
  = Returned answer →
  (∀ json,
     Gemini.matchJson answer = Some json ↔
     ∃ pre body post,
       answer = pre ++ "{"%char :: body ++ "}"%char :: post ∧
       ("{"%char ∉ pre) ∧ ("}"%char ∉ post) ∧ json = "{"%char :: body ++ ["}"%char]) ∧
  (∀ json, Gemini.matchJson answer = Some json →
     Gemini.analyzeGame m pgn metadata playerName playerColor = Gemini.JSON_parse m json) ∧
  ((∀ pre post, answer = pre ++ "{"%char :: post → "}"%char ∈ post → "{"%char ∈ pre) →
     Gemini.analyzeGame m pgn metadata playerName playerColor
     = Threw (JsError "Failed to parse JSON from Gemini response")).
Proof.
  intros Hanswer. split_and!.
  - intros json. apply matchJson_Some.
  - intros json Hjson. unfold Gemini.analyzeGame. by rewrite Hanswer, Hjson.
  - intros Hno%matchJson_None. unfold Gemini.analyzeGame. by rewrite Hanswer, Hno.
Qed.

Lemma analyzeGame_json_witness :
  Gemini.matchJson "Here: {} Done." = Some ("{}" : jsstring) ∧
  Gemini.analyzeGame (Deployed.model "Here: {} Done.") Sample.game2
    {| GameInfo.white := "Cy"; GameInfo.black := "Ann Lee"; GameInfo.result := "*";
       GameInfo.event := None; GameInfo.date := None |} "ann" (Some Black)
  = Returned (JObject []).
Proof.
  destruct (analyzeGame_json (Deployed.model "Here: {} Done.") Sample.game2
              {| GameInfo.white := "Cy"; GameInfo.black := "Ann Lee"; GameInfo.result := "*";
                 GameInfo.event := None; GameInfo.date := None |} "ann" (Some Black)
              "Here: {} Done." eq_refl) as (Hmatch & Hparse & _).
  assert (Gemini.matchJson "Here: {} Done." = Some ("{}" : jsstring)) as Hjson.
  { apply Hmatch. exists ("Here: " : jsstring), [], (" Done." : jsstring).
    split; [reflexivity|]. split; [|split; [|reflexivity]].
    - refine (bool_decide_unpack _ _). vm_compute. exact I.
    - refine (bool_decide_unpack _ _). vm_compute. exact I. }
  split; [exact Hjson|]. rewrite (Hparse _ Hjson). reflexivity.
Defined.

(** ** The worker with the model service *)

Lemma modelCall_serviceWorld g USE_MOCK_QUEUE c m o uuid clock a :
  modelCall (serviceWorld g USE_MOCK_QUEUE c m o uuid clock) a
  = match Gemini.generateText m (Gemini.buildPrompt (jobContext a)) with
    | Threw error => Threw error
    | Returned answer =>
        match Gemini.matchJson answer with
        | None => Threw (JsError "Failed to parse JSON from Gemini response")
        | Some jsonMatch => Gemini.JSON_parse m jsonMatch
        end
    end.
Proof. done. Qed.

Lemma processAnalysis_outcome w analysisId st key a :
  reachable st →
  list_find (λ a, Job.analysis_id a = analysisId) (db st) = Some (key, a) →
  Job.status a = PENDING →
  processAnalysis w analysisId st = (workCompletion w a, afterWork w st key a) ∧
  db (afterWork w st key a) !! key = Some (outcomeDoc w a) ∧
  Job.result a = Some Schema.defaultResult ∧ Job.error a = None.
Proof.
  intros Hreach Hfind Hst.
  pose proof Hfind as (Hlook & _)%list_find_Some.
  destruct (reachable_pending st key a Hreach Hlook Hst) as (Hr & He & _).
  split_and!; [by apply processAnalysis_pending| |done|done].
  simpl. apply list_lookup_insert_eq. by eapply lookup_lt_Some.
Qed.

(** X17.  In a process made of the services, the answer of the model
    decides the fate of a pending job.  When no JSON object can be cut out
    of the answer, the job ends failed, and its failure reason is the text
    of the error of a response that cannot be parsed; when the parser
    throws on the object cut out, the job ends failed with the message of
    that error; in both cases the result stays the default of the schema.
    When the parser returns a value that the mapper accepts, the job ends
    completed with the value that the mapper stores for it.  The worker
    returns in these three cases.  When the parser returns a value that
    the mapper rejects, the worker throws what validation throws, and the
    job is left in the status processing, with neither the value nor a
    failure reason. *)
Theorem answer_decides_job g USE_MOCK_QUEUE c m o uuid clock analysisId st key a answer :
  reachable st →
  list_find (λ a, Job.analysis_id a = analysisId) (db st) = Some (key, a) →
  Job.status a = PENDING →
  Gemini.generateText m (Gemini.buildPrompt (jobContext a)) = Returned answer →
  ∃ completion st' a',
    processAnalysis (serviceWorld g USE_MOCK_QUEUE c m o uuid clock) analysisId st
    = (completion, st') ∧
    db st' !! key = Some a' ∧
    match Gemini.matchJson answer with
    | None =>
        completion = Returned () ∧
        Job.status a' = FAILED ∧ Job.result a' = Some Schema.defaultResult ∧
        Job.error a' = Some ("Failed to parse JSON from Gemini response" : jsstring)
    | Some json =>
        match Gemini.JSON_parse m json with
        | Returned r =>
            match (castResult o r).2 with
            | [] =>
                completion = Returned () ∧
                Job.status a' = COMPLETED ∧ Job.result a' = Some (castResult o r).1 ∧
                Job.error a' = None
            | path :: paths =>
                completion = Threw (validationError o (path :: paths)) ∧
                Job.status a' = PROCESSING ∧
                Job.result a' = Some Schema.defaultResult ∧ Job.error a' = None
            end
        | Threw e =>
            completion = Returned () ∧
            Job.status a' = FAILED ∧ Job.result a' = Some Schema.defaultResult ∧
            Job.error a' = Some (failureReason e)
        end
    end.
Proof.
  intros Hreach Hfind Hst Hanswer.
  destruct (processAnalysis_outcome (serviceWorld g USE_MOCK_QUEUE c m o uuid clock)
              analysisId st key a Hreach Hfind Hst) as (Hrun & Hlook & Hr & He).
  eexists _, _, _. split; [exact Hrun|]. split; [exact Hlook|].
  unfold workCompletion, rejected, outcomeDoc, secondDoc.
  rewrite modelCall_serviceWorld, Hanswer.
  destruct (Gemini.matchJson answer) as [json|].
  - destruct (Gemini.JSON_parse m json) as [r|e]; [|by split_and!].
    change (mapper (serviceWorld g USE_MOCK_QUEUE c m o uuid clock)) with o.
    destruct (castResult o r).2; by split_and!.
  - by split_and!.
Qed.

Lemma sample_deployed_job answer :
  ∃ a, list_find (λ a, Job.analysis_id a = ("ana_uu" : jsstring))
         (db (processBulkAnalysis (Deployed.world (Some ("true" : jsstring)) None answer)
                [Deployed.url1] "guest" "ann" initial).2) = Some (0, a) ∧
       Job.status a = PENDING.
Proof. eexists. split_and!; by vm_compute. Qed.

Lemma answer_decides_job_witness :
  ∃ st' a',
    processAnalysis (Deployed.world (Some ("true" : jsstring)) None Deployed.illTyped)
      "ana_uu"
      (processBulkAnalysis (Deployed.world (Some ("true" : jsstring)) None Deployed.illTyped)
         [Deployed.url1] "guest" "ann" initial).2
    = (Threw (JsError "Analysis validation failed: result.key_moments"), st') ∧
    db st' !! 0 = Some a' ∧
    Job.status a' = PROCESSING ∧
    Job.error a' = None.
Proof.
  destruct (sample_deployed_job Deployed.illTyped) as (a & Hfind & Hst).
  destruct (answer_decides_job Deployed.storage (Some ("true" : jsstring))
              (Deployed.client None) (Deployed.model Deployed.illTyped)
              Sample.mongoose (λ n, replicate (S n) "u"%char) 1700 "ana_uu"
              (processBulkAnalysis (Deployed.world (Some ("true" : jsstring)) None
                                      Deployed.illTyped)
                 [Deployed.url1] "guest" "ann" initial).2 0 a Deployed.illTyped)
    as (completion & st' & a' & Hrun & Hlook & Hthrown & Hstatus & _ & Herr).
  - apply rtc_once, step_submit.
  - exact Hfind.
  - exact Hst.
  - reflexivity.
  - exists st', a'. split; [|split; [exact Hlook|split; [exact Hstatus|exact Herr]]].
    etrans; [exact Hrun|]. rewrite Hthrown. reflexivity.
Defined.

(** ** The text of the prompt *)

Lemma getHeader_missing_orElse name pgn sentinel :
  missing name pgn → orElse (getHeader name pgn) sentinel = sentinel.
Proof. intros Hm%getHeader_None. by rewrite Hm. Qed.

(** X18.  What the prompt says of a job whose game text lacks a header.
    With no result header, the metadata carry the asterisk, which is
    neither a win of white nor a win of black: the prompt gives the result
    as the asterisk and says of the subject that they drew.  With no event
    or date header, the worker hands the empty string to the model
    service, and the prompt gives the event or the date as unknown. *)
Theorem prompt_of_missing_headers a :
  Job.metadata a = parseHeaders (Job.pgn a) →
  (missing "Result" (Job.pgn a) →
     Gemini.playerResult (jobContext a) = "drew" ∧
     ("- Result: *" : jsstring) ∈ Gemini.promptLines (jobContext a) ∧
     ("- **Player being analyzed**: " ++ Job.player_name a ++ " ("
        ++ Gemini.playerSide (jobContext a) ++ ") - drew")
       ∈ Gemini.promptLines (jobContext a)) ∧
  (missing "Event" (Job.pgn a) →
     ("- Event: Unknown" : jsstring) ∈ Gemini.promptLines (jobContext a)) ∧
  (missing "Date" (Job.pgn a) →
     ("- Date: Unknown" : jsstring) ∈ Gemini.promptLines (jobContext a)).
Proof.
  intros Hmeta.
  assert (∀ line pre post, Gemini.promptLines (jobContext a) = pre ++ line :: post →
                           line ∈ Gemini.promptLines (jobContext a)) as Hin.
  { intros line pre post ->. apply elem_of_app. right. by left. }
  split_and!.
  - intros Hmiss.
    assert (Ctx.result (jobContext a) = "*") as Hres.
    { unfold jobContext, Gemini.contextOf, gameInfo. cbn [Ctx.result GameInfo.result].
      rewrite Hmeta. unfold parseHeaders. cbn [Metadata.result].
      by apply getHeader_missing_orElse. }
    assert (Gemini.playerResult (jobContext a) = "drew") as Hdrew.
    { unfold Gemini.playerResult. by rewrite Hres. }
    split; [exact Hdrew|]. split.
    + apply (Hin _ (take 5 (Gemini.promptLines (jobContext a)))
                   (drop 6 (Gemini.promptLines (jobContext a)))).
      unfold Gemini.promptLines. cbn [take drop app]. by rewrite Hres.
    + apply (Hin _ (take 8 (Gemini.promptLines (jobContext a)))
                   (drop 9 (Gemini.promptLines (jobContext a)))).
      unfold Gemini.promptLines. cbn [take drop app]. by rewrite Hdrew.
  - intros Hmiss.
    assert (orElse (Ctx.event (jobContext a)) "Unknown" = "Unknown") as Hev.
    { unfold jobContext, Gemini.contextOf, gameInfo. cbn [Ctx.event GameInfo.event].
      rewrite Hmeta. unfold parseHeaders. cbn [Metadata.event].
      apply getHeader_None in Hmiss. by rewrite Hmiss. }
    apply (Hin _ (take 6 (Gemini.promptLines (jobContext a)))
                 (drop 7 (Gemini.promptLines (jobContext a)))).
    unfold Gemini.promptLines. cbn [take drop app]. by rewrite Hev.
  - intros Hmiss.
    assert (orElse (Ctx.date (jobContext a)) "Unknown" = "Unknown") as Hd.
    { unfold jobContext, Gemini.contextOf, gameInfo. cbn [Ctx.date GameInfo.date].
      rewrite Hmeta. unfold parseHeaders. cbn [Metadata.date].
      apply getHeader_None in Hmiss. by rewrite Hmiss. }
    apply (Hin _ (take 7 (Gemini.promptLines (jobContext a)))
                 (drop 8 (Gemini.promptLines (jobContext a)))).
    unfold Gemini.promptLines. cbn [take drop app]. by rewrite Hd.
Qed.

Lemma prompt_of_missing_headers_witness :
  Gemini.playerResult
    (jobContext (newAnalysis (Sample.world "timeout") "ana_uuu" "guest" "batch_u"
                   Sample.url1 "ann" Black (parsedGame Sample.game2))) = "drew".
Proof.
  apply (prompt_of_missing_headers
           (newAnalysis (Sample.world "timeout") "ana_uuu" "guest" "batch_u"
              Sample.url1 "ann" Black (parsedGame Sample.game2))).
  - reflexivity.
  - apply getHeader_None. vm_compute. reflexivity.
Defined.

(** ** Dispatch *)

Section dispatch.
Context (w : World) (userId playerName : jsstring).

(** A submission when every dispatch throws [e]: it stops at the first
    game in which the subject has a side. *)
Lemma processBulkAnalysis_dispatch_down urls st e :
  playerName ≠ [] →
  (∀ analysisId, enqueue w analysisId = Threw e) →
  (∀ url, url ∈ urls → ∃ pgnContent, downloadFile w url = Returned pgnContent) →
  filter (resolvable playerName) (parsedGames w urls) ≠ [] →
  ∃ a st',
    processBulkAnalysis w urls userId playerName st = (Threw e, st') ∧
    db st' = db st ++ [a] ∧ freshJob userId playerName a ∧
    Job.analysis_id a = analysisIdOf w (S (drawn st)) ∧
    queue st' = queue st.
Proof.
  intros Hname Hall Hd Hres. rewrite processBulkAnalysis_unfold.
  destruct (forUrls _ _ _ _ _ _ _ _) as [[[ids sk]|e'] st1] eqn:Hf.
  - exfalso.
    pose proof Hf as (new & Hdb & _ & _ & _ & _ & _ & _ & Hack)%forUrls_outcome.
    apply forUrls_returned in Hf as (_ & -> & _). cbn [db afterJobs] in Hdb.
    apply app_inv_head in Hdb.
    destruct new as [|a new].
    + apply Hres. apply (f_equal length) in Hdb. rewrite createdJobs_length in Hdb.
      by apply nil_length_inv.
    + apply Forall_cons in Hack as [Ha _]. by rewrite Hall in Ha.
  - apply forUrls_outcome in Hf as (new & Hdb & _ & Hids & Hfresh & Hc).
    destruct Hc as [(url & Hin & Hurl & _)
                   |[(sent & a & -> & Ha & Hq & Hack)|(Hempty & _)]]; [| |done].
    + destruct (Hd url Hin) as [pgnContent Hok]. by rewrite Hok in Hurl.
    + destruct sent as [|b sent].
      * rewrite Hall in Ha. injection Ha as <-.
        exists a, st1. rewrite app_nil_l in Hfresh, Hdb.
        apply Forall_cons in Hfresh as [Hfresh _].
        simpl in Hids. injection Hids as Hid. rewrite app_nil_r in Hq.
        by split_and!.
      * apply Forall_cons in Hack as [Hb _]. by rewrite Hall in Hb.
Qed.

End dispatch.

Lemma enqueue_unconfigured g USE_MOCK_QUEUE c m o uuid clock analysisId :
  USE_MOCK_QUEUE ≠ Some ("true" : jsstring) →
  envSet (CloudTasks.GCP_PROJECT_ID c) = None →
  enqueue (serviceWorld g USE_MOCK_QUEUE c m o uuid clock) analysisId
  = Threw (JsError "GCP_PROJECT_ID environment variable is not set").
Proof.
  intros Hmock Hproject. cbn [enqueue serviceWorld].
  unfold Queue.enqueue, Queue.getQueueService.
  rewrite bool_decide_eq_false_2 by done. cbn [fst].
  unfold CloudTasks.enqueueAnalysis, CloudTasks.getQueuePath. by rewrite Hproject.
Qed.

(** X19.  In a process whose dispatch goes to the task queue (the mock
    queue is chosen only when the variable that selects it is exactly the
    text true) and whose project identifier is not set, no task is ever
    created: a submission in which the subject has a side in some game,
    all files being retrieved, throws the error that names the missing
    variable, at its first such game.  The job of this game has been
    created before: it stays in the collection, pending, and nothing has
    reached the queue.  The subject name is not empty: validation would
    reject the job before its dispatch. *)
Theorem unconfigured_queue_strands_job
    g USE_MOCK_QUEUE c m o uuid clock urls userId playerName st :
  playerName ≠ [] →
  USE_MOCK_QUEUE ≠ Some ("true" : jsstring) →
  envSet (CloudTasks.GCP_PROJECT_ID c) = None →
  (∀ url, url ∈ urls → ∃ pgnContent, Gcs.downloadFile g url = Returned pgnContent) →
  filter (resolvable playerName)
    (parsedGames (serviceWorld g USE_MOCK_QUEUE c m o uuid clock) urls) ≠ [] →
  ∃ a st',
    processBulkAnalysis (serviceWorld g USE_MOCK_QUEUE c m o uuid clock)
      urls userId playerName st
    = (Threw (JsError "GCP_PROJECT_ID environment variable is not set"), st') ∧
    db st' = db st ++ [a] ∧ freshJob userId playerName a ∧
    Job.analysis_id a = "ana_" ++ uuid (S (drawn st)) ∧
    queue st' = queue st.
Proof.
  intros Hname Hmock Hproject Hd Hres.
  apply processBulkAnalysis_dispatch_down; [exact Hname| |exact Hd|exact Hres].
  intros analysisId. by apply enqueue_unconfigured.
Qed.

Lemma unconfigured_queue_strands_job_witness :
  ∃ a st',
    processBulkAnalysis (Deployed.world None None "{}")
      [Deployed.url1; Deployed.url2] "guest" "ann" initial
    = (Threw (JsError "GCP_PROJECT_ID environment variable is not set"), st') ∧
    db st' = [a] ∧ Job.analysis_id a = "ana_uu" ∧ queue st' = [].
Proof.
  destruct (unconfigured_queue_strands_job Deployed.storage None (Deployed.client None)
              (Deployed.model "{}") Sample.mongoose (λ n, replicate (S n) "u"%char) 1700
              [Deployed.url1; Deployed.url2] "guest" "ann" initial)
    as (a & st' & Hrun & Hdb & _ & Hid & Hq).
  - discriminate.
  - discriminate.
  - reflexivity.
  - intros url Hin. apply elem_of_cons in Hin as [->|Hin]; [by eexists|].
    apply elem_of_cons in Hin as [->|Hin]; [by eexists|]. by apply elem_of_nil in Hin.
  - vm_compute. discriminate.
  - exists a, st'. split; [exact Hrun|]. split; [exact Hdb|]. split; [exact Hid|exact Hq].
Defined.

(** ** From submission to settled jobs *)

Section pipeline.
Context (w : World).

Lemma runWorker_cons analysisId analysisIds st :
  runWorker w (analysisId :: analysisIds) st
  = runWorker w analysisIds (processAnalysis w analysisId st).2.
Proof. done. Qed.

Lemma runWorker_run analysisIds st : rtc step st (runWorker w analysisIds st).
Proof.
  revert st. induction analysisIds as [|analysisId analysisIds IH]; intros st; [done|].
  rewrite runWorker_cons. eapply rtc_l; [apply step_work|apply IH].
Qed.

Lemma run_persist st st' key a :
  rtc step st st' → db st !! key = Some a →
  ∃ a', db st' !! key = Some a' ∧ sameSubmission a a' ∧ (Job.status a ≠ PENDING → a' = a).
Proof.
  intros Hrun. revert a. induction Hrun as [st|st1 st2 st3 Hstep _ IH]; intros a Hlook.
  - exists a. split_and!; [done|apply sameSubmission_refl|done].
  - destruct (step_persist _ _ _ _ Hstep Hlook) as (a1 & Hlook1 & Hadv1 & Hsame1 & Hfix1).
    destruct (IH a1 Hlook1) as (a2 & Hlook2 & Hsame2 & Hfix2).
    exists a2. split_and!; [done|by eapply sameSubmission_trans|].
    intros Hst. rewrite <-(Hfix1 Hst). apply Hfix2. by eapply advances_not_pending.
Qed.

Lemma runWorker_ids analysisIds st :
  Job.analysis_id <$> db (runWorker w analysisIds st) = Job.analysis_id <$> db st.
Proof.
  revert st. induction analysisIds as [|analysisId analysisIds IH]; intros st; [done|].
  rewrite runWorker_cons, IH. apply processAnalysis_ids.
Qed.

(** Once invoked on the identifier of a job, the worker leaves the job in
    a status other than pending: for a pending job, with the outcome of
    the invocation. *)
Lemma processAnalysis_settles st key a :
  NoDup (Job.analysis_id <$> db st) → db st !! key = Some a →
  ∃ a', db (processAnalysis w (Job.analysis_id a) st).2 !! key = Some a' ∧
        sameSubmission a a' ∧ Job.status a' ≠ PENDING ∧
        (Job.status a = PENDING → a' = outcomeDoc w a).
Proof.
  intros Hnd Hlook. pose proof (list_find_unique _ _ _ Hnd Hlook) as Hfind.
  destruct (decide (Job.status a = PENDING)) as [Hst|Hst].
  - rewrite (processAnalysis_pending w _ st key a Hfind Hst). simpl.
    exists (outcomeDoc w a). split_and!.
    + apply list_lookup_insert_eq. by eapply lookup_lt_Some.
    + apply sameSubmission_outcome.
    + apply outcomeDoc_not_pending.
    + done.
  - rewrite (processAnalysis_not_pending w _ st key a Hfind Hst). simpl.
    exists a. split_and!; [done|apply sameSubmission_refl|done|done].
Qed.

(** The status in which the worker leaves a pending job: completed or
    failed, or processing when the mapper rejects the answer of the
    model. *)
Lemma outcomeDoc_settled a :
  match rejected w a with
  | [] => Job.status (outcomeDoc w a) = COMPLETED ∨ Job.status (outcomeDoc w a) = FAILED
  | _ :: _ => Job.status (outcomeDoc w a) = PROCESSING
  end.
Proof.
  unfold rejected, outcomeDoc, secondDoc. destruct (modelCall w a) as [r|e]; [|by right].
  destruct (castResult (mapper w) r).2; [by left|done].
Qed.

Lemma rejected_outcomeDoc a : rejected w (outcomeDoc w a) = rejected w a.
Proof.
  unfold outcomeDoc, secondDoc. destruct (modelCall w a) as [r|e] eqn:Hcall; [|done].
  by destruct (castResult (mapper w) r).2.
Qed.

Lemma runWorker_settles analysisIds st :
  NoDup (Job.analysis_id <$> db st) →
  Forall (λ analysisId, ∃ key a, db st !! key = Some a ∧ Job.analysis_id a = analysisId)
         analysisIds →
  Forall (λ analysisId,
            ∃ key a a', db st !! key = Some a ∧ Job.analysis_id a = analysisId ∧
                        db (runWorker w analysisIds st) !! key = Some a' ∧
                        sameSubmission a a' ∧ Job.status a' ≠ PENDING ∧
                        (Job.status a = PENDING → a' = outcomeDoc w a))
         analysisIds.
Proof.
  revert st. induction analysisIds as [|analysisId analysisIds IH]; intros st Hnd Hall;
    [constructor|].
  apply Forall_cons in Hall as [(key & a & Hlook & Hid) Hall].
  rewrite runWorker_cons. constructor.
  - destruct (processAnalysis_settles st key a Hnd Hlook)
      as (a1 & Hlook1 & Hsame1 & Hst1 & Hout1).
    rewrite Hid in Hlook1.
    destruct (run_persist _ _ key a1 (runWorker_run analysisIds _) Hlook1)
      as (a2 & Hlook2 & _ & Hfix).
    rewrite (Hfix Hst1) in Hlook2. by exists key, a, a1.
  - assert (NoDup (Job.analysis_id <$> db (processAnalysis w analysisId st).2)) as Hnd'.
    { by rewrite (proj1 (processAnalysis_ids w analysisId st)). }
    assert (Forall (λ analysisId',
                      ∃ key a, db (processAnalysis w analysisId st).2 !! key = Some a ∧
                               Job.analysis_id a = analysisId') analysisIds) as Hall'.
    { eapply Forall_impl; [exact Hall|]. intros id' (key' & a' & Hlook' & Hid').
      destruct (step_persist st _ key' a' (step_work w analysisId st) Hlook')
        as (a1 & Hlook1 & _ & Hsame & _).
      exists key', a1. split; [done|]. destruct Hsame as [-> _]. done. }
    eapply Forall_impl; [apply (IH _ Hnd' Hall')|].
    intros id' (key' & a1 & a2 & Hlook1 & Hid1 & Hlook2 & Hsame2 & Hst2 & Hout2).
    assert (∃ a0, db st !! key' = Some a0) as [a0 Hlook0].
    { apply lookup_lt_is_Some. apply lookup_lt_Some in Hlook1.
      rewrite <-(length_fmap Job.analysis_id) in Hlook1 |- *.
      by rewrite (proj1 (processAnalysis_ids w analysisId st)) in Hlook1. }
    destruct (decide (Job.analysis_id a0 = analysisId)) as [Hsame|Hother].
    + destruct (processAnalysis_settles st key' a0 Hnd Hlook0)
        as (a1' & Hlook1' & Hsame0 & Hst0 & Hout0).
      rewrite Hsame in Hlook1'. assert (a1' = a1) as -> by congruence.
      exists key', a0, a2. split_and!; [done| |done| |done|].
      * destruct Hsame0 as [<- _]. done.
      * by eapply sameSubmission_trans.
      * intros Hp. rewrite <-(Hout0 Hp).
        destruct (run_persist _ _ key' a1 (runWorker_run analysisIds _) Hlook1)
          as (a2' & Hlook2' & _ & Hfix).
        rewrite (Hfix Hst0) in Hlook2'. congruence.
    + assert (db (processAnalysis w analysisId st).2 !! key' = Some a0) as Hkeep.
      { destruct (processAnalysis_cases w analysisId st)
          as [[Hrun Hst]|(key0 & b & Hfind & Hst & Hrun)]; rewrite Hrun; [done|].
        simpl. pose proof Hfind as (Hlookb & Hidb & _)%list_find_Some.
        rewrite list_lookup_insert_ne; [done|]. intros ->.
        apply Hother. congruence. }
      assert (a1 = a0) as -> by congruence.
      by exists key', a0, a2.
Qed.

Lemma runWorker_reachable analysisIds st : reachable st → reachable (runWorker w analysisIds st).
Proof. intros Hreach. unfold reachable in *. etrans; [exact Hreach|apply runWorker_run]. Qed.

End pipeline.

Lemma processBulkAnalysis_creates_core w urls userId playerName st r st1 :
  processBulkAnalysis w urls userId playerName st = (Returned r, st1) →
  ∃ new, db st1 = db st ++ new ∧ analysis_ids r = (Job.analysis_id <$> new) ∧
         Forall (λ a, Job.user_id a = userId ∧ Job.status a = PENDING) new.
Proof.
  rewrite processBulkAnalysis_unfold.
  destruct (forUrls _ _ _ _ _ _ _ _) as [[[ids sk]|e] st'] eqn:Hf; [|done].
  apply forUrls_outcome in Hf as (new & Hdb & _ & _ & Hfresh & _ & -> & _).
  intros [= <- <-]. exists new. split_and!; [done|done|].
  eapply Forall_impl; [exact Hfresh|]. by intros a (? & ? & _).
Qed.

(** X20.  From submission to settled jobs.  With a generator that never
    gives the same value twice, after a submission that returns and one
    invocation of the worker for each identifier it returned, in the order
    of their dispatch, every job of the submission is in the collection,
    owned by the caller, and none is pending: it is completed or failed,
    unless the mapper rejects the answer of the model for it, and then it
    is left in the status processing.  The status query of the caller for
    the identifiers returned then has exactly these identifiers as keys,
    and no status it gives is pending. *)
Theorem submitted_jobs_settle w urls userId playerName st r st1 :
  Inj (=) (=) (uuidv4 w) → reachableIn w st →
  processBulkAnalysis w urls userId playerName st = (Returned r, st1) →
  Forall (λ analysisId,
            ∃ a, a ∈ db (runWorker w (analysis_ids r) st1) ∧
                 Job.analysis_id a = analysisId ∧ Job.user_id a = userId ∧
                 match rejected w a with
                 | [] => Job.status a = COMPLETED ∨ Job.status a = FAILED
                 | _ :: _ => Job.status a = PROCESSING
                 end)
         (analysis_ids r) ∧
  ∃ result,
    getAnalysesStatus (analysis_ids r) userId (runWorker w (analysis_ids r) st1)
    = (Returned result, runWorker w (analysis_ids r) st1) ∧
    dom result = list_to_set (analysis_ids r) ∧
    ∀ analysisId entry, result !! analysisId = Some entry →
      StatusEntry.status entry ≠ PENDING.
Proof.
  intros Hinj Hreach Hrun.
  assert (reachableIn w st1) as Hreach1.
  { eapply rtc_r; [exact Hreach|].
    replace st1 with (processBulkAnalysis w urls userId playerName st).2 by by rewrite Hrun.
    apply stepIn_submit. }
  pose proof (reachableIn_NoDup w st1 Hinj Hreach1) as Hnd1.
  set (st2 := runWorker w (analysis_ids r) st1).
  assert (NoDup (Job.analysis_id <$> db st2)) as Hnd2.
  { unfold st2. by rewrite runWorker_ids. }
  destruct (processBulkAnalysis_creates_core w urls userId playerName st r st1 Hrun)
    as (new & Hdb & Hids & Hfresh).
  assert (Forall (λ analysisId,
                    ∃ key a, db st1 !! key = Some a ∧ Job.analysis_id a = analysisId)
                 (analysis_ids r)) as Hall.
  { rewrite Hids. apply Forall_fmap, Forall_forall. intros a Ha.
    apply list_elem_of_lookup in Ha as [i Hi]. exists (length (db st) + i), a.
    split; [|done]. rewrite Hdb, lookup_app_r by lia.
    by replace (length (db st) + i - length (db st)) with i by lia. }
  assert (Forall (λ analysisId,
                    ∃ a, a ∈ db st2 ∧
                         Job.analysis_id a = analysisId ∧ Job.user_id a = userId ∧
                         Job.status a ≠ PENDING ∧
                         match rejected w a with
                         | [] => Job.status a = COMPLETED ∨ Job.status a = FAILED
                         | _ :: _ => Job.status a = PROCESSING
                         end)
                 (analysis_ids r)) as Hsettled.
  { pose proof (runWorker_settles w (analysis_ids r) st1 Hnd1 Hall) as Hset.
    rewrite Forall_forall in Hset |- *. intros analysisId Hin.
    destruct (Hset analysisId Hin)
      as (key & a & a' & Hlook & Hid & Hlook' & Hsame & Hst & Hout).
    assert (Job.user_id a = userId ∧ Job.status a = PENDING) as [Hu Hp].
    { rewrite Hids in Hin.
      apply list_elem_of_fmap in Hin as (b & Hb & Hbin).
      apply list_elem_of_lookup in Hbin as [i Hi].
      assert (db st1 !! (length (db st) + i) = Some b) as Hlookb.
      { rewrite Hdb, lookup_app_r by lia.
        by replace (length (db st) + i - length (db st)) with i by lia. }
      assert (key = length (db st) + i) as ->.
      { eapply NoDup_lookup; [exact Hnd1|..]; rewrite list_lookup_fmap.
        - by rewrite Hlook.
        - rewrite Hlookb. simpl. by rewrite <-Hb, Hid. }
      assert (a = b) as -> by congruence.
      rewrite Forall_forall in Hfresh.
      exact (Hfresh b (list_elem_of_lookup_2 _ _ _ Hi)). }
    exists a'. destruct Hsame as (Hid' & Hu' & _). split_and!.
    - by eapply list_elem_of_lookup_2.
    - by rewrite Hid'.
    - by rewrite Hu'.
    - done.
    - rewrite (Hout Hp), rejected_outcomeDoc. apply outcomeDoc_settled. }
  split.
  { eapply Forall_impl; [exact Hsettled|].
    intros analysisId (a & Hin & Hid & Hu & _ & Hst). by exists a. }
  eexists. split; [apply getAnalysesStatus_unfold|]. split.
  - apply set_eq. intros k.
    rewrite (getAnalysesStatus_dom (analysis_ids r) userId st2 _ k)
      by apply getAnalysesStatus_unfold.
    rewrite elem_of_list_to_set. split; [by intros [? _]|].
    intros Hk. split; [done|]. rewrite Forall_forall in Hsettled.
    destruct (Hsettled k Hk) as (a & Hin & Hid & Hu & _). by exists a.
  - intros analysisId entry Hentry.
    assert (analysisId ∈ Job.analysis_id <$>
              filter (λ a, Job.analysis_id a ∈ analysis_ids r ∧ Job.user_id a = userId)
                     (db st2)) as Hkey.
    { apply (elem_of_list_to_set (C := gset jsstring)). rewrite <-statusMap_dom.
      apply elem_of_dom. by eexists. }
    destruct (statusMap_lookup_some _ _ Hkey) as (a & Hin & Hid & Hlook).
    rewrite Hlook in Hentry. injection Hentry as <-. simpl.
    apply list_elem_of_filter in Hin as [[Hq _] Hin].
    rewrite Forall_forall in Hsettled.
    destruct (Hsettled _ Hq) as (a' & Hin' & Hid' & _ & Hst' & _).
    assert (a' = a) as ->; [|done].
    apply list_elem_of_lookup in Hin as [i Hi]. apply list_elem_of_lookup in Hin' as [j Hj].
    assert (j = i) as ->; [|congruence].
    eapply NoDup_lookup; [exact Hnd2|..]; rewrite list_lookup_fmap.
    + by rewrite Hj.
    + rewrite Hi. simpl. by rewrite Hid'.
Qed.

Lemma submitted_jobs_settle_witness :
  ∃ r st1,
    processBulkAnalysis (Sample.world "timeout") Sample.urls "guest" "ann" initial
    = (Returned r, st1) ∧
    analysis_ids r = ["ana_uu" : jsstring; "ana_uuu" : jsstring] ∧
    Forall (λ analysisId,
              ∃ a, a ∈ db (runWorker (Sample.world "timeout") (analysis_ids r) st1) ∧
                   Job.analysis_id a = analysisId ∧ Job.user_id a = "guest" ∧
                   match rejected (Sample.world "timeout") a with
                   | [] => Job.status a = COMPLETED ∨ Job.status a = FAILED
                   | _ :: _ => Job.status a = PROCESSING
                   end)
           (analysis_ids r).
Proof.
  destruct (processBulkAnalysis (Sample.world "timeout") Sample.urls "guest" "ann" initial)
    as [[r|e] st1] eqn:Hrun; [|by vm_compute in Hrun].
  exists r, st1. split; [reflexivity|]. split.
  - apply (f_equal (λ x, match x.1 with Returned r => analysis_ids r | Threw _ => [] end))
      in Hrun.
    simpl in Hrun. rewrite <-Hrun. clear. vm_compute. reflexivity.
  - apply (submitted_jobs_settle (Sample.world "timeout") Sample.urls "guest" "ann"
             initial r st1).
    + apply sample_uuidv4_inj.
    + apply rtc_refl.
    + exact Hrun.
Defined.

(** ** Handlers and routes *)

Section routes.
Import JsLib.

Lemma getAnalysisById_spec analysisId userId st :
  ∃ found, getAnalysisById analysisId userId st = (Returned found, st) ∧
    match found with
    | Some a => a ∈ db st ∧ Job.analysis_id a = analysisId ∧ Job.user_id a = userId
    | None => ¬ ownedJob st userId analysisId
    end.
Proof.
  unfold getAnalysisById. eexists. split; [done|].
  destruct (list_find _ (db st)) as [[key a]|] eqn:Hfind; simpl.
  - apply list_find_Some in Hfind as (Hlook & [Hid Hu] & _).
    split_and!; [by eapply list_elem_of_lookup_2|done|done].
  - intros (a & Hin & Hid & Hu).
    apply list_find_None in Hfind. rewrite Forall_forall in Hfind.
    by apply (Hfind a Hin).
Qed.

(** The pieces of a split hold no separator and, joined with it, give
    the text back. *)
Lemma splitBy_spec sep cur s :
  sep ∉ cur →
  Forall (λ piece, sep ∉ piece) (splitBy sep cur s) ∧
  join [sep] (splitBy sep cur s) = cur ++ s.
Proof.
  revert cur. induction s as [|c t IH]; intros cur Hcur; simpl.
  - split; [by apply Forall_singleton|by rewrite app_nil_r].
  - case_decide as Hc.
    + subst c. destruct (IH [] (not_elem_of_nil _)) as [Hall Hjoin]. split.
      * by constructor.
      * destruct (splitBy sep [] t) as [|p ps] eqn:Hs.
        { by destruct t; simpl in Hs; [|case_decide]. }
        change (join [sep] (cur :: p :: ps)) with (cur ++ [sep] ++ join [sep] (p :: ps)).
        by rewrite Hjoin.
    + destruct (IH (cur ++ [c])) as [Hall Hjoin].
      * rewrite elem_of_app, list_elem_of_singleton. by intros [|].
      * split; [done|]. by rewrite Hjoin, <-(assoc_L (++)).
Qed.

End routes.

(** X21.  Reading one job through its route.  The caller is the user of
    a bearer token that verifies, and the guest in every other case.  The
    route answers 200 with a job only if this job has the identifier asked
    for and belongs to the caller, and it answers 404, with the same
    message whether the job does not exist or belongs to someone else,
    exactly when the caller owns no job of this identifier.  It never
    changes the state. *)
Theorem getById_discloses_own_jobs_only j authorization id st :
  let userId := Http.requester (Auth.optionalAuth j authorization) in
  (Route.getById j authorization id st).2 = st ∧
  match (Route.getById j authorization id st).1 with
  | Http.Answered statusCode body =>
      (statusCode = 200 ∧
       ∃ a, body = Http.Success a ∧ a ∈ db st ∧
            Job.analysis_id a = id ∧ Job.user_id a = userId) ∨
      (statusCode = 404 ∧ body = Http.Failure "Analysis not found" ∧
       ¬ ownedJob st userId id)
  | _ => False
  end.
Proof.
  intros userId. unfold Route.getById, Controller.getAnalysisById, Http.handle.
  fold userId.
  destruct (getAnalysisById_spec id userId st) as (found & -> & Hfound).
  split; [done|]. destruct found as [a|]; simpl.
  - left. split; [done|]. by exists a.
  - right. by split_and!.
Qed.

(** X22.  The status route.  The identifiers asked for are the pieces of
    the query between its commas: none holds a comma, and joined with
    commas they give the query back.  An empty query is answered 400 with
    the message of the validator, and the handler does not run; for any
    other query the route answers 200 with a mapping whose keys are those
    of these pieces that are identifiers of jobs of the caller.  The route
    never changes the state. *)
Theorem getStatus_keys j authorization ids st :
  let userId := Http.requester (Auth.optionalAuth j authorization) in
  JsLib.join ","%string (JsLib.split ids ","%char) = ids ∧
  Forall (λ piece, ","%char ∉ piece) (JsLib.split ids ","%char) ∧
  match ids with
  | [] =>
      Route.getStatus j authorization ids st
      = (Http.Answered 400 (Http.Failure "Analysis IDs are required"), st)
  | _ :: _ =>
      ∃ statuses,
        Route.getStatus j authorization ids st
        = (Http.Answered 200 (Http.Success statuses), st) ∧
        ∀ k, k ∈ dom statuses ↔ k ∈ JsLib.split ids ","%char ∧ ownedJob st userId k
  end.
Proof.
  intros userId.
  destruct (splitBy_spec ","%char [] ids (not_elem_of_nil _)) as [Hall Hjoin].
  split; [exact Hjoin|]. split; [exact Hall|].
  destruct ids as [|c ids]; [done|].
  unfold Route.getStatus, Http.validate, Validator.statusQuerySchema.
  rewrite decide_False by (simpl; lia).
  unfold Controller.getAnalysisStatus, Http.handle. fold userId.
  rewrite getAnalysesStatus_unfold. eexists. split; [done|].
  intros k. by apply (getAnalysesStatus_dom _ userId st).
Qed.

(** ** Authentication *)

Section authentication.
Import Js JsFacts JsLib.

Lemma splitBy_word sep cur word rest :
  sep ∉ word → (rest = [] ∨ head rest = Some sep) →
  head (splitBy sep cur (word ++ rest)) = Some (cur ++ word).
Proof.
  revert cur. induction word as [|c word IH]; intros cur Hword Hrest.
  - rewrite app_nil_r. destruct Hrest as [->|Hrest]; [done|].
    destruct rest as [|x rest]; [done|]. injection Hrest as ->.
    simpl. by rewrite decide_True.
  - apply not_elem_of_cons in Hword as [Hc Hword]. simpl.
    rewrite decide_False by done. rewrite IH by done. by rewrite <-(assoc_L (++)).
Qed.

Lemma splitBy_sep sep cur word t :
  sep ∉ word → splitBy sep cur (word ++ sep :: t) = (cur ++ word) :: splitBy sep [] t.
Proof.
  revert cur. induction word as [|c word IH]; intros cur Hword.
  - simpl. by rewrite decide_True, app_nil_r.
  - apply not_elem_of_cons in Hword as [Hc Hword]. simpl.
    rewrite decide_False by done. rewrite IH by done. by rewrite <-(assoc_L (++)).
Qed.

Lemma word_rest (sep : ascii) (x : jsstring) :
  ∃ word rest, x = word ++ rest ∧ (sep ∉ word) ∧ (rest = [] ∨ head rest = Some sep).
Proof.
  induction x as [|c x (word & rest & -> & Hword & Hrest)].
  - exists [], []. split_and!; [done|apply not_elem_of_nil|by left].
  - destruct (decide (c = sep)) as [->|Hc].
    + exists [], (sep :: word ++ rest). split_and!; [done|apply not_elem_of_nil|by right].
    + exists (c :: word), rest. split_and!; [done| |done]. by apply not_elem_of_cons.
Qed.

Lemma tokenOf_bearer word rest :
  " "%char ∉ word → (rest = [] ∨ head rest = Some " "%char) →
  Auth.tokenOf ("Bearer " ++ word ++ rest) = Some word.
Proof.
  intros Hword Hrest. unfold Auth.tokenOf, split.
  change ("Bearer " ++ word ++ rest) with ("Bearer" ++ " "%char :: word ++ rest).
  rewrite splitBy_sep by (refine (bool_decide_unpack _ _); vm_compute; exact I).
  change ((?x :: ?l) !! 1) with (l !! 0). by rewrite <-head_lookup, splitBy_word.
Qed.

Lemma bearer_Some authorization authHeader :
  Auth.bearer authorization = Some authHeader ↔
  authorization = Some authHeader ∧ ∃ x, authHeader = "Bearer " ++ x.
Proof.
  unfold Auth.bearer, envSet. split.
  - destruct authorization as [[|c s]|]; [done| |done].
    destruct (startsWith (c :: s) "Bearer ") eqn:Hs; [|done].
    intros [= <-]. split; [done|]. by apply startsWith_spec.
  - intros [-> [x ->]]. done.
Qed.

Lemma optionalAuth_Some j authorization user :
  Auth.optionalAuth j authorization = Some user ↔
  ∃ token rest payload,
    authorization = Some ("Bearer " ++ token ++ rest) ∧
    (" "%char ∉ token) ∧ (rest = [] ∨ head rest = Some " "%char) ∧
    Auth.verifyAccessToken j (Some token) = Returned payload ∧
    user = Auth.userOf payload.
Proof.
  unfold Auth.optionalAuth. split.
  - destruct (Auth.bearer authorization) as [authHeader|] eqn:Hb; [|done].
    apply bearer_Some in Hb as [-> [x ->]].
    destruct (word_rest " "%char x) as (token & rest & -> & Htoken & Hrest).
    rewrite tokenOf_bearer by done.
    destruct (Auth.verifyAccessToken j (Some token)) as [payload|e] eqn:Hv; [|done].
    intros [= <-]. by exists token, rest, payload.
  - intros (token & rest & payload & -> & Htoken & Hrest & Hv & ->).
    assert (Auth.bearer (Some ("Bearer " ++ token ++ rest))
            = Some ("Bearer " ++ token ++ rest)) as ->.
    { apply bearer_Some. split; [done|]. by eexists. }
    by rewrite tokenOf_bearer, Hv.
Qed.

End authentication.

(** X23.  The two authentication steps.  A request is given a user
    exactly when its authorization header is the word Bearer, a space and
    a token that verifies as an access token, the token being what
    follows up to the next space or the end of the header; the user is
    the one of the payload of the token.  The step that requires
    authentication lets through exactly the requests to which the
    optional step gives a user, with the same user; it answers 401 to the
    others, saying that no token was provided when the header is absent,
    empty or not a bearer header, and that the token is invalid or expired
    otherwise. *)
Theorem authentication_steps j authorization :
  (∀ user,
     Auth.optionalAuth j authorization = Some user ↔
     ∃ token rest payload,
       authorization = Some ("Bearer " ++ token ++ rest) ∧
       (" "%char ∉ token) ∧ (rest = [] ∨ head rest = Some " "%char) ∧
       Auth.verifyAccessToken j (Some token) = Returned payload ∧
       user = Auth.userOf payload) ∧
  (∀ D : Type,
     @Auth.requireAuth D j authorization
     = match Auth.optionalAuth j authorization with
       | Some user => (Some user, Http.Next)
       | None =>
           (None,
            Http.Answered 401
              (Http.Failure
                 match Auth.bearer authorization with
                 | Some _ => "Invalid or expired token"
                 | None => "No token provided"
                 end))
       end).
Proof.
  split; [intros user; apply optionalAuth_Some|].
  intros D. unfold Auth.requireAuth, Auth.optionalAuth.
  destruct (Auth.bearer authorization) as [authHeader|]; [|done].
  by destruct (Auth.verifyAccessToken j (Auth.tokenOf authHeader)).
Qed.

(** ** Submitting, then reading *)

Lemma list_find_owned (l : list IAnalysis) key a userId :
  NoDup (Job.analysis_id <$> l) → l !! key = Some a →
  list_find (λ a', Job.analysis_id a' = Job.analysis_id a ∧ Job.user_id a' = userId) l
  = if decide (Job.user_id a = userId) then Some (key, a) else None.
Proof.
  intros Hnd Hlook.
  assert (∀ j y, l !! j = Some y → Job.analysis_id y = Job.analysis_id a → j = key) as Huniq.
  { intros j y Hy Hid. eapply NoDup_lookup; [exact Hnd|..]; rewrite list_lookup_fmap.
    - by rewrite Hy.
    - rewrite Hlook. simpl. by rewrite Hid. }
  case_decide as Hu.
  - apply list_find_Some. split_and!; [done|done|done|].
    intros j y Hy Hj [Hid _]. specialize (Huniq j y Hy Hid). lia.
  - apply list_find_None, Forall_forall. intros y Hy [Hid Hu'].
    apply list_elem_of_lookup in Hy as [j Hj].
    specialize (Huniq j y Hj Hid). subst j. congruence.
Qed.

(** X24.  Submitting, then reading.  With a generator that never gives
    the same value twice: once the submission route has answered 202,
    the route of one job, called with the same authorization header for
    any identifier of the answer, answers 200 with the job of this
    identifier, pending, of the batch and the subject of the submission;
    called by anyone else it answers 404. *)
Theorem submitted_job_can_be_read j w authorization urls playerName st r st1 :
  Inj (=) (=) (uuidv4 w) → reachableIn w st →
  Route.postBulk j w authorization urls playerName st
  = (Http.Answered 202 (Http.Success r), st1) →
  Forall (λ id,
            (∃ a, Route.getById j authorization id st1
                  = (Http.Answered 200 (Http.Success a), st1) ∧
                  Job.analysis_id a = id ∧ Job.status a = PENDING ∧
                  Job.player_name a = playerName) ∧
            ∀ authorization',
              Http.requester (Auth.optionalAuth j authorization')
              ≠ Http.requester (Auth.optionalAuth j authorization) →
              Route.getById j authorization' id st1
              = (Http.Answered 404 (Http.Failure "Analysis not found"), st1))
         (analysis_ids r).
Proof.
  intros Hinj Hreach Hpost.
  unfold Route.postBulk, Http.validate in Hpost.
  destruct (Validator.bulkAnalysisSchema urls playerName) as [|issue issues]; [|done].
  unfold Controller.createBulkAnalysis, Http.handle in Hpost.
  set (userId := Http.requester (Auth.optionalAuth j authorization)) in *.
  destruct (processBulkAnalysis w urls userId playerName st) as [[r'|e] st1'] eqn:Hrun;
    [|done].
  injection Hpost as -> ->.
  assert (reachableIn w st1) as Hreach1.
  { eapply rtc_r; [exact Hreach|].
    replace st1 with (processBulkAnalysis w urls userId playerName st).2 by by rewrite Hrun.
    apply stepIn_submit. }
  pose proof (reachableIn_NoDup w st1 Hinj Hreach1) as Hnd.
  destruct (processBulkAnalysis_appends w userId playerName urls st) as (new & Hdb & Hfresh).
  rewrite Hrun in Hdb. cbn [snd] in Hdb.
  destruct (processBulkAnalysis_creates_core w urls userId playerName st r st1 Hrun)
    as (new' & Hdb' & Hids & _).
  assert (new' = new) as -> by (rewrite Hdb in Hdb'; by apply app_inv_head in Hdb').
  rewrite Hids. apply Forall_fmap, Forall_forall. intros a Ha.
  apply list_elem_of_lookup in Ha as [i Hi].
  assert (db st1 !! (length (db st) + i) = Some a) as Hlook.
  { rewrite Hdb, lookup_app_r by lia.
    by replace (length (db st) + i - length (db st)) with i by lia. }
  rewrite Forall_forall in Hfresh.
  destruct (Hfresh a (list_elem_of_lookup_2 _ _ _ Hi)) as (Hst & Hu & Hname & _).
  simpl. split.
  - exists a. split_and!; [|done|done|done].
    unfold Route.getById, Controller.getAnalysisById, Http.handle, getAnalysisById.
    fold userId. rewrite (list_find_owned _ _ _ userId Hnd Hlook).
    by rewrite decide_True.
  - intros authorization' Hother.
    unfold Route.getById, Controller.getAnalysisById, Http.handle, getAnalysisById.
    rewrite (list_find_owned _ _ _ _ Hnd Hlook).
    rewrite decide_False; [done|]. rewrite Hu. by intros Heq.
Qed.

Lemma submitted_job_can_be_read_witness :
  ∃ r st1,
    Route.postBulk Deployed.jwt (Sample.world "timeout") (Some ("Bearer t-zoe" : jsstring))
      Sample.urls "ann" initial
    = (Http.Answered 202 (Http.Success r), st1) ∧
    analysis_ids r = ["ana_uu" : jsstring; "ana_uuu" : jsstring] ∧
    Forall (λ id,
              ∃ a, Route.getById Deployed.jwt (Some ("Bearer t-zoe" : jsstring)) id st1
                   = (Http.Answered 200 (Http.Success a), st1) ∧
                   Job.analysis_id a = id ∧ Job.status a = PENDING ∧
                   Job.player_name a = "ann")
           (analysis_ids r).
Proof.
  destruct (Route.postBulk Deployed.jwt (Sample.world "timeout")
              (Some ("Bearer t-zoe" : jsstring)) Sample.urls "ann" initial)
    as [[code [r| |]| |] st1] eqn:Hpost; try (by vm_compute in Hpost).
  assert (code = 202) as ->.
  { apply (f_equal (λ x, match x.1 with Http.Answered c _ => c | _ => 0 end)) in Hpost.
    simpl in Hpost. rewrite <-Hpost. clear. vm_compute. reflexivity. }
  exists r, st1. split; [reflexivity|]. split.
  - apply (f_equal (λ x, match x.1 with
                         | Http.Answered _ (Http.Success r) => analysis_ids r
                         | _ => []
                         end)) in Hpost.
    simpl in Hpost. rewrite <-Hpost. clear. vm_compute. reflexivity.
  - eapply Forall_impl.
    + apply (submitted_job_can_be_read Deployed.jwt (Sample.world "timeout")
               (Some ("Bearer t-zoe" : jsstring)) Sample.urls "ann" initial r st1).
      * apply sample_uuidv4_inj.
      * apply rtc_refl.
      * exact Hpost.
    + intros id [Hread _]. exact Hread.
Defined.

(** ** Listing the jobs of a requester ([analysis.service.ts], getUserAnalyses) *)

(** X25.  Pages of the listing.  For a page number and a page size of at
    least 1, and a store whose sorted query gives the documents found in
    some order: the listing returns without writing; its total is the
    number of jobs of the requester, whatever the page; the page holds at
    most [limit] jobs, all of the requester and of the store; the first
    [page - 1] pages followed by this page are the first [page] pages of
    the sorted jobs, so that no job is left out or repeated between
    pages; and a page past the total is empty. *)
Theorem getUserAnalyses_pages d userId page limit st :
  (∀ l, Listing.sortByCreatedDesc d l ≡ₚ l) → 1 ≤ page → 1 ≤ limit →
  let mine := filter (λ a, Job.user_id a = userId) (db st) in
  let sorted := Listing.sortByCreatedDesc d mine in
  ∃ r, Listing.getUserAnalyses d userId page limit st = (Returned r, st) ∧
       Listing.total r = length mine ∧
       Listing.analyses r = Listing.pageOf sorted page limit ∧
       length (Listing.analyses r) ≤ limit ∧
       Forall (λ a, Job.user_id a = userId ∧ a ∈ db st) (Listing.analyses r) ∧
       take ((page - 1) * limit) sorted ++ Listing.analyses r = take (page * limit) sorted ∧
       (Listing.total r ≤ (page - 1) * limit → Listing.analyses r = []).
Proof.
  intros Hperm Hpage Hlimit mine sorted.
  unfold Listing.getUserAnalyses. fold mine. fold sorted.
  rewrite decide_False by lia. rewrite decide_False by lia.
  eexists. split; [reflexivity|]. cbn [Listing.analyses Listing.total].
  fold (Listing.pageOf sorted page limit).
  assert (Listing.pageOf sorted page limit ⊆ sorted) as Hsub.
  { unfold Listing.pageOf. intros a Ha.
    rewrite <-(take_drop ((page - 1) * limit) sorted). apply elem_of_app. right.
    rewrite <-(take_drop limit (drop ((page - 1) * limit) sorted)).
    apply elem_of_app. by left. }
  split_and!; [done|done|..].
  - unfold Listing.pageOf. rewrite length_take. lia.
  - apply Forall_forall. intros a Ha. apply Hsub in Ha.
    unfold sorted in Ha. rewrite (Hperm mine) in Ha.
    by apply list_elem_of_filter in Ha.
  - unfold Listing.pageOf. rewrite take_take_drop. f_equal. nia.
  - intros Htotal. unfold Listing.pageOf.
    rewrite drop_ge; [by rewrite take_nil|]. unfold sorted.
    rewrite (Hperm mine). exact Htotal.
Qed.

Lemma getUserAnalyses_pages_witness :
  ∃ r, Listing.getUserAnalyses
         {| Listing.sortByCreatedDesc := reverse; Listing.negativeSkip := JsError "skip" |}
         "guest" 2 1 (Sample.worked "timeout")
       = (Returned r, Sample.worked "timeout") ∧
       Job.analysis_id <$> Listing.analyses r = ["ana_uu" : jsstring].
Proof.
  destruct (getUserAnalyses_pages
              {| Listing.sortByCreatedDesc := reverse;
                 Listing.negativeSkip := JsError "skip" |}
              "guest" 2 1 (Sample.worked "timeout"))
    as (r & Hrun & _ & Hpage & _).
  - intros l. apply reverse_Permutation.
  - lia.
  - lia.
  - exists r. split; [exact Hrun|]. rewrite Hpage. clear. vm_compute. reflexivity.
Defined.

(** ** Handing over a batch ([cloud-tasks.service.ts], enqueueAnalysisBatch) *)

(** X26.  A batch is handed over in order and stops at the first
    failure.  The identifiers handed over are a prefix of the batch, and
    the queue acknowledged each of them; the batch returns exactly when
    all of them were handed over; when it throws, it throws what the
    handing over of the next identifier threw, and no identifier after
    this one is handed over. *)
Theorem enqueueAnalysisBatch_prefix c analysisIds :
  let '(sent, r) := CloudTasks.enqueueAnalysisBatch c analysisIds in
  sent `prefix_of` analysisIds ∧
  Forall (λ id, CloudTasks.enqueueAnalysis c id = Returned ()) sent ∧
  match r with
  | Returned _ => sent = analysisIds
  | Threw e =>
      ∃ id, analysisIds !! length sent = Some id ∧ CloudTasks.enqueueAnalysis c id = Threw e
  end.
Proof.
  induction analysisIds as [|id ids IH]; simpl.
  - split_and!; [done|constructor|done].
  - destruct (CloudTasks.enqueueAnalysis c id) as [[]|e] eqn:Hid.
    + destruct (CloudTasks.enqueueAnalysisBatch c ids) as [sent r].
      destruct IH as (Hpre & Hall & Hr). split_and!.
      * by apply prefix_cons.
      * by constructor.
      * destruct r as [?|e]; [by rewrite Hr|]. exact Hr.
    + split_and!; [apply prefix_nil|constructor|]. by exists id.
Qed.
